(** * aMusing: the progressive-visibility state machine and the frame sequencer

    A shallow embedding of [src/amusing/score/mscx.py] (duration values and
    the notation tree) and of the visibility walk and the frame generator of
    [src/amusing/score/animate.py].

    Python objects that are mutated in place are modelled by explicit state
    passing: a method that mutates [self] returns the new [self].  Python
    exceptions are the [Raise] results of the error monad [result]; a
    generator is the list of the frames it yields, paired with the way it
    ended.  Python floats are IEEE binary64 numbers ([spec_float] at
    precision 53), with Python's and NumPy's own rules for division by zero.
    Texts are ASCII strings. *)

From Stdlib Require Import ZArith QArith List String Ascii Bool Lia Sorted.
From Stdlib Require Import Floats.SpecFloat.
From stdpp Require Import base option list gmap.

Open Scope string_scope.
Open Scope list_scope.
Open Scope Z_scope.

(** ** Exceptions and the error monad *)

Inductive exn : Type :=
| AttributeError
| TypeError
| ValueError
| ZeroDivisionError
| OverflowError
| IndexError
| MElementTagError.

Inductive result (A : Type) : Type :=
| Ok (a : A)
| Raise (e : exn).
Arguments Ok {A} a.
Arguments Raise {A} e.

#[global] Instance result_ret : MRet result := fun A a => Ok a.
#[global] Instance result_bind : MBind result := fun A B k r =>
  match r with
  | Ok a => k a
  | Raise e => Raise e
  end.
#[global] Instance result_fmap : FMap result := fun A B f r =>
  match r with
  | Ok a => Ok (f a)
  | Raise e => Raise e
  end.

(** ** Python numbers

    [PyInt] is Python's unbounded [int], [PyFloat] its [float], [NpFloat] a
    NumPy [float64] scalar (the entries of the time-signature table and the
    cutoffs of [numpy.linspace]).  A NumPy scalar absorbs the other operand
    and never raises on a division by zero. *)

Definition prec : Z := 53.
Definition emax : Z := 1024.

Inductive num : Type :=
| PyInt (z : Z)
| PyFloat (f : spec_float)
| NpFloat (f : spec_float).

Definition float_of_Z (z : Z) : spec_float := binary_normalize prec emax z 0 false.

Definition is_nan (f : spec_float) : bool :=
  match f with S754_nan => true | _ => false end.
Definition is_inf (f : spec_float) : bool :=
  match f with S754_infinity _ => true | _ => false end.
Definition is_zero (f : spec_float) : bool :=
  match f with S754_zero _ => true | _ => false end.
Definition sign_bit (f : spec_float) : bool :=
  match f with
  | S754_zero s | S754_infinity s | S754_finite s _ _ => s
  | S754_nan => false
  end.

(** [float(z)]: an [int] too large for a float raises. *)
Definition to_float (n : num) : result spec_float :=
  match n with
  | PyInt z => let f := float_of_Z z in
               if is_inf f then Raise OverflowError else Ok f
  | PyFloat f | NpFloat f => Ok f
  end.

Definition is_np (a b : num) : bool :=
  match a, b with
  | NpFloat _, _ | _, NpFloat _ => true
  | _, _ => false
  end.

Definition wrap (np : bool) (f : spec_float) : num :=
  if np then NpFloat f else PyFloat f.

Definition num_add (a b : num) : result num :=
  match a, b with
  | PyInt x, PyInt y => Ok (PyInt (x + y))
  | _, _ => x ← to_float a; y ← to_float b;
            Ok (wrap (is_np a b) (SFadd prec emax x y))
  end.

Definition num_sub (a b : num) : result num :=
  match a, b with
  | PyInt x, PyInt y => Ok (PyInt (x - y))
  | _, _ => x ← to_float a; y ← to_float b;
            Ok (wrap (is_np a b) (SFsub prec emax x y))
  end.

Definition num_mul (a b : num) : result num :=
  match a, b with
  | PyInt x, PyInt y => Ok (PyInt (x * y))
  | _, _ => x ← to_float a; y ← to_float b;
            Ok (wrap (is_np a b) (SFmul prec emax x y))
  end.

(** [x / y] on two [int]s: the correctly rounded quotient. *)
Definition int_truediv (x y : Z) : result spec_float :=
  match x, y with
  | _, Z0 => Raise ZeroDivisionError
  | Z0, _ => Ok (S754_zero (y <? 0))
  | _, _ =>
      let q := SFdiv prec emax
                 (S754_finite (x <? 0) (Z.to_pos (Z.abs x)) 0)
                 (S754_finite (y <? 0) (Z.to_pos (Z.abs y)) 0) in
      if is_inf q then Raise OverflowError else Ok q
  end.

Definition num_truediv (a b : num) : result num :=
  match a, b with
  | PyInt x, PyInt y => PyFloat <$> int_truediv x y
  | _, _ => x ← to_float a; y ← to_float b;
            if is_np a b then Ok (NpFloat (SFdiv prec emax x y))
            else if is_zero y then Raise ZeroDivisionError
            else Ok (PyFloat (SFdiv prec emax x y))
  end.

(** C's [fmod]: exact, with the sign of the dividend. *)
Definition fmod (x y : spec_float) : spec_float :=
  match x, y with
  | S754_nan, _ | _, S754_nan => S754_nan
  | S754_infinity _, _ => S754_nan
  | _, S754_zero _ => S754_nan
  | _, S754_infinity _ => x
  | S754_zero _, _ => x
  | S754_finite sx mx ex, S754_finite _ my ey =>
      let e := Z.min ex ey in
      let r := (Z.pos mx * 2 ^ (ex - e)) mod (Z.pos my * 2 ^ (ey - e)) in
      match r with
      | Z0 => S754_zero sx
      | _ => binary_normalize prec emax (if sx then - r else r) e false
      end
  end.

(** The float remainder of Python's [%] and of NumPy's [remainder]: [fmod]
    moved to the sign of the divisor. *)
Definition float_rem (x y : spec_float) : spec_float :=
  let m := fmod x y in
  match m with
  | S754_zero _ => S754_zero (sign_bit y)
  | S754_nan => S754_nan
  | _ => if xorb (sign_bit y) (sign_bit m) then SFadd prec emax m y else m
  end.

Definition num_mod (a b : num) : result num :=
  match a, b with
  | PyInt x, PyInt y => if y =? 0 then Raise ZeroDivisionError else Ok (PyInt (x mod y))
  | _, _ => x ← to_float a; y ← to_float b;
            if is_zero y then
              if is_np a b then Ok (NpFloat S754_nan) else Raise ZeroDivisionError
            else Ok (wrap (is_np a b) (float_rem x y))
  end.

(** Comparisons are exact, also between an [int] and a float. *)
Definition Z_float_compare (z : Z) (f : spec_float) : option comparison :=
  match f with
  | S754_nan => None
  | S754_infinity s => Some (if s then Gt else Lt)
  | S754_zero _ => Some (z ?= 0)
  | S754_finite s m e =>
      let v := if s then Z.neg m else Z.pos m in
      Some (if 0 <=? e then z ?= v * 2 ^ e else z * 2 ^ (- e) ?= v)
  end.

Definition num_compare (a b : num) : option comparison :=
  match a, b with
  | PyInt x, PyInt y => Some (x ?= y)
  | PyInt x, (PyFloat g | NpFloat g) => Z_float_compare x g
  | (PyFloat f | NpFloat f), PyInt y => CompOpp <$> Z_float_compare y f
  | (PyFloat f | NpFloat f), (PyFloat g | NpFloat g) => SFcompare f g
  end.

Definition num_lt (a b : num) : bool :=
  match num_compare a b with Some Lt => true | _ => false end.
Definition num_gt (a b : num) : bool :=
  match num_compare a b with Some Gt => true | _ => false end.
Definition num_ge (a b : num) : bool :=
  match num_compare a b with Some (Gt | Eq) => true | _ => false end.
Definition num_eq (a b : num) : bool :=
  match num_compare a b with Some Eq => true | _ => false end.

(** [max(1, x)]: the first argument stays unless the second is greater. *)
Definition py_max (a b : num) : num := if num_gt b a then b else a.

(** [round(x)] to an [int], half to even. *)
Definition round_half_even (f : spec_float) : result Z :=
  match f with
  | S754_nan => Raise ValueError
  | S754_infinity _ => Raise OverflowError
  | S754_zero _ => Ok 0
  | S754_finite s m e =>
      let a :=
        if 0 <=? e then Z.pos m * 2 ^ e
        else
          let d := 2 ^ (- e) in
          let q := Z.pos m / d in
          match 2 * (Z.pos m mod d) ?= d with
          | Lt => q
          | Gt => q + 1
          | Eq => if Z.even q then q else q + 1
          end in
      Ok (if s then - a else a)
  end.

Definition py_round (a : num) : result Z :=
  match a with
  | PyInt z => Ok z
  | PyFloat f | NpFloat f => round_half_even f
  end.

(** The literals of the source. *)
Definition f_0_01 : spec_float := SFdiv prec emax (float_of_Z 1) (float_of_Z 100).
Definition f_1_5 : spec_float := SFdiv prec emax (float_of_Z 3) (float_of_Z 2).
Definition f_0_5 : spec_float := SFdiv prec emax (float_of_Z 1) (float_of_Z 2).

(** ** Python strings and [int(text)] *)

(** [text[:-2]], [text[1:]] and [text[0]]. *)
Definition drop_last2 (s : string) : string :=
  let l := list_ascii_of_string s in
  string_of_list_ascii (firstn (List.length l - 2) l).

Definition str_tail (s : string) : string :=
  match s with
  | EmptyString => EmptyString
  | String _ r => r
  end.

Definition str_head (s : string) : result string :=
  match s with
  | EmptyString => Raise IndexError
  | String c _ => Ok (String c EmptyString)
  end.

Definition is_space (c : ascii) : bool :=
  let n := N_of_ascii c in
  ((9 <=? n) && (n <=? 13) || (28 <=? n) && (n <=? 32))%N.

Definition digit_val (c : ascii) : option Z :=
  let n := N_of_ascii c in
  if ((48 <=? n) && (n <=? 57))%N then Some (Z.of_N n - 48) else None.

Fixpoint lstrip (l : list ascii) : list ascii :=
  match l with
  | c :: r => if is_space c then lstrip r else l
  | [] => []
  end.

Definition strip (l : list ascii) : list ascii := rev (lstrip (rev (lstrip l))).

(** The interpreter's default limit on the digits of a decimal literal. *)
Definition int_max_str_digits : nat := 4300.

(** Decimal digits, with single underscores allowed between two digits;
    [after_us] says that the previous character was an underscore. *)
Fixpoint parse_digits (acc : Z) (cnt : nat) (after_us : bool) (l : list ascii)
  : option (Z * nat) :=
  match l with
  | [] => if after_us then None else Some (acc, cnt)
  | c :: r =>
      match digit_val c with
      | Some d => parse_digits (10 * acc + d) (S cnt) false r
      | None =>
          if Ascii.eqb c "_" && negb after_us then parse_digits acc cnt true r
          else None
      end
  end.

Definition parse_unsigned (l : list ascii) : result Z :=
  match l with
  | [] => Raise ValueError
  | c :: _ =>
      match digit_val c with
      | None => Raise ValueError
      | Some _ =>
          match parse_digits 0 0 false l with
          | Some (z, cnt) =>
              if (int_max_str_digits <? cnt)%nat then Raise ValueError else Ok z
          | None => Raise ValueError
          end
      end
  end.

(** [int(s)] on a string: surrounding white space, an optional sign, digits. *)
Definition py_int_str (s : string) : result Z :=
  match strip (list_ascii_of_string s) with
  | "-"%char :: r => Z.opp <$> parse_unsigned r
  | "+"%char :: r => parse_unsigned r
  | l => parse_unsigned l
  end.

(** [int(x)] on the text of an element, which is a string or [None]. *)
Definition py_int (x : option string) : result Z :=
  match x with
  | None => Raise TypeError
  | Some s => py_int_str s
  end.

(** [range(n)] *)
Definition py_range (n : Z) : list Z := map Z.of_nat (seq 0 (Z.to_nat n)).

(** ** mscx.py: [class Note] *)

Record Note : Type := { _value : num }.

(** [Note(note_type)] *)
Definition Note__init__ (note_type : num) : result Note :=
  v ← num_truediv (PyInt 1024) note_type; Ok {| _value := v |}.

Definition ntype (self : Note) : result num := num_truediv (PyInt 1024) (_value self).
Definition value (self : Note) : num := _value self.

(** [text == s], where [text] may be [None]. *)
Definition text_is (t : option string) (s : string) : bool :=
  match t with
  | Some x => String.eqb x s
  | None => false
  end.

Definition from_text (text : option string) : result Note :=
  if text_is text "breve" then Note__init__ (PyFloat f_0_5)
  else if text_is text "whole" then Note__init__ (PyInt 1)
  else if text_is text "half" then Note__init__ (PyInt 2)
  else if text_is text "quarter" then Note__init__ (PyInt 4)
  else if text_is text "eighth" then Note__init__ (PyInt 8)
  else match text with
       | None => Raise TypeError
       | Some s => n ← py_int_str (drop_last2 s); Note__init__ (PyInt n)
       end.

(** The in-place operators: each returns the mutated [self]. *)
Definition scale (self : Note) (k : num) : result Note :=
  v ← num_mul (_value self) k; Ok {| _value := v |}.

Definition half (self : Note) : result Note :=
  v ← num_truediv (_value self) (PyInt 2); Ok {| _value := v |}.

Definition dot (self : Note) : result Note := scale self (PyFloat f_1_5).

(** [sum(1/2**i for i in range(dots + 1))] *)
Definition dot_sum (dots : Z) : result num :=
  foldl (fun acc i => s ← acc; t ← num_truediv (PyInt 1) (PyInt (2 ^ i)); num_add s t)
        (Ok (PyInt 0)) (py_range (dots + 1)).

Definition n_dot (self : Note) (dots : Z) : result Note :=
  k ← dot_sum dots; scale self k.

Definition triplet (self : Note) : result Note :=
  k ← num_truediv (PyInt 2) (PyInt 3); scale self k.

Definition n_tuplet (self : Note) (actual_notes normal_notes : Z) : result Note :=
  k ← num_truediv (PyInt normal_notes) (PyInt actual_notes); scale self k.

(** Objects and identity.  [Note] defines no [__eq__], so [a == b] on two
    Duration Values is Python's default: the identity of the two objects.
    The store maps each object to its state; a constructor allocates. *)
Definition ref : Type := nat.
Definition store : Type := list Note.

Definition alloc (n : Note) (h : store) : ref * store := (List.length h, h ++ [n]).

Definition new_Note (note_type : num) (h : store) : result (ref * store) :=
  n ← Note__init__ note_type; Ok (alloc n h).

Definition new_from_text (text : option string) (h : store) : result (ref * store) :=
  n ← from_text text; Ok (alloc n h).

Definition obj_eq (a b : ref) : bool := Nat.eqb a b.

(** A mutating method called through a reference: the object is updated in
    the store and the same reference is returned. *)
Definition call (m : Note → result Note) (r : ref) (h : store) : result (ref * store) :=
  match h !! r with
  | None => Raise AttributeError
  | Some n => n' ← m n; Ok (r, <[r := n']> h)
  end.

(** ** mscx.py: [class MElement] *)

Definition CHORD_SUB : list string := ["Accidental"; "Stem"; "NoteDot"; "Note"; "Hook"].
Definition GRACENOTE : list string :=
  ["grace4"; "acciaccatura"; "appoggiatura"; "grace8after"; "grace16";
   "grace16after"; "grace32"; "grace32after"].
Definition INVISIBILIZE : list string :=
  ["Accidental"; "Articulation"; "BarLine"; "Beam"; "Clef"; "Dynamic"; "Fermata";
   "Fingering"; "HairPin"; "Hook"; "KeySig"; "Note"; "Ottava"; "Pedal"; "Rest";
   "Segment"; "Slur"; "SlurSegment"; "StaffText"; "Stem"; "StemSlash";
   "SystemText"; "Tempo"; "TextLine"; "Tie"; "TieSegment"; "TimeSig"; "Tremolo";
   "Trill"].
Definition UNPRINTABLE : list string :=
  ["visible"; "irregular"; "stretch"; "startRepeat"; "endRepeat"; "MeasureNumber";
   "LayoutBreak"; "noOffset"; "vspacerUp"; "vspacerDown"; "vspacerFixed"].

Definition str_in (s : string) (l : list string) : bool := existsb (String.eqb s) l.

(** An element of the tree: tag, attributes, text, the ordered children, and
    the lock that [MElement] adds. *)
#[warnings="-register-all"]
Inductive MElement : Type :=
  Element {
    tag : string;
    attrib : list (string * string);
    text : option string;
    children : list MElement;
    visibility_locked : bool
  }.

Definition with_children (e : MElement) (cs : list MElement) : MElement :=
  Element (tag e) (attrib e) (text e) cs (visibility_locked e).

(** [MElement(tag)] *)
Definition MElement__init__ (tg : string) : MElement :=
  Element tg [] None [] (String.eqb tg "Measure").

Definition has_tag (tg : string) (e : MElement) : bool := String.eqb (tag e) tg.

(** [self.find(tag)] for a plain tag: the first direct child with it. *)
Definition find (tg : string) (self : MElement) : option MElement :=
  List.find (has_tag tg) (children self).

(** [self.find(tag).text], which fails on [None]. *)
Definition find_text (tg : string) (self : MElement) : result (option string) :=
  match find tg self with
  | None => Raise AttributeError
  | Some c => Ok (text c)
  end.

Definition append (self child : MElement) : MElement :=
  with_children self (children self ++ [child]).

(** [self.remove(e)] for the child [e] that [find] returned. *)
Fixpoint remove_first (tg : string) (l : list MElement) : list MElement :=
  match l with
  | [] => []
  | c :: r => if has_tag tg c then r else c :: remove_first tg r
  end.

Definition contains (tg : string) (self : MElement) : bool :=
  match find tg self with Some _ => true | None => false end.

(** [voice[start:]] *)
Definition slice_from {A} (l : list A) (start : Z) : list A :=
  if start <? 0 then skipn (Z.to_nat (Z.max (Z.of_nat (List.length l) + start) 0)) l
  else skipn (Z.to_nat start) l.

Fixpoint first_chord (l : list MElement) (i : Z) : option (MElement * Z) :=
  match l with
  | [] => None
  | c :: r => if has_tag "Chord" c then Some (c, i) else first_chord r (i + 1)
  end.

(** A call that falls off the end returns [None]. *)
Definition get_next_chord (voice : MElement) (index : Z) : result (option (MElement * Z)) :=
  if negb (has_tag "voice" voice) then Raise MElementTagError
  else Ok (first_chord (slice_from (children voice) (index + 1)) (0 + index + 1)).

Definition _is_visible (self : MElement) : option MElement * bool :=
  match find "visible" self with
  | None => (None, true)
  | Some v => (Some v, negb (text_is (text v) "0"))
  end.

Definition lock_visibility (self : MElement) : MElement :=
  Element (tag self) (attrib self) (text self) (children self) true.

Definition is_protected (self : MElement) : bool := visibility_locked self.

Definition is_visible (self : MElement) : bool := snd (_is_visible self).

Definition set_visible (self : MElement) : MElement :=
  if is_protected self then self
  else if negb (is_visible self)
       then with_children self (remove_first "visible" (children self))
       else self.

(** The marker that [set_invisible] builds: [<visible>0</visible>]. *)
Definition invisible_marker : MElement :=
  Element "visible" [] (Some "0") [] false.

Definition set_invisible (self : MElement) : MElement :=
  if is_protected self then self
  else if negb (is_visible self) then self
       else append self invisible_marker.

Definition new_element (tg : string) (txt : option string) (visible : bool) : MElement :=
  let elem := Element tg [] txt [] (String.eqb tg "Measure") in
  if visible then elem else set_invisible elem.

Definition tag_matches (filter : option string) (t : string) : bool :=
  match filter with
  | None => true
  | Some s => String.eqb t s
  end.

(** [for x in self.iter(tag): x.set_visible()].  The iterator yields a node
    before it descends, so the children it then walks are the ones left
    after the node's own marker is gone: [drop] skips that first marker. *)
Fixpoint set_visible_iter (filter : option string) (e : MElement) : MElement :=
  match e with
  | Element t a tx cs l =>
      Element t a tx
        ((fix walk (drop : bool) (cs : list MElement) : list MElement :=
            match cs with
            | [] => []
            | c :: r =>
                if drop && has_tag "visible" c then walk false r
                else set_visible_iter filter c :: walk drop r
            end)
           (tag_matches filter t && negb l && negb (is_visible e)) cs)
        l
  end.

(** [for x in self.iter(tag): x.set_invisible()] for a tag other than
    ["visible"]: the appended marker is walked too, but it does not match and
    has no children. *)
Fixpoint set_invisible_iter (tg : string) (e : MElement) : MElement :=
  match e with
  | Element t a tx cs l =>
      Element t a tx
        (List.map (set_invisible_iter tg) cs
           ++ (if String.eqb t tg && negb l && is_visible e
               then [invisible_marker] else []))
        l
  end.

(** [self.set_visible_all()] with its default arguments. *)
Definition set_visible_all (self : MElement) : MElement := set_visible_iter None self.

(** [get_chord_subelements] walks the chord once per tag of [CHORD_SUB]. *)
Definition set_visible_chord (self : MElement) : result MElement :=
  if negb (has_tag "Chord" self) then Raise MElementTagError
  else Ok (foldl (fun e tg => set_visible_iter (Some tg) e) self CHORD_SUB).

Definition set_invisible_chord (self : MElement) : result MElement :=
  if negb (has_tag "Chord" self) then Raise MElementTagError
  else Ok (foldl (fun e tg => set_invisible_iter tg e) self CHORD_SUB).

Definition tremolo_subtype (self : MElement) (duration_type : num) : result (string * Note) :=
  if negb (has_tag "Tremolo" self) then Raise MElementTagError
  else
    subtype_text ← find_text "subtype" self;
    match subtype_text with
    | None => Raise TypeError
    | Some s =>
        tremolo_timediff ← py_int_str (str_tail s);
        c ← str_head s;
        n4 ← Note__init__ (PyInt 4);
        q ← num_truediv (value n4) duration_type;
        nt ← num_mul (PyInt tremolo_timediff) (py_max (PyInt 1) q);
        n ← Note__init__ nt;
        Ok (c, n)
    end.

Definition duration_value (self : MElement) (timesig : num) : result (num * num) :=
  if negb (has_tag "Chord" self || has_tag "Rest" self) then Raise MElementTagError
  else
    dotted ← match find "dots" self with
             | None => Ok (PyInt 1)
             | Some dots => n ← py_int (text dots); dot_sum n
             end;
    duration_type_text ← find_text "durationType" self;
    duration_type ← (if text_is duration_type_text "measure" then Ok timesig
                     else value <$> from_text duration_type_text);
    Ok (dotted, duration_type).

Definition is_tuplet (self : MElement) : bool :=
  has_tag "Tuplet" self || has_tag "endTuplet" self.

Definition tuplet_value (self : MElement) : result num :=
  if has_tag "Tuplet" self then
    nt ← find_text "normalNotes" self; n ← py_int nt;
    at_ ← find_text "actualNotes" self; a ← py_int at_;
    num_truediv (PyInt n) (PyInt a)
  else if has_tag "endTuplet" self then Ok (PyFloat (float_of_Z 1))
  else Raise MElementTagError.

Definition is_unprintable (self : MElement) : bool := str_in (tag self) UNPRINTABLE.

Definition is_gracenote (self : MElement) : bool :=
  existsb (fun subelem => str_in (tag subelem) GRACENOTE) (children self).

Section Eval.

(** [eval(text)]: the value of a Python expression, or the exception it
    raises.  The document decides what is evaluated, so the evaluator is a
    parameter of everything below. *)
Variable py_eval : string → result num.

Definition duration_offset (self : MElement) : result num :=
  if negb (has_tag "location" self) then Raise MElementTagError
  else
    t ← find_text "fractions" self;
    match t with
    | None => Raise TypeError
    | Some s => v ← py_eval s; n1 ← Note__init__ (PyInt 1); num_mul v (value n1)
    end.

End Eval.

(** ** animate.py: the visibility walk *)

Definition _last_element_in_measure (duration max_duration : num) : result bool :=
  d ← num_sub duration (PyFloat f_0_01); Ok (num_lt max_duration d).

(** [voice[i]] of an index that [enumerate] produced. *)
Definition child_at (voice : MElement) (i : nat) : result MElement :=
  match children voice !! i with
  | Some e => Ok e
  | None => Raise IndexError
  end.

(** An element mutated in place shows in its parent at the same position. *)
Definition put_child (voice : MElement) (i : nat) (e : MElement) : MElement :=
  with_children voice (<[i := e]> (children voice)).

(** [tremolo.set_visible()] for the child that [element.find('Tremolo')]
    returned: the first child with that tag. *)
Fixpoint update_first (tg : string) (f : MElement → MElement) (l : list MElement)
  : list MElement :=
  match l with
  | [] => []
  | c :: r => if has_tag tg c then f c :: r else c :: update_first tg f r
  end.

(** [element] is [voice[element_index]]: the walk reads it there, and the
    chords that the tremolo rule mutates are written back into [voice].  The
    result is the mutated voice and the returned index. *)
Definition _visibilize_tremolo (voice : MElement) (element_index : nat)
    (duration duration_type chord_duration : num)
    (next_tremolo_element_index : option Z)
    (max_duration : num) (max_tremolo : Note) : result (MElement * option Z) :=
  element ← child_at voice element_index;
  match find "Tremolo" element with
  | None => Ok (voice, next_tremolo_element_index)
  | Some tremolo =>
      '(subtype_c, tremolo_timediff) ← tremolo_subtype tremolo duration_type;
      if String.eqb subtype_c "c" then
        nc ← get_next_chord voice (Z.of_nat element_index);
        match nc with
        | None => Raise TypeError
        | Some (next_element, next_index) =>
            let j := Z.to_nat next_index in
            d ← num_add duration chord_duration;
            last ← _last_element_in_measure d max_duration;
            if (last : bool) then
              bound ← num_sub (value max_tremolo) (PyFloat f_0_01);
              if num_ge (value tremolo_timediff) bound then
                let element := with_children element
                                 (update_first "Tremolo" set_visible (children element)) in
                x ← num_sub max_duration duration;
                m ← num_mul (PyInt 2) (value tremolo_timediff);
                r ← num_mod x m;
                q ← num_truediv r (value tremolo_timediff);
                if num_lt q (PyInt 1) then
                  e' ← set_visible_chord element;
                  n' ← set_invisible_chord next_element;
                  Ok (put_child (put_child voice element_index e') j n', Some next_index)
                else
                  e' ← set_invisible_chord element;
                  n' ← set_visible_chord next_element;
                  Ok (put_child (put_child voice element_index e') j n', Some next_index)
              else
                Ok (put_child voice j (set_visible_all next_element), Some next_index)
            else
              Ok (put_child (put_child voice element_index (set_visible element))
                            j (set_visible next_element), Some next_index)
        end
      else Ok (voice, next_tremolo_element_index)
  end.

(** The local variables of the loop over one voice. *)
Record walk : Type := {
  w_voice : MElement;
  w_next : option Z;        (* next_tremolo_element_index *)
  w_duration : num;
  w_tuplet : num
}.

Inductive flow : Type := Continue | Break.

Section Walk.

Variable py_eval : string → result num.
Variables (time_sig max_duration : num) (max_tremolo : Note).

(** The body of [for element_index, element in enumerate(voice)]. *)
Definition visit (element_index : nat) (w : walk) : result (walk * flow) :=
  element ← child_at (w_voice w) element_index;
  let element := set_visible_all element in
  let voice := put_child (w_voice w) element_index element in
  if bool_decide (w_next w = Some (Z.of_nat element_index)) then
    Ok ({| w_voice := voice; w_next := None;
           w_duration := w_duration w; w_tuplet := w_tuplet w |}, Continue)
  else
    w' ← (if is_gracenote element then
            Ok {| w_voice := voice; w_next := w_next w;
                  w_duration := w_duration w; w_tuplet := w_tuplet w |}
          else if has_tag "location" element then
            off ← duration_offset py_eval element;
            d ← num_add (w_duration w) off;
            Ok {| w_voice := voice; w_next := w_next w;
                  w_duration := d; w_tuplet := w_tuplet w |}
          else if is_tuplet element then
            t ← tuplet_value element;
            Ok {| w_voice := voice; w_next := w_next w;
                  w_duration := w_duration w; w_tuplet := t |}
          else if has_tag "Chord" element || has_tag "Rest" element then
            '(dotted, duration_type) ← duration_value element time_sig;
            td ← num_mul (w_tuplet w) dotted;
            chord_duration ← num_mul td duration_type;
            '(voice', next) ← _visibilize_tremolo voice element_index (w_duration w)
                                duration_type chord_duration (w_next w)
                                max_duration max_tremolo;
            d ← num_add (w_duration w) chord_duration;
            Ok {| w_voice := voice'; w_next := next;
                  w_duration := d; w_tuplet := w_tuplet w |}
          else
            Ok {| w_voice := voice; w_next := w_next w;
                  w_duration := w_duration w; w_tuplet := w_tuplet w |});
    last ← _last_element_in_measure (w_duration w') max_duration;
    Ok (w', if (last : bool) then Break else Continue).

(** The loop from [element_index] on, over the [remaining] elements.  The
    result holds the local variables when the loop ends and the index at
    which it broke, if it did. *)
Fixpoint walk_from (remaining : nat) (element_index : nat) (w : walk)
  : result (walk * option nat) :=
  match remaining with
  | O => Ok (w, None)
  | S remaining' =>
      '(w', fl) ← visit element_index w;
      match fl with
      | Break => Ok (w', Some element_index)
      | Continue => walk_from remaining' (S element_index) w'
      end
  end.

Definition walk_init (voice : MElement) : walk :=
  {| w_voice := voice; w_next := None; w_duration := PyInt 0; w_tuplet := PyInt 1 |}.

Definition walk_voice (voice : MElement) : result (walk * option nat) :=
  walk_from (List.length (children voice)) 0 (walk_init voice).

(** [for voice in measure] *)
Definition visibilize_voice (voice : MElement) : result MElement :=
  if is_unprintable voice then Ok voice
  else w_voice ∘ fst <$> walk_voice voice.

Fixpoint map_result {A B} (f : A → result B) (l : list A) : result (list B) :=
  match l with
  | [] => Ok []
  | a :: r => b ← f a; bs ← map_result f r; Ok (b :: bs)
  end.

Definition visibilize_one_measure (measure : MElement) : result MElement :=
  with_children measure <$> map_result visibilize_voice (children measure).

Definition _visibilize_measure (measures : list MElement) : result (list MElement) :=
  map_result visibilize_one_measure measures.

End Walk.

(** ** animate.py: the frame sequencer *)

(** The live tree, as the sequencer sees it: the measures of every staff,
    [[staff.findall('Measure') for staff in root.findall('Score/Staff')]].
    Nothing else of the document is touched, so a deep copy of the tree is
    the value of this grid at the moment of the [yield]. *)
Definition tree : Type := list (list MElement).

(** A generator: the frames it has yielded, and how it ended. *)
Record gen (A : Type) : Type := Gen {
  yielded : list (Z * tree);
  ended : result A
}.
Arguments Gen {A} _ _.
Arguments yielded {A} _.
Arguments ended {A} _.

#[global] Instance gen_ret : MRet gen := fun A a => Gen [] (Ok a).
#[global] Instance gen_bind : MBind gen := fun A B k g =>
  match ended g with
  | Ok a => Gen (yielded g ++ yielded (k a)) (ended (k a))
  | Raise e => Gen (yielded g) (Raise e)
  end.

Definition yield (page : Z) (t : tree) : gen unit := Gen [(page, t)] (Ok tt).
Definition lift {A} (r : result A) : gen A := Gen [] r.

(** The fields of [Amusing] that the sequencer reads. *)
Record Amusing : Type := {
  first_emtpy_frame : bool;
  jobs : gmap Z Note;
  _timesigs : list (list spec_float)
}.

(** [self._timesigs[measure_index, 0]] *)
Definition timesig_at (self : Amusing) (measure_index : nat) : result num :=
  match _timesigs self !! measure_index with
  | Some row =>
      match row !! 0%nat with
      | Some f => Ok (NpFloat f)
      | None => Raise IndexError
      end
  | None => Raise IndexError
  end.

(** [numpy.linspace(0, stop, num, endpoint=False)], as NumPy computes it:
    [arange(num) * step + start] with [step = (stop - start) / num], or
    [arange(num) / num * (stop - start) + start] when that step is zero. *)
Definition np_linspace (stop : spec_float) (n : Z) : result (list num) :=
  if n <? 0 then Raise ValueError
  else
    let start := SFmul prec emax (float_of_Z 0) (float_of_Z 1) in
    let delta := SFsub prec emax (SFmul prec emax stop (float_of_Z 1)) start in
    let step := SFdiv prec emax delta (float_of_Z n) in
    Ok (map (fun i =>
               let y := float_of_Z i in
               let y := if SFeqb step (float_of_Z 0)
                        then SFmul prec emax (SFdiv prec emax y (float_of_Z n)) delta
                        else SFmul prec emax y step in
               NpFloat (SFadd prec emax y start))
            (py_range n)).

(** Zipping the staves stops at the shortest staff. *)
Definition ncols (staves : tree) : nat :=
  match staves with
  | [] => O
  | st :: r => foldr (fun s n => Nat.min (List.length s) n) (List.length st) r
  end.

(** The [measures] tuple of one index, and the same measures after they
    have been mutated. *)
Definition column (i : nat) (staves : tree) : list MElement :=
  flat_map (fun st => match st !! i with Some m => [m] | None => [] end) staves.

Fixpoint set_column (i : nat) (ms : list MElement) (staves : tree) : tree :=
  match staves, ms with
  | st :: r, m :: ms' => <[i := m]> st :: set_column i ms' r
  | _, _ => staves
  end.

(** The search for a page break among the children of the measures. *)
Fixpoint scan_layout_breaks (vs : list MElement) (newpage : bool) : result bool :=
  match vs with
  | [] => Ok newpage
  | voice :: r =>
      if has_tag "LayoutBreak" voice then
        t ← find_text "subtype" voice;
        if text_is t "page" then Ok true else scan_layout_breaks r newpage
      else scan_layout_breaks r newpage
  end.

Fixpoint detect_page_break (measures : list MElement) (newpage : bool) : result bool :=
  match measures with
  | [] => Ok newpage
  | measure :: r =>
      np ← scan_layout_breaks (children measure) newpage;
      detect_page_break r np
  end.

(** The local variables of [_get_trees]. *)
Record sequencer : Type := {
  s_tree : tree;
  s_page : Z;
  s_newpage : bool
}.

Section Sequencer.

Variable py_eval : string → result num.
Variable self : Amusing.
Variable max_tremolo : Note.

(** [for ... in enumerate(np.linspace(...))]: one walk and one frame per
    cutoff. *)
Fixpoint animate (cutoffs : list num) (measure_index : nat) (time_sig : num)
    (page : Z) (t : tree) : gen tree :=
  match cutoffs with
  | [] => mret t
  | max_duration :: r =>
      ms ← lift (_visibilize_measure py_eval time_sig max_duration max_tremolo
                   (column measure_index t));
      let t := set_column measure_index ms t in
      yield page t;;
      animate r measure_index time_sig page t
  end.

Definition reset_measures (measure_index : nat) (t : tree) : tree :=
  set_column measure_index (map set_visible_all (column measure_index t)) t.

(** The cutoffs of one job. *)
Definition job_cutoffs (time_sig : num) (subdivision : Note) : result (list num) :=
  q ← num_truediv time_sig (value subdivision);
  frame_count ← py_round q;
  f ← to_float time_sig;
  np_linspace f frame_count.

(** The body of the loop over the measure indices of the zipped staves. *)
Definition sequence_measure (measure_index : nat) (s : sequencer) : gen sequencer :=
  newpage ← lift (detect_page_break (column measure_index (s_tree s)) (s_newpage s));
  t ← match jobs self !! Z.of_nat measure_index with
      | Some subdivision =>
          time_sig ← lift (timesig_at self measure_index);
          cutoffs ← lift (job_cutoffs time_sig subdivision);
          t ← animate cutoffs measure_index time_sig (s_page s) (s_tree s);
          mret (reset_measures measure_index t)
      | None => mret (reset_measures measure_index (s_tree s))
      end;
  if (newpage : bool) then
    yield (s_page s + 1) t;;
    mret {| s_tree := t; s_page := s_page s + 1; s_newpage := false |}
  else mret {| s_tree := t; s_page := s_page s; s_newpage := newpage |}.

Fixpoint sequence_from (remaining : nat) (measure_index : nat) (s : sequencer)
  : gen sequencer :=
  match remaining with
  | O => mret s
  | S remaining' =>
      s' ← sequence_measure measure_index s;
      sequence_from remaining' (S measure_index) s'
  end.

(** The end barline of a staff: [staff[-1]] fails on a staff without
    measures. *)
Definition end_barline : MElement :=
  append (new_element "BarLine" None true) (new_element "subtype" (Some "end") true).

Definition close_staff (staff : list MElement) : result (list MElement) :=
  match staff !! (List.length staff - 1)%nat with
  | None => Raise IndexError
  | Some m =>
      if contains "BarLine" m then Ok staff
      else Ok (<[(List.length staff - 1)%nat := append m end_barline]> staff)
  end.

(** The generator: its frames, and the tree it leaves behind. *)
Definition _get_trees (t : tree) : gen tree :=
  (if first_emtpy_frame self then yield 1 t else mret tt);;
  s ← sequence_from (ncols t) 0 {| s_tree := t; s_page := 1; s_newpage := false |};
  t ← lift (map_result close_staff (s_tree s));
  yield (s_page s) t;;
  mret t.

End Sequencer.

(** ** Vocabulary of the statements *)

(** A float that is a number: a zero or a finite value. *)
Definition finite_or_zero (f : spec_float) : bool :=
  match f with
  | S754_zero _ | S754_finite _ _ _ => true
  | _ => false
  end.

Definition fexp64 (e : Z) : Z := fexp prec emax e.

(** The calls that change the visibility of one node. *)
Inductive vis_op : Type := SetVisible | SetInvisible.

Definition apply_op (e : MElement) (op : vis_op) : MElement :=
  match op with
  | SetVisible => set_visible e
  | SetInvisible => set_invisible e
  end.

(** The children of a node that carry the tag ["visible"]. *)
Definition markers (e : MElement) : list MElement :=
  filter (fun c => has_tag "visible" c = true) (children e).

(** A node as the documents of the program have it: at most one marker, and
    that marker says ["0"]. *)
Definition clean (e : MElement) : Prop :=
  match markers e with
  | [] => True
  | [m] => text m = Some "0"
  | _ => False
  end.

(** Sample nodes. *)
Definition hidden_note : MElement := set_invisible (Element "Note" [] None [] false).

Definition marked_visible : MElement :=
  Element "Note" [] None [Element "visible" [] (Some "1") [] false] false.

(** The words that [from_text] knows, and the form [<int>th]: one decimal
    digit or more, followed by ["th"]. *)
Definition recognized_word (s : string) : bool :=
  str_in s ["breve"; "whole"; "half"; "quarter"; "eighth"].

Definition is_digit (c : ascii) : bool :=
  match digit_val c with Some _ => true | None => false end.

Definition int_th_form (s : string) : bool :=
  let l := list_ascii_of_string s in
  let n := (List.length l - 2)%nat in
  negb (Nat.eqb n 0) && forallb is_digit (firstn n l)
  && String.eqb (string_of_list_ascii (skipn n l)) "th".

Definition raises {A} (r : result A) : bool :=
  match r with Raise _ => true | Ok _ => false end.

(** The value of a recognized word, in the unit of [Note]: 1024 to the
    whole note. *)
Definition word_units (s : string) : Z :=
  if String.eqb s "breve" then 2048
  else if String.eqb s "whole" then 1024
  else if String.eqb s "half" then 512
  else if String.eqb s "quarter" then 256
  else 128.

(** The note type that a token names: the argument that [from_text] hands
    to the constructor. *)
Definition token_note_type (s : string) : result num :=
  if String.eqb s "breve" then Ok (PyFloat f_0_5)
  else if String.eqb s "whole" then Ok (PyInt 1)
  else if String.eqb s "half" then Ok (PyInt 2)
  else if String.eqb s "quarter" then Ok (PyInt 4)
  else if String.eqb s "eighth" then Ok (PyInt 8)
  else PyInt <$> py_int_str (drop_last2 s).

(** "Two Duration Values compare by their scalar ratio", read on [==]. *)
Definition compares_by_ratio (h : store) (a b : ref) : Prop :=
  ∀ na nb, h !! a = Some na → h !! b = Some nb →
           num_eq (value na) (value nb) = true → obj_eq a b = true.

Definition quarter : Note := {| _value := PyFloat (float_of_Z 256) |}.

(** The rational number that a float stands for. *)
Definition Qvalue (f : spec_float) : option Q :=
  match f with
  | S754_zero _ => Some 0%Q
  | S754_finite s m e =>
      Some ((if s then inject_Z (Z.neg m) else inject_Z (Z.pos m)) * (2 # 1) ^ e)%Q
  | _ => None
  end.

(** The sum of [2^-i] for [i] from 0 to [n]. *)
Definition dot_series (n : Z) : Q :=
  fold_right Qplus 0%Q (map (fun i => ((1 # 2) ^ i)%Q) (py_range (n + 1))).

Definition two : spec_float := float_of_Z 2.

Definition is_two (f : spec_float) : bool :=
  match f with
  | S754_finite false m e => (Z.pos m =? 2 ^ 52) && (e =? -51)
  | _ => false
  end.

(** The factor of [n_dot], checked against the series. *)
Definition dot_factor_ok (n : Z) (k : spec_float) : bool :=
  if n <=? 52 then
    match Qvalue k with
    | Some q => Qeq_bool q (dot_series n)
    | None => false
    end
  else is_two k.

Definition dot_sum_ok (n : Z) : bool :=
  match dot_sum n with
  | Ok (PyFloat k) => dot_factor_ok n k
  | _ => false
  end.

(** Adding [1/2**i] to 2.0 leaves 2.0. *)
Definition tail_term_ok (i : Z) : bool :=
  match int_truediv 1 (2 ^ i) with
  | Ok t => is_two (SFadd prec emax two t)
  | Raise _ => false
  end.

(** The children that [set_visible_iter] leaves under a node. *)
Definition visible_walk (filter : option string) : bool → list MElement → list MElement :=
  fix walk (drop : bool) (cs : list MElement) : list MElement :=
    match cs with
    | [] => []
    | c :: r =>
        if drop && has_tag "visible" c then walk false r
        else set_visible_iter filter c :: walk drop r
    end.

(** A chord with its chord-frame subelements shown, and with them hidden. *)
Definition show_chord (e : MElement) : MElement :=
  foldl (fun e tg => set_visible_iter (Some tg) e) e CHORD_SUB.

Definition hide_chord (e : MElement) : MElement :=
  foldl (fun e tg => set_invisible_iter tg e) e CHORD_SUB.

(** A chord with the glyph of its tremolo made visible. *)
Definition show_tremolo_glyph (e : MElement) : MElement :=
  with_children e (update_first "Tremolo" set_visible (children e)).

(** The phase of a cutoff inside a tremolo pair that starts at [cursor], for
    strokes of duration [d]: [((max_duration - cursor) % (2 * d)) / d]. *)
Definition tremolo_phase (max_duration cursor d : num) : result num :=
  x ← num_sub max_duration cursor;
  m ← num_mul (PyInt 2) d;
  r ← num_mod x m;
  num_truediv r d.

(** The stopping rule as the specification words it: the cursor exceeds the
    cutoff less 0.01. *)
Definition stops_as_specified (cursor cutoff : num) : result bool :=
  b ← num_sub cutoff (PyFloat f_0_01); Ok (num_gt cursor b).

Definition is_break (fl : flow) : bool :=
  match fl with Break => true | Continue => false end.

(** How many elements the loop over a voice visited. *)
Definition visited (voice : MElement) (stop : option nat) : nat :=
  match stop with
  | Some k => S k
  | None => List.length (children voice)
  end.

(** No direct child of the voice carries a tremolo. *)
Definition tremolo_free (voice : MElement) : Prop :=
  ∀ e, In e (children voice) → find "Tremolo" e = None.

(** Sample documents: leaves, nodes, a chord whose note the baseline pass
    has hidden. *)
Definition leaf (tg txt : string) : MElement := Element tg [] (Some txt) [] false.
Definition node (tg : string) (cs : list MElement) : MElement :=
  Element tg [] None cs (String.eqb tg "Measure").
Definition sample_chord (dur : string) : MElement :=
  node "Chord" [leaf "durationType" dur; set_invisible (node "Note" [leaf "pitch" "60"])].
Definition sample_voice : MElement :=
  node "voice" [sample_chord "quarter"; sample_chord "quarter"; sample_chord "half"].
Definition no_eval (s : string) : result num := Raise ValueError.
Definition units (z : Z) : num := NpFloat (float_of_Z z).
Definition thirty_second : Note := {| _value := PyFloat (float_of_Z 32) |}.
Definition tremolo_glyph : MElement := set_invisible (node "Tremolo" [leaf "subtype" "c32"]).
Definition tremolo_chord : MElement :=
  node "Chord" [leaf "durationType" "half"; tremolo_glyph;
                set_invisible (node "Note" [leaf "pitch" "60"])].
Definition tremolo_voice : MElement := node "voice" [tremolo_chord; sample_chord "half"].
Definition half_units : num := PyFloat (float_of_Z 512).

(** [p] is the index of the first chord of [cs] at or after [i]. *)
Definition first_chord_at (cs : list MElement) (i : nat) (p : Z) : Prop :=
  (∃ e, cs !! Z.to_nat p = Some e ∧ has_tag "Chord" e = true)
  ∧ ∀ k e, (i <= k)%nat → Z.of_nat k < p → cs !! k = Some e → has_tag "Chord" e = false.

(** What the loop over a voice keeps true before it visits index [i], for
    a voice whose children were [cs] at the start: tags stay, and past [i]
    only the pending partner of a tremolo has been touched. *)
Definition walk_inv (cs : list MElement) (i : nat) (w : walk) : Prop :=
  map tag (children (w_voice w)) = map tag cs
  ∧ (∀ j, (i <= j)%nat → w_next w ≠ Some (Z.of_nat j) →
          children (w_voice w) !! j = cs !! j)
  ∧ (∀ p, w_next w = Some p → Z.of_nat i <= p → first_chord_at cs i p).

(** The same for a voice without tremolos: the visited prefix is the
    original one made visible. *)
Definition plain_inv (cs : list MElement) (i : nat) (w : walk) : Prop :=
  w_next w = None
  ∧ children (w_voice w) = map set_visible_all (take i cs) ++ drop i cs.

(** The point of index [i] of [numpy.linspace(0, stop, n, endpoint=False)]. *)
Definition linspace_point (stop : spec_float) (n i : Z) : spec_float :=
  let start := SFmul prec emax (float_of_Z 0) (float_of_Z 1) in
  let delta := SFsub prec emax (SFmul prec emax stop (float_of_Z 1)) start in
  let step := SFdiv prec emax delta (float_of_Z n) in
  SFadd prec emax
    (if SFeqb step (float_of_Z 0)
     then SFmul prec emax (SFdiv prec emax (float_of_Z i) (float_of_Z n)) delta
     else SFmul prec emax (float_of_Z i) step)
    start.

(** A run of page numbers that starts at [p], never skips a page on the way
    up, and ends at [q]. *)
Inductive climbs : Z → list Z → Z → Prop :=
| climbs_nil p : climbs p [] p
| climbs_same p l q : climbs p l q → climbs p (p :: l) q
| climbs_up p l q : climbs (p + 1) l q → climbs p ((p + 1) :: l) q.

(** The measure indices below [k] at which the sequencer finds a page
    break. *)
Fixpoint page_breaks_upto (t : tree) (k : nat) : Z :=
  match k with
  | O => 0
  | S k' =>
      page_breaks_upto t k'
      + match detect_page_break (column k' t) false with
        | Ok true => 1
        | _ => 0
        end
  end.

(** The page-break markers of an element, counted as [read_score] counts
    them: every ["LayoutBreak"] of the subtree whose subtype says ["page"]. *)
Fixpoint page_break_markers (e : MElement) : Z :=
  match e with
  | Element t _ _ cs _ =>
      (if String.eqb t "LayoutBreak"
          && match List.find (has_tag "subtype") cs with
             | Some c => text_is (text c) "page"
             | None => false
             end
       then 1 else 0)
      + fold_right Z.add 0 (map page_break_markers cs)
  end.

Definition tree_page_break_markers (t : tree) : Z :=
  fold_right Z.add 0 (map (fun st => fold_right Z.add 0 (map page_break_markers st)) t).

(** "Frames spanning page numbers 1..k+1": every page of that range, and no
    other, is the page of some frame. *)
Definition pages_span (pages : list Z) (k : Z) : Prop :=
  ∀ p, In p pages ↔ 1 <= p <= k + 1.

(** Sample documents for the sequencer: one staff, two measures, a page
    break in the first; no job, no first empty frame. *)
Definition page_break : MElement := node "LayoutBreak" [leaf "subtype" "page"].
Definition two_pages : tree := [[node "Measure" [page_break; sample_voice]; node "Measure" [sample_voice]]].
Definition plain_run : Amusing :=
  {| first_emtpy_frame := false; jobs := ∅; _timesigs := [[float_of_Z 1024]; [float_of_Z 1024]] |}.
Definition quarter_steps : Amusing :=
  {| first_emtpy_frame := true; jobs := {[ 0 := quarter ]};
     _timesigs := [[float_of_Z 1024]; [float_of_Z 1024]] |}.

(** The sum of a list of counts. *)
Definition sumZ (l : list Z) : Z := fold_right Z.add 0 l.

(** Two staves, one measure each, a page break in both measures. *)
Definition two_staves : tree :=
  [[node "Measure" [page_break; sample_voice]]; [node "Measure" [page_break; sample_voice]]].
Definition plain_run_framed : Amusing :=
  {| first_emtpy_frame := true; jobs := ∅; _timesigs := [[float_of_Z 1024; float_of_Z 1024]] |}.

(** ** mscx.py: the rest of [class MElement] *)

(** [self.append_new(tag, text, visible)] *)
Definition append_new (self : MElement) (tg : string) (txt : option string)
    (visible : bool) : MElement :=
  append self (new_element tg txt visible).

(** [if not self.contains(tag): self.append_new(tag)] *)
Definition add_missing (self : MElement) (tg : string) : MElement :=
  if contains tg self then self else append_new self tg None true.

Definition add_implied_children (self : MElement) : MElement :=
  let self := if has_tag "Chord" self
              then foldl add_missing self ["Stem"; "Beam"; "Hook"]
              else self in
  let self := if has_tag "Tie" self then add_missing self "TieSegment" else self in
  if contains "acciaccatura" self && negb (contains "StemSlash" self)
  then append_new self "StemSlash" None true
  else self.

Definition invisibilize (self : MElement) : MElement :=
  if str_in (tag self) UNPRINTABLE then self
  else if str_in (tag self) INVISIBILIZE then set_invisible self
  else self.

(** [has_arpeggio] answers [True] when the chord has no ["Arpeggio"]. *)
Definition has_arpeggio (self : MElement) : result bool :=
  if negb (has_tag "Chord" self) then Raise MElementTagError
  else Ok (match find "Arpeggio" self with None => true | Some _ => false end).

(** [list(self.iter(tag))]: the node itself if it matches, then the
    matching nodes below it, in document order. *)
Fixpoint iter (filter : option string) (e : MElement) : list MElement :=
  match e with
  | Element t _ _ cs _ =>
      (if tag_matches filter t then [e] else [])
      ++ (fix go (cs : list MElement) : list MElement :=
            match cs with
            | [] => []
            | c :: r => iter filter c ++ go r
            end) cs
  end.

(** [list(self.get_chord_subelements())] of a chord that nobody mutates
    meanwhile. *)
Definition get_chord_subelements (self : MElement) : result (list MElement) :=
  if negb (has_tag "Chord" self) then Raise MElementTagError
  else Ok (flat_map (fun tg => iter (Some tg) self) CHORD_SUB).

(** ** animate.py: the jobs *)

(** The class attribute [first_measure_num]. *)
Definition first_measure_num : Z := 1.

(** The [measures] argument of [add_job]: an [int], a [range] object (whose
    step is never 0), another sequence of [int]s, or [None]. *)
Inductive measures_arg : Type :=
| OneMeasure (m : Z)
| MeasureRange (start stop step : Z)
| MeasureSeq (l : list Z)
| NoMeasures.

(** [list(range(start, stop, step))] *)
Definition py_range3 (start stop step : Z) : list Z :=
  if 0 <? step then
    map (fun k => start + k * step) (py_range ((stop - start + step - 1) / step))
  else if step <? 0 then
    map (fun k => start + k * step) (py_range ((start - stop - step - 1) / (- step)))
  else [].

Definition with_jobs (self : Amusing) (j : gmap Z Note) : Amusing :=
  {| first_emtpy_frame := first_emtpy_frame self; jobs := j; _timesigs := _timesigs self |}.

(** [self.jobs.update({m - self.first_measure_num: subdivision for m in ms})] *)
Definition update_jobs (j : gmap Z Note) (ms : list Z) (subdivision : Note) : gmap Z Note :=
  foldl (fun j m => <[m - first_measure_num := subdivision]> j) j ms.

(** [_measures_num] is a field that [read_score] sets; it is [None] before. *)
Definition add_job (self : Amusing) (_measures_num : option Z) (measures : measures_arg)
    (subdivision : Note) : result Amusing :=
  match measures with
  | OneMeasure m =>
      Ok (with_jobs self (<[m - first_measure_num := subdivision]> (jobs self)))
  | MeasureRange start stop step =>
      if stop =? -1 then
        match _measures_num with
        | None => Raise TypeError
        | Some n =>
            Ok (with_jobs self
                  (update_jobs (jobs self) (py_range3 start (n + first_measure_num) 1)
                     subdivision))
        end
      else Ok (with_jobs self (update_jobs (jobs self) (py_range3 start stop step) subdivision))
  | MeasureSeq l => Ok (with_jobs self (update_jobs (jobs self) l subdivision))
  | NoMeasures => Raise TypeError
  end.

Definition add_job_all_measures (self : Amusing) (_measures_num : option Z)
    (subdivision : Note) : result Amusing :=
  match _measures_num with
  | None => Raise TypeError
  | Some n =>
      Ok (with_jobs self (foldl (fun j i => <[i := subdivision]> j) (jobs self) (py_range n)))
  end.

Definition delete_jobs (self : Amusing) : Amusing := with_jobs self ∅.

(** ** animate.py: the baseline pass, [_invisibilize_measures] *)

(** The first loop over [measure.iter()]: a hidden node is locked, a shown
    one gets its implied children.  The iterator yields a node before it
    descends, so it also walks the children just added; these are visible
    leaves that none of the rules applies to, and the walk leaves them as
    they are. *)
Fixpoint lock_or_complete (e : MElement) : MElement :=
  match e with
  | Element t a tx cs l =>
      if is_visible e then
        Element t a tx
          (map lock_or_complete cs
           ++ skipn (List.length cs) (children (add_implied_children e)))
          l
      else Element t a tx (map lock_or_complete cs) true
  end.

(** The second loop, [element.invisibilize()] on every node.  The marker
    that [set_invisible] appends is walked too; its tag is unprintable, so it
    stays as it is. *)
Fixpoint invisibilize_iter (e : MElement) : MElement :=
  match e with
  | Element t a tx cs l =>
      Element t a tx
        (map invisibilize_iter cs ++ skipn (List.length cs) (children (invisibilize e)))
        l
  end.

(** The passes over one measure; [last] says that the measure index is
    [len(staves[0]) - 1]. *)
Definition baseline_measure (last : bool) (measure : MElement) : result MElement :=
  measure ← (if negb last then
               match children measure with
               | [] => Raise IndexError
               | first :: rest =>
                   if negb (contains "BarLine" first)
                   then Ok (with_children measure
                              (append_new first "BarLine" None true :: rest))
                   else Ok measure
               end
             else Ok measure);
  Ok (invisibilize_iter (lock_or_complete measure)).

(** The loop over the measure indices of the zipped staves.  The export of
    the baseline image that follows it writes files and changes no tree. *)
Fixpoint baseline_from (remaining measure_index : nat) (t : tree) : result tree :=
  match remaining with
  | O => Ok t
  | S remaining' =>
      let last := match t with
                  | st0 :: _ => Z.of_nat measure_index =? Z.of_nat (List.length st0) - 1
                  | [] => false
                  end in
      ms ← map_result (baseline_measure last) (column measure_index t);
      baseline_from remaining' (S measure_index) (set_column measure_index ms t)
  end.

Definition _invisibilize_measures (t : tree) : result tree := baseline_from (ncols t) 0 t.

(** ** animate.py: what [read_score] reads from the document *)

(** [e.findall(tag)] for a plain tag: the direct children with it. *)
Definition findall (tg : string) (e : MElement) : list MElement :=
  List.filter (has_tag tg) (children e).

(** [root.findall('Score/Staff')] *)
Definition score_staves (root : MElement) : list MElement :=
  flat_map (findall "Staff") (findall "Score" root).

(** [[staff.findall('Measure') for staff in root.findall('Score/Staff')]] *)
Definition staves (root : MElement) : tree := map (findall "Measure") (score_staves root).

(** The page breaks that the loop over [baseroot.iter()] counts: every
    ["LayoutBreak"] of the document whose subtype says ["page"]. *)
Fixpoint count_page_breaks (e : MElement) : result Z :=
  match e with
  | Element t _ _ cs _ =>
      own ← (if String.eqb t "LayoutBreak" then
               sub ← find_text "subtype" e;
               Ok (if text_is sub "page" then 1 else 0)
             else Ok 0);
      below ← (fix go (cs : list MElement) : result Z :=
                 match cs with
                 | [] => Ok 0
                 | c :: r => x ← count_page_breaks c; y ← go r; Ok (x + y)
                 end) cs;
      Ok (own + below)
  end.

(** The value that [read_score] leaves in [_page_num]. *)
Definition read_page_num (baseroot : MElement) : result Z :=
  k ← count_page_breaks baseroot; Ok (1 + k).

(** The value that it leaves in [_measures_num]:
    [len(baseroot.find('Score/Staff').findall('Measure'))]. *)
Definition read_measures_num (baseroot : MElement) : result Z :=
  match score_staves baseroot with
  | [] => Raise AttributeError
  | staff :: _ => Ok (Z.of_nat (List.length (findall "Measure" staff)))
  end.

(** ** Vocabulary of the further properties *)

(** A tree without the markers of its unlocked nodes: what is left of a
    document when the visibility that the program may change is forgotten.
    A locked node keeps its markers. *)
Fixpoint erase (e : MElement) : MElement :=
  match e with
  | Element t a tx cs l =>
      Element t a tx
        ((fix go (cs : list MElement) : list MElement :=
            match cs with
            | [] => []
            | c :: r => if negb l && has_tag "visible" c then go r else erase c :: go r
            end) cs)
        l
  end.

Definition erase_children (l : bool) (cs : list MElement) : list MElement :=
  flat_map (fun c => if negb l && has_tag "visible" c then [] else [erase c]) cs.

(** Every node of a tree satisfies [P]. *)
Fixpoint every (P : MElement → Prop) (e : MElement) : Prop :=
  match e with
  | Element _ _ _ cs _ =>
      P e ∧ (fix go (cs : list MElement) : Prop :=
               match cs with
               | [] => True
               | c :: r => every P c ∧ go r
               end) cs
  end.

(** No unlocked node carries a marker. *)
Definition unmarked (e : MElement) : Prop := is_protected e = false → markers e = [].
Definition revealed (e : MElement) : Prop := every unmarked e.

(** Every unlocked node is visible. *)
Definition shown (e : MElement) : Prop := is_protected e = false → is_visible e = true.

(** The measures that the sequencer walks, all made visible: in every staff
    the measures below the length of the shortest staff after
    [set_visible_all], the others as they are. *)
Definition reveal (t : tree) : tree :=
  map (fun st => map set_visible_all (take (ncols t) st) ++ drop (ncols t) st) t.

(** What the walk may do to a tree: the markers of unlocked nodes apart it
    is the same tree, and if every node had at most one marker, saying
    ["0"], that is still so. *)
Definition retouched (e e' : MElement) : Prop :=
  erase e' = erase e ∧ tag e' = tag e ∧ text e' = text e
  ∧ (every clean e → every clean e').

(** The number of cutoffs of the job of a measure index,
    [round(time_sig / subdivision.value)]; 0 without a job. *)
Definition cutoff_count (self : Amusing) (i : nat) : Z :=
  match jobs self !! Z.of_nat i with
  | Some subdivision =>
      match (time_sig ← timesig_at self i;
             q ← num_truediv time_sig (value subdivision);
             py_round q) with
      | Ok n => n
      | Raise _ => 0
      end
  | None => 0
  end.

(** The frames of a whole run: the first empty frame, the cutoffs of the
    jobs, one frame per page break found, and the last frame. *)
Definition expected_frames (self : Amusing) (t : tree) : Z :=
  (if first_emtpy_frame self then 1 else 0)
  + sumZ (map (cutoff_count self) (seq 0 (ncols t)))
  + page_breaks_upto t (ncols t)
  + 1.

(** The children that [add_implied_children] may add: leaves without text,
    unlocked, with one of five tags. *)
Definition implied_leaf (c : MElement) : Prop :=
  children c = [] ∧ text c = None ∧ attrib c = [] ∧ is_protected c = false
  ∧ str_in (tag c) ["Stem"; "Beam"; "Hook"; "TieSegment"; "StemSlash"] = true.

(** A chord whose first child says that it is a grace note. *)
Definition grace_chord : MElement :=
  node "Chord" [node "acciaccatura" []; set_invisible (node "Note" [leaf "pitch" "60"])].
Definition grace_voice : MElement := node "voice" [grace_chord; sample_chord "quarter"].

(** The same float, bit for bit. *)
Definition same_float (f g : spec_float) : bool :=
  match f, g with
  | S754_zero s, S754_zero s' | S754_infinity s, S754_infinity s' => Bool.eqb s s'
  | S754_nan, S754_nan => true
  | S754_finite s m e, S754_finite s' m' e' => Bool.eqb s s' && (m =? m')%positive && (e =? e')
  | _, _ => false
  end.

(** [Note(2**k).ntype] gives back [2**k]. *)
Definition ntype_round_trip (k : Z) : bool :=
  match (n ← Note__init__ (PyInt (2 ^ k)); ntype n) with
  | Ok (PyFloat f) => same_float f (float_of_Z (2 ^ k)) && finite_or_zero f
  | _ => false
  end.

(** The node at a path of child indices. *)
Fixpoint node_at (p : list nat) (e : MElement) : option MElement :=
  match p with
  | [] => Some e
  | k :: p' =>
      match children e !! k with
      | Some c => node_at p' c
      | None => None
      end
  end.

(** The nodes that the baseline pass hides: unlocked, with a tag of
    [INVISIBILIZE]. *)
Definition hidden_by_baseline (n : MElement) : bool :=
  negb (is_protected n) && str_in (tag n) INVISIBILIZE.

(** The two loops of the baseline pass over one measure. *)
Definition baseline (e : MElement) : MElement := invisibilize_iter (lock_or_complete e).

(** A chord with a hidden note and a shown one. *)
Definition mixed_chord : MElement :=
  node "Chord" [leaf "durationType" "quarter";
                set_invisible (node "Note" [leaf "pitch" "60"]);
                node "Note" [leaf "pitch" "64"]].

(** The children that the two loops of the baseline pass add to a node. *)
Definition lock_extra (e : MElement) : list MElement :=
  if is_visible e then skipn (List.length (children e)) (children (add_implied_children e))
  else [].

Definition hide_extra (e : MElement) : list MElement :=
  skipn (List.length (children e)) (children (invisibilize e)).

(** A small document: one staff of two measures, a page break in the
    first. *)
Definition sample_score : MElement :=
  node "museScore"
    [node "Score"
       [node "Style" [leaf "pageWidth" "8.27"];
        node "Staff" [node "Measure" [page_break; sample_voice];
                      node "Measure" [sample_voice]]]].

(** * Proofs *)

(** ** Rounding never invents a sign or an overflow *)

Lemma digits2_size p : digits2_pos p = Pos.size p.
Proof. induction p; cbn; congruence. Qed.

Lemma Zdigits2_nonneg m : 0 <= Zdigits2 m.
Proof. destruct m; cbn; lia. Qed.

Lemma Zdigits2_le m k : 0 <= m → 0 <= k → m < 2 ^ k → Zdigits2 m <= k.
Proof.
  destruct m as [|p|p]; cbn [Zdigits2]; intros H Hk Hlt; [lia| |lia].
  rewrite digits2_size. pose proof (Pos.size_le p) as Hs.
  destruct (Z.le_gt_cases (Z.pos (Pos.size p)) k) as [|Hgt]; [assumption|exfalso].
  assert (H2 : 2 ^ (k + 1) <= 2 ^ Z.pos (Pos.size p)) by (apply Z.pow_le_mono_r; lia).
  rewrite Z.pow_add_r in H2 by lia.
  assert (Hs' : 2 ^ Z.pos (Pos.size p) <= 2 * Z.pos p).
  { rewrite <- Pos2Z.inj_pow. change (2 * Z.pos p) with (Z.pos p~0). lia. }
  lia.
Qed.

Lemma Zdigits2_lt m : 0 <= m → m < 2 ^ Zdigits2 m.
Proof.
  destruct m as [|p|p]; cbn [Zdigits2]; intros H; [reflexivity| |lia].
  rewrite digits2_size. pose proof (Pos.size_gt p) as Hs.
  rewrite <- Pos2Z.inj_pow. lia.
Qed.

Lemma shr_1_m r : 0 <= shr_m r → shr_m (shr_1 r) = shr_m r / 2.
Proof.
  destruct r as [m rr ss]. cbn [shr_m]. intros H.
  destruct m as [|[p|p|]|p]; cbn [shr_1 shr_m]; try lia.
  - reflexivity.
  - apply (Z.div_unique (Z.pos p~1) 2 (Z.pos p) 1); lia.
  - apply (Z.div_unique (Z.pos p~0) 2 (Z.pos p) 0); lia.
  - reflexivity.
Qed.

Lemma iter_pos_shr_1 p : ∀ r, 0 <= shr_m r →
  shr_m (SpecFloat.iter_pos shr_1 p r) = shr_m r / 2 ^ Z.pos p.
Proof.
  induction p as [p IH|p IH|]; intros r Hr; cbn [SpecFloat.iter_pos].
  - assert (H1 : 0 <= shr_m (shr_1 r)) by (rewrite shr_1_m by assumption; apply Z.div_pos; lia).
    assert (H2 : 0 <= shr_m (SpecFloat.iter_pos shr_1 p (shr_1 r)))
      by (rewrite IH by assumption; apply Z.div_pos; lia).
    rewrite IH, IH, shr_1_m by assumption.
    rewrite !Zdiv.Zdiv_Zdiv by lia. f_equal.
    replace (Z.pos p~1) with (Z.pos p + Z.pos p + 1) by lia.
    rewrite !Z.pow_add_r by lia. change (2 ^ 1) with 2. ring.
  - assert (H2 : 0 <= shr_m (SpecFloat.iter_pos shr_1 p r))
      by (rewrite IH by assumption; apply Z.div_pos; lia).
    rewrite IH, IH by assumption.
    rewrite !Zdiv.Zdiv_Zdiv by lia. f_equal.
    replace (Z.pos p~0) with (Z.pos p + Z.pos p) by lia.
    rewrite !Z.pow_add_r by lia. ring.
  - rewrite shr_1_m by assumption. reflexivity.
Qed.

(** The exponent and the mantissa that [shr_fexp] leaves. *)
Lemma shr_fexp_spec m e l : 0 <= m →
  let e' := Z.max e (fexp64 (Zdigits2 m + e)) in
  snd (shr_fexp prec emax m e l) = e'
  ∧ shr_m (fst (shr_fexp prec emax m e l)) = m / 2 ^ (e' - e).
Proof.
  intros Hm e'. unfold shr_fexp, shr. fold (fexp64 (Zdigits2 m + e)).
  assert (Hr : shr_m (shr_record_of_loc m l) = m) by (destruct l as [|[]]; reflexivity).
  destruct (fexp64 (Zdigits2 m + e) - e) as [|p|p] eqn:E; cbn [fst snd].
  - subst e'. replace (Z.max e (fexp64 (Zdigits2 m + e))) with e by lia.
    rewrite Z.sub_diag, Z.div_1_r. auto.
  - subst e'. replace (Z.max e (fexp64 (Zdigits2 m + e))) with (e + Z.pos p) by lia.
    rewrite iter_pos_shr_1 by lia. rewrite Hr. split; [reflexivity|]. f_equal. f_equal. lia.
  - subst e'. replace (Z.max e (fexp64 (Zdigits2 m + e))) with e by lia.
    rewrite Z.sub_diag, Z.div_1_r. auto.
Qed.

Lemma round_nearest_even_bounds m l : 0 <= m →
  m <= round_nearest_even m l <= m + 1.
Proof.
  intros H. unfold round_nearest_even. destruct l as [|[]]; try lia.
  destruct (Z.even m); lia.
Qed.

(** On a non-negative mantissa the rounded result is a zero, a finite number
    or an overflow, with the exponent bounded by the magnitude of the input. *)
Lemma binary_round_aux_cases s m e l : 0 <= m →
  ∃ m2 e2, 0 <= m2
    ∧ e2 <= Z.max e (Z.max (Z.max (Zdigits2 m + e) e + 1 - prec) (emin prec emax))
    ∧ binary_round_aux prec emax s m e l =
      match m2 with
      | Z0 => S754_zero s
      | Zpos p => if e2 <=? emax - prec then S754_finite s p e2 else S754_infinity s
      | Zneg _ => S754_nan
      end.
Proof.
  intros Hm. unfold binary_round_aux.
  destruct (shr_fexp_spec m e l Hm) as [He1 Hm1].
  destruct (shr_fexp prec emax m e l) as [mrs1 e1]. cbn [fst snd] in He1, Hm1. rewrite <- He1 in Hm1.
  set (m1' := round_nearest_even (shr_m mrs1) (loc_of_shr_record mrs1)).
  assert (Hm1nn : 0 <= shr_m mrs1) by (rewrite Hm1; apply Z.div_pos; lia).
  pose proof (round_nearest_even_bounds (shr_m mrs1) (loc_of_shr_record mrs1) Hm1nn) as Hb.
  fold m1' in Hb.
  destruct (shr_fexp_spec m1' e1 loc_Exact ltac:(lia)) as [He2 Hm2].
  destruct (shr_fexp prec emax m1' e1 loc_Exact) as [mrs2 e2]. cbn [fst snd] in He2, Hm2. rewrite <- He2 in Hm2.
  exists (shr_m mrs2), e2.
  assert (Hm2nn : 0 <= shr_m mrs2) by (rewrite Hm2; apply Z.div_pos; lia).
  split; [exact Hm2nn|]. split.
  - (* the exponent bound *)
    assert (Hd1 : Zdigits2 (shr_m mrs1) + e1 <= Z.max (Zdigits2 m + e) e1).
    { destruct (Z.eq_dec (shr_m mrs1) 0) as [->|Hne]; [cbn; lia|].
      assert (Hk : 0 <= e1 - e) by lia.
      assert (Hlt : shr_m mrs1 < 2 ^ (Zdigits2 m - (e1 - e))).
      { rewrite Hm1.
        destruct (Z.le_gt_cases (e1 - e) (Zdigits2 m)) as [Hle|Hgt].
        - apply Z.div_lt_upper_bound; [lia|].
          rewrite <- Z.pow_add_r by lia.
          replace (e1 - e + (Zdigits2 m - (e1 - e))) with (Zdigits2 m) by lia.
          now apply Zdigits2_lt.
        - exfalso. apply Hne. rewrite Hm1. apply Z.div_small. split; [lia|].
          eapply Z.lt_le_trans; [apply Zdigits2_lt; lia|].
          apply Z.pow_le_mono_r; lia. }
      assert (Hpos : 0 <= Zdigits2 m - (e1 - e)).
      { destruct (Z.le_gt_cases 0 (Zdigits2 m - (e1 - e))); [assumption|].
        rewrite Z.pow_neg_r in Hlt by lia. lia. }
      pose proof (Zdigits2_le _ _ Hm1nn Hpos Hlt). lia. }
    assert (Hd2 : Zdigits2 m1' <= Zdigits2 (shr_m mrs1) + 1).
    { apply Zdigits2_le; [lia|pose proof (Zdigits2_nonneg (shr_m mrs1)); lia|].
      rewrite Z.pow_add_r by (pose proof (Zdigits2_nonneg (shr_m mrs1)); lia).
      change (2 ^ 1) with 2. pose proof (Zdigits2_lt _ Hm1nn). lia. }
    unfold fexp64, fexp, emin, prec, emax in *. lia.
  - destruct (shr_m mrs2); [reflexivity|reflexivity|lia].
Qed.
Lemma SFdiv_int_finite sx mx sy my :
  Z.pos mx < 2 ^ 1023 →
  finite_or_zero (SFdiv prec emax (S754_finite sx mx 0) (S754_finite sy my 0)) = true.
Proof.
  intros Hx. unfold SFdiv, SFdiv_core_binary.
  set (d1 := Zdigits2 (Z.pos mx)). set (d2 := Zdigits2 (Z.pos my)).
  set (e' := Z.min (fexp prec emax (d1 + 0 - (d2 + 0))) (0 - 0)).
  assert (He' : e' <= 0) by (subst e'; lia).
  set (m' := match 0 - 0 - e' with
             | 0 => Z.pos mx
             | Z.pos _ => Z.shiftl (Z.pos mx) (0 - 0 - e')
             | Z.neg _ => 0
             end).
  assert (Hm' : m' = Z.pos mx * 2 ^ (- e')).
  { subst m'. destruct (0 - 0 - e') as [|p|p] eqn:E.
    - replace (- e') with 0 by lia. cbn. lia.
    - rewrite Z.shiftl_mul_pow2 by lia. f_equal. f_equal. lia.
    - lia. }
  clearbody m'.
  destruct (Z.div_eucl m' (Z.pos my)) as [q r] eqn:E.
  assert (Hq : q = m' / Z.pos my) by (unfold Z.div; now rewrite E).
  assert (Hd1 : Z.pos mx < 2 ^ d1) by (apply Zdigits2_lt; lia).
  assert (Hd1' : d1 <= 1023) by (apply Zdigits2_le; lia).
  assert (Hpow : 0 < 2 ^ (- e')) by (apply Z.pow_pos_nonneg; lia).
  assert (Hq0 : 0 <= q) by (rewrite Hq; apply Z.div_pos; nia).
  assert (Hqm : q <= m') by (rewrite Hq; apply Z.div_le_upper_bound; nia).
  assert (Hqd : Zdigits2 q <= d1 + - e').
  { apply Zdigits2_le; [lia|pose proof (Zdigits2_nonneg (Z.pos mx)); subst d1; lia|].
    rewrite Z.pow_add_r by (pose proof (Zdigits2_nonneg (Z.pos mx)); subst d1; lia). nia. }
  destruct (binary_round_aux_cases (xorb sx sy) q e' (new_location (Z.pos my) r) Hq0)
    as (m2 & e2 & Hm2 & He2 & ->).
  destruct m2 as [|p|p]; [reflexivity| |lia].
  replace (e2 <=? emax - prec) with true; [reflexivity|].
  symmetry. apply Z.leb_le. unfold emin, prec, emax in *. lia.
Qed.

Lemma finite_or_zero_not_inf f : finite_or_zero f = true → is_inf f = false ∧ is_nan f = false.
Proof. destruct f; cbn; intros H; split; congruence. Qed.

Lemma int_truediv_ok (x y : Z) :
  y ≠ 0 → Z.abs x < 2 ^ 1023 →
  ∃ f, int_truediv x y = Ok f ∧ finite_or_zero f = true.
Proof.
  intros Hy Hx. unfold int_truediv.
  destruct x as [|px|px]; destruct y as [|py|py]; try congruence;
    try (eexists; split; [reflexivity|reflexivity]).
  all: cbv zeta; match goal with
       | |- context [SFdiv prec emax (S754_finite ?sx ?mx 0) (S754_finite ?sy ?my 0)] =>
           pose proof (SFdiv_int_finite sx mx sy my) as H
       end;
       cbn [Z.abs Z.to_pos] in *; specialize (H ltac:(lia));
       destruct (finite_or_zero_not_inf _ H) as [-> _];
       eexists; split; [reflexivity|exact H].
Qed.

(** ** Locks and markers *)

Lemma set_visible_locked e : is_protected e = true → set_visible e = e.
Proof. unfold set_visible. intros ->. reflexivity. Qed.

Lemma set_invisible_locked e : is_protected e = true → set_invisible e = e.
Proof. unfold set_invisible. intros ->. reflexivity. Qed.

Lemma apply_ops_locked ops : ∀ e, is_protected e = true → foldl apply_op e ops = e.
Proof.
  induction ops as [|op ops IH]; intros e He; [reflexivity|].
  cbn [foldl]. destruct op; cbn [apply_op].
  - rewrite set_visible_locked by exact He. now apply IH.
  - rewrite set_invisible_locked by exact He. now apply IH.
Qed.

(** C6.  On a node whose visibility is locked, any sequence of
    [set_visible] and [set_invisible] calls, in any order, leaves the node as
    it was: its visibility is unchanged and it stays locked. *)
Theorem locked_visibility_frozen (self : MElement) (ops : list vis_op) :
  is_protected self = true →
  foldl apply_op self ops = self
  ∧ is_visible (foldl apply_op self ops) = is_visible self
  ∧ is_protected (foldl apply_op self ops) = true.
Proof.
  intros H. rewrite (apply_ops_locked ops self H). auto.
Qed.

Lemma lock_visibility_protected e : is_protected (lock_visibility e) = true.
Proof. reflexivity. Qed.

Lemma locked_visibility_frozen_witness :
  is_protected (lock_visibility hidden_note) = true
  ∧ is_visible (foldl apply_op (lock_visibility hidden_note) [SetVisible; SetInvisible; SetVisible])
    = false.
Proof.
  split; [reflexivity|].
  destruct (locked_visibility_frozen (lock_visibility hidden_note)
              [SetVisible; SetInvisible; SetVisible] eq_refl) as (_ & -> & _).
  reflexivity.
Defined.

(** C9, at the failing input.  The unlocked node [marked_visible] carries
    one marker, [<visible>1</visible>], which [_is_visible] reads as
    visible.  [set_invisible] appends [<visible>0</visible>] behind it:
    [is_visible] still answers [True], the node now carries two markers, and
    a second call adds a third. *)
Theorem set_invisible_misses_other_marker :
  is_protected marked_visible = false
  ∧ List.length (markers marked_visible) = 1%nat
  ∧ is_visible (set_invisible marked_visible) = true
  ∧ List.length (markers (set_invisible marked_visible)) = 2%nat
  ∧ List.length (markers (set_invisible (set_invisible marked_visible))) = 3%nat.
Proof. repeat split. Qed.

Lemma find_head_filter tg (l : list MElement) :
  List.find (has_tag tg) l = head (filter (fun c => has_tag tg c = true) l).
Proof.
  induction l as [|c l IH]; [reflexivity|].
  cbn [List.find]. rewrite filter_cons.
  destruct (has_tag tg c) eqn:E; cbn.
  - destruct (decide (true = true)); [reflexivity|congruence].
  - destruct (decide (false = true)); [congruence|exact IH].
Qed.

Lemma filter_remove_first tg (l : list MElement) :
  filter (fun c => has_tag tg c = true) (remove_first tg l)
  = tail (filter (fun c => has_tag tg c = true) l).
Proof.
  induction l as [|c l IH]; [reflexivity|].
  cbn [remove_first]. rewrite (filter_cons _ c l).
  destruct (has_tag tg c) eqn:E.
  - destruct (decide (true = true)); [reflexivity|congruence].
  - rewrite filter_cons. rewrite E.
    destruct (decide (false = true)); [congruence|exact IH].
Qed.

Lemma is_visible_markers e :
  is_visible e = match markers e with
                 | [] => true
                 | m :: _ => negb (text_is (text m) "0")
                 end.
Proof.
  unfold is_visible, _is_visible, find, markers. rewrite find_head_filter.
  destruct (filter _ (children e)); reflexivity.
Qed.

Lemma markers_set_visible e :
  markers (set_visible e) =
  if is_protected e then markers e
  else if is_visible e then markers e else tail (markers e).
Proof.
  unfold set_visible. destruct (is_protected e); [reflexivity|].
  destruct (is_visible e); cbn [negb]; [reflexivity|].
  unfold markers. cbn [with_children children]. apply filter_remove_first.
Qed.

Lemma markers_set_invisible e :
  markers (set_invisible e) =
  if is_protected e then markers e
  else if is_visible e then markers e ++ [invisible_marker] else markers e.
Proof.
  unfold set_invisible. destruct (is_protected e); [reflexivity|].
  destruct (is_visible e); cbn [negb]; [|reflexivity].
  unfold markers, append. cbn [with_children children].
  rewrite filter_app. reflexivity.
Qed.

Lemma text_is_0 m : text m = Some "0" → text_is (text m) "0" = true.
Proof. intros ->. reflexivity. Qed.

(** What the claim promises does hold on the documents the program is meant
    for: nodes whose only marker, if any, is [<visible>0</visible>]. *)
Lemma visibility_toggle_clean (e : MElement) :
  is_protected e = false → clean e →
  is_visible (set_invisible e) = false
  ∧ is_visible (set_visible e) = true
  ∧ set_invisible (set_invisible e) = set_invisible e
  ∧ set_visible (set_visible e) = set_visible e
  ∧ clean (set_invisible e) ∧ clean (set_visible e).
Proof.
  intros Hp Hc.
  assert (Hi : is_visible (set_invisible e) = false).
  { rewrite is_visible_markers, markers_set_invisible, Hp.
    rewrite (is_visible_markers e). unfold clean in Hc.
    destruct (markers e) as [|m [|m' ms]]; [reflexivity| |contradiction].
    rewrite (text_is_0 m Hc). cbn. now rewrite (text_is_0 m Hc). }
  assert (Hv : is_visible (set_visible e) = true).
  { rewrite is_visible_markers, markers_set_visible, Hp.
    rewrite (is_visible_markers e). unfold clean in Hc.
    destruct (markers e) as [|m [|m' ms]]; [reflexivity| |contradiction].
    rewrite (text_is_0 m Hc). reflexivity. }
  repeat split.
  - exact Hi.
  - exact Hv.
  - unfold set_invisible at 1.
    replace (is_protected (set_invisible e)) with false.
    + now rewrite Hi.
    + unfold set_invisible. rewrite Hp. now destruct (is_visible e).
  - unfold set_visible at 1.
    replace (is_protected (set_visible e)) with false.
    + now rewrite Hv.
    + unfold set_visible. rewrite Hp. now destruct (is_visible e).
  - unfold clean in *. rewrite markers_set_invisible, Hp, (is_visible_markers e).
    destruct (markers e) as [|m [|m' ms]]; [reflexivity| |contradiction].
    now rewrite (text_is_0 m Hc).
  - unfold clean in *. rewrite markers_set_visible, Hp, (is_visible_markers e).
    destruct (markers e) as [|m [|m' ms]]; [exact I| |contradiction].
    now rewrite (text_is_0 m Hc).
Qed.

(** ** The next chord of a voice *)

Lemma first_chord_spec (l : list MElement) : ∀ i0,
  match first_chord l i0 with
  | Some (e, j) =>
      i0 <= j ∧ l !! Z.to_nat (j - i0) = Some e ∧ has_tag "Chord" e = true
      ∧ ∀ k e', i0 <= k < j → l !! Z.to_nat (k - i0) = Some e' → has_tag "Chord" e' = false
  | None => ∀ k e', l !! k = Some e' → has_tag "Chord" e' = false
  end.
Proof.
  induction l as [|c l IH]; intros i0; cbn [first_chord].
  - intros k e' H. destruct k; discriminate.
  - destruct (has_tag "Chord" c) eqn:E.
    + split; [lia|]. split; [now rewrite Z.sub_diag|]. split; [exact E|].
      intros k e' Hk. lia.
    + specialize (IH (i0 + 1)). destruct (first_chord l (i0 + 1)) as [[e j]|].
      * destruct IH as (Hle & Hl & Ht & Hb). split; [lia|]. split; [|split; [exact Ht|]].
        -- replace (Z.to_nat (j - i0)) with (S (Z.to_nat (j - (i0 + 1)))) by lia. exact Hl.
        -- intros k e' Hk Hlk. destruct (Z.eq_dec k i0) as [->|Hne].
           ++ rewrite Z.sub_diag in Hlk. change (Some c = Some e') in Hlk. injection Hlk as <-. exact E.
           ++ apply (Hb k e'); [lia|].
              replace (Z.to_nat (k - i0)) with (S (Z.to_nat (k - (i0 + 1)))) in Hlk by lia.
              exact Hlk.
      * intros [|k] e' Hlk; cbn in Hlk; [congruence|]. now apply (IH k e').
Qed.

Lemma get_next_chord_found (voice : MElement) (index : Z) :
  has_tag "voice" voice = true → 0 <= index →
  ∃ r, get_next_chord voice index = Ok r ∧
       match r with
       | Some (e, j) =>
           index < j ∧ children voice !! Z.to_nat j = Some e ∧ has_tag "Chord" e = true
           ∧ ∀ k e', index < k < j → children voice !! Z.to_nat k = Some e' →
                     has_tag "Chord" e' = false
       | None =>
           ∀ k e', index < k → children voice !! Z.to_nat k = Some e' →
                   has_tag "Chord" e' = false
       end.
Proof.
  intros Hv Hi.
  unfold get_next_chord. rewrite Hv. cbn [negb].
  eexists; split; [reflexivity|].
  unfold slice_from. replace (index + 1 <? 0) with false by lia.
  pose proof (first_chord_spec (drop (Z.to_nat (index + 1)) (children voice)) (0 + index + 1)) as H.
  destruct (first_chord _ _) as [[e j]|].
  - destruct H as (Hle & Hl & Ht & Hb). rewrite lookup_drop in Hl.
    split; [lia|]. split; [|split; [exact Ht|]].
    + replace (Z.to_nat j) with (Z.to_nat (index + 1) + Z.to_nat (j - (0 + index + 1)))%nat by lia.
      exact Hl.
    + intros k e' Hk Hlk. apply (Hb k e'); [lia|]. rewrite lookup_drop.
      replace (Z.to_nat (index + 1) + Z.to_nat (k - (0 + index + 1)))%nat with (Z.to_nat k) by lia.
      exact Hlk.
  - intros k e' Hk Hlk. apply (H (Z.to_nat k - Z.to_nat (index + 1))%nat e').
    rewrite lookup_drop.
    replace (Z.to_nat (index + 1) + (Z.to_nat k - Z.to_nat (index + 1)))%nat with (Z.to_nat k) by lia.
    exact Hlk.
Qed.

(** What a successful search tells about the voice. *)
Lemma get_next_chord_some (voice : MElement) (i : nat) (ne : MElement) (j : Z) :
  get_next_chord voice (Z.of_nat i) = Ok (Some (ne, j)) →
  Z.of_nat i < j ∧ children voice !! Z.to_nat j = Some ne ∧ has_tag "Chord" ne = true
  ∧ ∀ k e', Z.of_nat i < k < j → children voice !! Z.to_nat k = Some e' →
            has_tag "Chord" e' = false.
Proof.
  intros Hn.
  assert (Hv : has_tag "voice" voice = true).
  { unfold get_next_chord in Hn. destruct (has_tag "voice" voice); [reflexivity|discriminate]. }
  destruct (get_next_chord_found voice (Z.of_nat i) Hv ltac:(lia)) as (r & Hr & Hspec).
  rewrite Hn in Hr. injection Hr as <-. exact Hspec.
Qed.

(** C10.  For a node tagged "voice" and an index [index >= 0],
    [get_next_chord] returns the first later child tagged "Chord" together
    with its index, and [None] when no later child is a chord; in that case
    a "c"-class tremolo on the chord at [index] leaves [_visibilize_tremolo]
    without a following chord: unpacking the [None] raises [TypeError]. *)
Theorem get_next_chord_spec (voice : MElement) (index : Z) :
  has_tag "voice" voice = true → 0 <= index →
  (∃ r, get_next_chord voice index = Ok r ∧
        match r with
        | Some (e, j) =>
            index < j ∧ children voice !! Z.to_nat j = Some e ∧ has_tag "Chord" e = true
            ∧ ∀ k e', index < k < j → children voice !! Z.to_nat k = Some e' →
                      has_tag "Chord" e' = false
        | None =>
            ∀ k e', index < k → children voice !! Z.to_nat k = Some e' →
                    has_tag "Chord" e' = false
        end)
  ∧ (get_next_chord voice index = Ok None →
     ∀ element tremolo duration duration_type chord_duration next max_duration max_tremolo n,
       child_at voice (Z.to_nat index) = Ok element →
       find "Tremolo" element = Some tremolo →
       tremolo_subtype tremolo duration_type = Ok ("c", n) →
       _visibilize_tremolo voice (Z.to_nat index) duration duration_type chord_duration
         next max_duration max_tremolo = Raise TypeError).
Proof.
  intros Hv Hi. split; [now apply get_next_chord_found|].
  intros Hn element tremolo duration duration_type chord_duration next max_duration max_tremolo n
         He Hf Hs.
  unfold _visibilize_tremolo. rewrite He. cbn [mbind result_bind]. rewrite Hf, Hs.
  cbn [mbind result_bind String.eqb Ascii.eqb]. rewrite Z2Nat.id by exact Hi. rewrite Hn.
  reflexivity.
Qed.

Lemma get_next_chord_spec_witness :
  has_tag "voice" sample_voice = true ∧ 0 <= 2
  ∧ ∀ k e', 2 < k → children sample_voice !! Z.to_nat k = Some e' →
            has_tag "Chord" e' = false.
Proof.
  split; [reflexivity|]. split; [lia|].
  destruct (get_next_chord_spec sample_voice 2 eq_refl ltac:(lia)) as [(r & Hr & Hspec) _].
  injection Hr as <-. exact Hspec.
Defined.

(** ** Duration values *)

Lemma py_int_str_raises s e : py_int_str s = Raise e → e = ValueError.
Proof.
  unfold py_int_str.
  assert (H : ∀ l e, parse_unsigned l = Raise e → e = ValueError).
  { intros l e0. unfold parse_unsigned. destruct l as [|c l]; [congruence|].
    destruct (digit_val c) as [d|]; [|congruence].
    destruct (parse_digits 0 0 false (c :: l)) as [[z cnt]|]; [|congruence].
    destruct (int_max_str_digits <? cnt)%nat; congruence. }
  destruct (strip (list_ascii_of_string s)) as [|c l]; [apply H|].
  destruct (Ascii.eqb c "-") eqn:E1.
  - apply Ascii.eqb_eq in E1. subst c.
    destruct (parse_unsigned l) eqn:E; cbn; [congruence|]. intros [= <-]. eapply H, E.
  - destruct (Ascii.eqb c "+") eqn:E2.
    + apply Ascii.eqb_eq in E2. subst c. apply H.
    + destruct c as [[] [] [] [] [] [] [] []]; try apply H; cbn in E1, E2; congruence.
Qed.

Lemma recognized_word_cases s :
  recognized_word s = true →
  s = "breve" ∨ s = "whole" ∨ s = "half" ∨ s = "quarter" ∨ s = "eighth".
Proof.
  unfold recognized_word, str_in. cbn [existsb]. rewrite !orb_true_iff.
  rewrite !String.eqb_eq. intuition congruence.
Qed.

Lemma not_recognized_word s :
  recognized_word s = false →
  String.eqb s "breve" = false ∧ String.eqb s "whole" = false
  ∧ String.eqb s "half" = false ∧ String.eqb s "quarter" = false
  ∧ String.eqb s "eighth" = false.
Proof.
  unfold recognized_word, str_in. cbn [existsb]. rewrite !orb_false_iff. tauto.
Qed.

Lemma from_text_other s :
  recognized_word s = false →
  from_text (Some s) = (n ← py_int_str (drop_last2 s); Note__init__ (PyInt n)).
Proof.
  intros H. destruct (not_recognized_word s H) as (H1 & H2 & H3 & H4 & H5).
  unfold from_text, text_is. now rewrite H1, H2, H3, H4, H5.
Qed.

Lemma Note_init_int (z : Z) :
  z ≠ 0 →
  ∃ f, int_truediv 1024 z = Ok f ∧ finite_or_zero f = true
       ∧ Note__init__ (PyInt z) = Ok {| _value := PyFloat f |}.
Proof.
  intros Hz. destruct (int_truediv_ok 1024 z Hz) as (f & Hf & Hfin).
  { change (Z.abs 1024) with 1024. change 1024 with (2 ^ 10).
    apply Z.pow_lt_mono_r; lia. }
  exists f. split; [exact Hf|]. split; [exact Hfin|].
  unfold Note__init__, num_truediv. rewrite Hf. reflexivity.
Qed.

(** C5, as amended.  [from_text] returns the Duration Value of each of the
    five recognized words.  On any other text it drops the last two
    characters, whatever they are, and reads the rest with [int]: it raises
    [ValueError] when the rest is not an integer literal and
    [ZeroDivisionError] when the integer is 0, and otherwise it succeeds with
    the value [1024 / n], a finite float. *)
Theorem from_text_outcome (s : string) :
  (recognized_word s = true →
   from_text (Some s) = Ok {| _value := PyFloat (float_of_Z (word_units s)) |})
  ∧ (recognized_word s = false →
     match py_int_str (drop_last2 s) with
     | Raise _ => from_text (Some s) = Raise ValueError
     | Ok 0 => from_text (Some s) = Raise ZeroDivisionError
     | Ok n => ∃ f, int_truediv 1024 n = Ok f ∧ finite_or_zero f = true
                    ∧ from_text (Some s) = Ok {| _value := PyFloat f |}
     end).
Proof.
  split.
  - intros H. destruct (recognized_word_cases s H) as [->|[->|[->|[->| ->]]]];
      vm_compute; reflexivity.
  - intros H. rewrite (from_text_other s H).
    destruct (py_int_str (drop_last2 s)) as [z|e] eqn:E.
    + destruct z as [|p|p]; [reflexivity| |].
      * destruct (Note_init_int (Z.pos p)) as (f & H1 & H2 & H3); [lia|]. eauto.
      * destruct (Note_init_int (Z.neg p)) as (f & H1 & H2 & H3); [lia|]. eauto.
    + rewrite (py_int_str_raises _ _ E). reflexivity.
Qed.

Lemma from_text_outcome_witness :
  recognized_word "16th" = false ∧
  from_text (Some "16th") = Ok {| _value := PyFloat (float_of_Z 64) |}.
Proof.
  split; [reflexivity|].
  pose proof (proj2 (from_text_outcome "16th") eq_refl) as H.
  vm_compute in H. destruct H as (f & H1 & _ & H3). injection H1 as <-. exact H3.
Defined.

(** The token ["32nd"] is neither a recognized word nor of the form
    [<int>th], and [from_text] accepts it. *)
Lemma from_text_accepts_32nd :
  ¬ (raises (from_text (Some "32nd")) = true
     ↔ recognized_word "32nd" || int_th_form "32nd" = false).
Proof.
  intros [_ H]. specialize (H eq_refl). vm_compute in H. discriminate.
Qed.

Lemma SFcompare_refl f : finite_or_zero f = true → SFcompare f f = Some Eq.
Proof.
  destruct f as [s|s| |s m e]; cbn; try congruence; intros _.
  destruct s; rewrite Z.compare_refl;
    change (Pos.compare_cont Eq m m) with (Pos.compare m m);
    now rewrite Pos.compare_refl.
Qed.

Lemma num_eq_refl f : finite_or_zero f = true → num_eq (PyFloat f) (PyFloat f) = true.
Proof. intros H. unfold num_eq, num_compare. now rewrite SFcompare_refl. Qed.

Lemma from_text_token s :
  from_text (Some s) = (nt ← token_note_type s; Note__init__ nt).
Proof.
  unfold from_text, token_note_type, text_is.
  repeat (match goal with |- context [String.eqb s ?w] => destruct (String.eqb s w) end;
          [reflexivity|]).
  destruct (py_int_str (drop_last2 s)); reflexivity.
Qed.

(** C4, as amended.  [Note] defines no comparison, so [==] on two Duration
    Values is the identity of the objects.  What the code compares is their
    [value]: a Duration Value built from a token and one built from the
    note type that the token names are two objects with the same value,
    which [==] on floats finds equal. *)
Theorem note_values_agree (s : string) (nt : num) (h : store) :
  token_note_type s = Ok nt → nt ≠ PyInt 0 →
  ∃ n, Note__init__ nt = Ok n
       ∧ new_from_text (Some s) h = Ok (List.length h, h ++ [n])
       ∧ new_Note nt (h ++ [n]) = Ok (S (List.length h), (h ++ [n]) ++ [n])
       ∧ num_eq (value n) (value n) = true
       ∧ obj_eq (List.length h) (S (List.length h)) = false.
Proof.
  intros Ht Hnz.
  assert (Hn : ∃ f, Note__init__ nt = Ok {| _value := PyFloat f |} ∧ finite_or_zero f = true).
  { unfold token_note_type in Ht.
    repeat (match type of Ht with
            | context [String.eqb s ?w] => destruct (String.eqb s w)
            end; [injection Ht as <-; eexists; split; vm_compute; reflexivity|]).
    destruct (py_int_str (drop_last2 s)) as [z|]; [|discriminate].
    injection Ht as <-. destruct (Note_init_int z) as (f & _ & H2 & H3); [congruence|]. eauto. }
  destruct Hn as (f & Hn & Hfin). exists {| _value := PyFloat f |}.
  split; [exact Hn|]. split; [|split; [|split]].
  - unfold new_from_text. rewrite from_text_token, Ht. cbn [mbind result_bind].
    rewrite Hn. reflexivity.
  - unfold new_Note. rewrite Hn. cbn [mbind result_bind]. unfold alloc.
    rewrite length_app. cbn [List.length]. repeat f_equal. lia.
  - now apply num_eq_refl.
  - unfold obj_eq. apply Nat.eqb_neq. lia.
Qed.

Lemma note_values_agree_witness :
  new_from_text (Some "quarter") [] = Ok (0%nat, [quarter])
  ∧ new_Note (PyInt 4) [quarter] = Ok (1%nat, [quarter; quarter])
  ∧ obj_eq 0%nat 1%nat = false.
Proof.
  destruct (note_values_agree "quarter" (PyInt 4) [] eq_refl ltac:(discriminate))
    as (n & Hn & H1 & H2 & _ & H4).
  vm_compute in Hn. injection Hn as <-. repeat split; assumption.
Defined.

(** [Note(4)] and [Note.from_text('quarter')] have the same ratio, and
    [==] finds them different. *)
Lemma note_equality_is_identity :
  new_Note (PyInt 4) [] = Ok (0%nat, [quarter])
  ∧ new_from_text (Some "quarter") [quarter] = Ok (1%nat, [quarter; quarter])
  ∧ ¬ compares_by_ratio [quarter; quarter] 0%nat 1%nat.
Proof.
  split; [reflexivity|]. split; [reflexivity|].
  intros H. specialize (H quarter quarter eq_refl eq_refl eq_refl). discriminate.
Qed.

(** *** The factor of [n_dot] *)

Lemma py_range_succ n : 0 <= n → py_range (n + 1) = py_range n ++ [n].
Proof.
  intros H. unfold py_range. replace (Z.to_nat (n + 1)) with (S (Z.to_nat n)) by lia.
  rewrite seq_S, map_app. cbn. now rewrite Z2Nat.id.
Qed.

Lemma dot_sum_succ n : 0 <= n →
  dot_sum (n + 1) =
  (s ← dot_sum n; t ← num_truediv (PyInt 1) (PyInt (2 ^ (n + 1))); num_add s t).
Proof.
  intros H. unfold dot_sum. rewrite (py_range_succ (n + 1)) by lia.
  now rewrite foldl_app.
Qed.

Lemma is_two_eq k : is_two k = true → k = two.
Proof.
  unfold is_two. destruct k as [| | |[] m e]; try discriminate.
  intros H. apply andb_true_iff in H. destruct H as [Hm He].
  apply Z.eqb_eq in Hm, He. subst e.
  assert (Hm' : m = 4503599627370496%positive) by lia.
  subst m. reflexivity.
Qed.

Lemma Zdigits2_pow2 i : 0 <= i → Zdigits2 (2 ^ i) = i + 1.
Proof.
  intros H. assert (Hp : 0 < 2 ^ i) by (apply Z.pow_pos_nonneg; lia).
  apply Z.le_antisymm.
  - apply Zdigits2_le; [lia|lia|]. apply Z.pow_lt_mono_r; lia.
  - pose proof (Zdigits2_lt (2 ^ i) ltac:(lia)) as Hlt.
    apply Z.pow_lt_mono_r_iff in Hlt; [lia|lia|apply Zdigits2_nonneg].
Qed.

Lemma SFdiv_underflow i p : 1076 <= i → Z.pos p = 2 ^ i →
  SFdiv prec emax (S754_finite false 1 0) (S754_finite false p 0) = S754_zero false.
Proof.
  intros Hi E.
  pose proof (Zdigits2_pow2 i ltac:(lia)) as Hd. rewrite <- E in Hd.
  assert (Hlt : 2 ^ 1075 < Z.pos p) by (rewrite E; apply Z.pow_lt_mono_r; lia).
  assert (Hev : Z.even (Z.pos p) = true).
  { rewrite E. replace i with (1 + (i - 1)) by lia. rewrite Z.pow_add_r by lia.
    rewrite Z.even_mul. reflexivity. }
  unfold SFdiv, SFdiv_core_binary. rewrite Hd. cbn [Zdigits2 digits2_pos].
  replace (Z.min (fexp prec emax (1 + 0 - (i + 1 + 0))) (0 - 0)) with (-1074)
    by (unfold fexp, emin, prec, emax; lia).
  change (0 - 0 - -1074) with 1074.
  cbv iota beta.
  assert (Hde : Z.div_eucl (Z.shiftl 1 1074) (Z.pos p) = (0, 2 ^ 1074)).
  { rewrite Z.shiftl_1_l.
    pose proof (Z.div_small (2 ^ 1074) (Z.pos p)) as H1.
    pose proof (Z.mod_small (2 ^ 1074) (Z.pos p)) as H2.
    assert (Hb : 0 <= 2 ^ 1074 < Z.pos p).
    { split; [apply Z.pow_nonneg; lia|].
      change (2 ^ 1075) with (2 * 2 ^ 1074) in Hlt. lia. }
    specialize (H1 Hb). specialize (H2 Hb). unfold Z.div in H1. unfold Z.modulo in H2.
    destruct (Z.div_eucl (2 ^ 1074) (Z.pos p)) as [q r]. cbn in H1, H2. congruence. }
  change IntDef.Z.div_eucl with Z.div_eucl. rewrite Hde.
  unfold new_location. rewrite Hev. unfold new_location_even.
  replace (2 ^ 1074 =? 0) with false by (symmetry; apply Z.eqb_neq; apply Z.pow_nonzero; lia).
  replace (2 * 2 ^ 1074 ?= Z.pos p) with Lt
    by (symmetry; apply Z.compare_lt_iff; change (2 * 2 ^ 1074) with (2 ^ 1075); lia).
  vm_compute. reflexivity.
Qed.

Lemma int_truediv_underflow i : 1076 <= i → int_truediv 1 (2 ^ i) = Ok (S754_zero false).
Proof.
  intros Hi. assert (Hp : 0 < 2 ^ i) by (apply Z.pow_pos_nonneg; lia).
  destruct (2 ^ i) as [|p|p] eqn:E; try lia.
  unfold int_truediv.
  change (Z.to_pos (Z.abs (Z.pos p))) with p. change (Z.to_pos (Z.abs 1)) with 1%positive.
  change (1 <? 0) with false. change (Z.pos p <? 0) with false.
  rewrite (SFdiv_underflow i p Hi (eq_sym E)). reflexivity.
Qed.

Lemma In_py_range n k : 0 <= n < k → In n (py_range k).
Proof.
  intros H. unfold py_range. apply in_map_iff. exists (Z.to_nat n).
  split; [lia|]. apply in_seq. lia.
Qed.

Lemma dot_sum_table : forallb dot_sum_ok (py_range 54) = true.
Proof. vm_compute. reflexivity. Qed.

Lemma tail_term_table : forallb tail_term_ok (map (Z.add 54) (py_range 1047)) = true.
Proof. vm_compute. reflexivity. Qed.

Lemma tail_term i : 54 <= i →
  ∃ t, int_truediv 1 (2 ^ i) = Ok t ∧ SFadd prec emax two t = two.
Proof.
  intros Hi. destruct (Z.le_gt_cases i 1100) as [Hle|Hgt].
  - pose proof tail_term_table as H. rewrite forallb_forall in H.
    specialize (H i). unfold tail_term_ok in H.
    destruct (int_truediv 1 (2 ^ i)) as [t|]; [|discriminate H].
    + exists t. split; [reflexivity|]. apply is_two_eq, H.
      apply in_map_iff. exists (i - 54). split; [lia|]. apply In_py_range. lia.
    + apply in_map_iff. exists (i - 54). split; [lia|]. apply In_py_range. lia.
  - exists (S754_zero false). split; [apply int_truediv_underflow; lia|reflexivity].
Qed.

Lemma dot_sum_large n : 53 <= n → dot_sum n = Ok (PyFloat two).
Proof.
  intros H. replace n with (53 + Z.of_nat (Z.to_nat (n - 53))) by lia.
  generalize (Z.to_nat (n - 53)) as k. clear n H.
  induction k as [|k IH].
  - pose proof dot_sum_table as H. rewrite forallb_forall in H.
    specialize (H 53 (In_py_range 53 54 ltac:(lia))). unfold dot_sum_ok in H.
    change (53 + Z.of_nat 0) with 53.
    destruct (dot_sum 53) as [[z|f|f]|]; try discriminate H.
    unfold dot_factor_ok in H. cbn [Z.leb Z.compare] in H. now rewrite (is_two_eq f H).
  - replace (53 + Z.of_nat (S k)) with (53 + Z.of_nat k + 1) by lia.
    rewrite dot_sum_succ by lia. rewrite IH. cbn [mbind result_bind].
    destruct (tail_term (53 + Z.of_nat k + 1) ltac:(lia)) as (t & Ht & Hadd).
    unfold num_truediv. rewrite Ht. cbn [fmap result_fmap mbind result_bind].
    unfold num_add, to_float. cbn [mbind result_bind is_np wrap]. now rewrite Hadd.
Qed.

Lemma dot_sum_factor n : 0 <= n →
  ∃ k, dot_sum n = Ok (PyFloat k) ∧ dot_factor_ok n k = true.
Proof.
  intros H. destruct (Z.le_gt_cases n 52) as [Hle|Hgt].
  - pose proof dot_sum_table as Ht. rewrite forallb_forall in Ht.
    specialize (Ht n (In_py_range n 54 ltac:(lia))). unfold dot_sum_ok in Ht.
    destruct (dot_sum n) as [[z|f|f]|]; try discriminate Ht. eauto.
  - exists two. split; [apply dot_sum_large; lia|].
    unfold dot_factor_ok. replace (n <=? 52) with false by lia. reflexivity.
Qed.

Lemma scale_float self v k :
  value self = PyFloat v →
  scale self (PyFloat k) = Ok {| _value := PyFloat (SFmul prec emax v k) |}.
Proof. unfold value, scale. intros ->. reflexivity. Qed.



(** ** The tremolo rule *)

Lemma set_visible_chord_ok e : has_tag "Chord" e = true → set_visible_chord e = Ok (show_chord e).
Proof. unfold set_visible_chord. now intros ->. Qed.

Lemma set_invisible_chord_ok e : has_tag "Chord" e = true → set_invisible_chord e = Ok (hide_chord e).
Proof. unfold set_invisible_chord. now intros ->. Qed.

Lemma tag_set_visible_iter filter e : tag (set_visible_iter filter e) = tag e.
Proof. destruct e; reflexivity. Qed.

Lemma tag_set_invisible_iter tg e : tag (set_invisible_iter tg e) = tag e.
Proof. destruct e; reflexivity. Qed.

Lemma tag_show_chord e : tag (show_chord e) = tag e.
Proof.
  unfold show_chord. generalize CHORD_SUB as l. intros l. revert e.
  induction l as [|tg l IH]; intros e; [reflexivity|].
  cbn [foldl]. rewrite IH. apply tag_set_visible_iter.
Qed.

Lemma tag_hide_chord e : tag (hide_chord e) = tag e.
Proof.
  unfold hide_chord. generalize CHORD_SUB as l. intros l. revert e.
  induction l as [|tg l IH]; intros e; [reflexivity|].
  cbn [foldl]. rewrite IH. apply tag_set_invisible_iter.
Qed.

Lemma children_put_put voice i j e n :
  i ≠ j → (i < List.length (children voice))%nat → (j < List.length (children voice))%nat →
  children (put_child (put_child voice i e) j n) !! i = Some e
  ∧ children (put_child (put_child voice i e) j n) !! j = Some n
  ∧ ∀ k, k ≠ i → k ≠ j →
         children (put_child (put_child voice i e) j n) !! k = children voice !! k.
Proof.
  intros Hij Hi Hj. unfold put_child, with_children. cbn [children]. repeat split.
  - rewrite list_lookup_insert_ne by congruence. now apply list_lookup_insert_eq.
  - apply list_lookup_insert_eq. now rewrite length_insert.
  - intros k Hki Hkj. now rewrite !list_lookup_insert_ne by congruence.
Qed.

Lemma child_at_lookup voice i e : child_at voice i = Ok e ↔ children voice !! i = Some e.
Proof.
  unfold child_at. destruct (children voice !! i); split; congruence.
Qed.



(** *** What a visit may touch *)

Lemma tag_set_visible e : tag (set_visible e) = tag e.
Proof. unfold set_visible. destruct (is_protected e), (is_visible e); reflexivity. Qed.

Lemma tag_set_visible_all e : tag (set_visible_all e) = tag e.
Proof. apply tag_set_visible_iter. Qed.

Lemma map_tag_insert (cs : list MElement) i e e' :
  cs !! i = Some e → tag e' = tag e → map tag (<[i := e']> cs) = map tag cs.
Proof.
  intros Hl Ht. change (map tag) with (fmap (M := list) tag).
  rewrite list_fmap_insert, Ht. apply list_insert_id.
  now rewrite list_lookup_fmap, Hl.
Qed.

Lemma map_tag_lookup (cs cs0 : list MElement) k e :
  map tag cs = map tag cs0 → cs !! k = Some e →
  ∃ e0, cs0 !! k = Some e0 ∧ tag e0 = tag e.
Proof.
  intros Hm Hl. assert (H : map tag cs0 !! k = Some (tag e)).
  { rewrite <- Hm. change (map tag) with (fmap (M := list) tag).
    now rewrite list_lookup_fmap, Hl. }
  change (map tag) with (fmap (M := list) tag) in H. rewrite list_lookup_fmap in H.
  destruct (cs0 !! k) as [e0|]; [|discriminate]. injection H as H. eauto.
Qed.

Lemma has_tag_of_tag tg e e0 : tag e0 = tag e → has_tag tg e0 = has_tag tg e.
Proof. unfold has_tag. now intros ->. Qed.

(** The tremolo rule leaves the voice alone, or it rewrites the chord and
    the next chord of the voice, keeping their tags, and returns the index
    of that next chord. *)
Lemma tremolo_effect voice i element duration duration_type chord_duration next
      max_duration max_tremolo voice' next' :
  children voice !! i = Some element →
  _visibilize_tremolo voice i duration duration_type chord_duration next
    max_duration max_tremolo = Ok (voice', next') →
  (voice' = voice ∧ next' = next)
  ∨ ∃ ne j e' n',
      find "Tremolo" element ≠ None
      ∧ get_next_chord voice (Z.of_nat i) = Ok (Some (ne, j))
      ∧ next' = Some j
      ∧ voice' = put_child (put_child voice i e') (Z.to_nat j) n'
      ∧ tag e' = tag element ∧ tag n' = tag ne.
Proof.
  intros Hl. unfold _visibilize_tremolo, child_at. rewrite Hl. cbn [mbind result_bind].
  destruct (find "Tremolo" element) as [tremolo|] eqn:Ef; [|intros [= <- <-]; auto].
  destruct (tremolo_subtype tremolo duration_type) as [[c stroke]|]; [|discriminate].
  cbn [mbind result_bind]. destruct (String.eqb c "c"); [|intros [= <- <-]; auto].
  destruct (get_next_chord voice (Z.of_nat i)) as [[[ne j]|]|]; try discriminate.
  cbn [mbind result_bind].
  destruct (num_add duration chord_duration) as [d|]; [|discriminate]. cbn [mbind result_bind].
  destruct (_last_element_in_measure d max_duration) as [last|]; [|discriminate].
  cbn [mbind result_bind]. intros H. right. exists ne, j.
  destruct last.
  - destruct (num_sub (value max_tremolo) (PyFloat f_0_01)) as [bound|]; [|discriminate].
    cbn [mbind result_bind] in H. destruct (num_ge (value stroke) bound).
    + destruct (num_sub max_duration duration) as [x|]; [|discriminate].
      cbn [mbind result_bind] in H.
      destruct (num_mul (PyInt 2) (value stroke)) as [m|]; [|discriminate].
      cbn [mbind result_bind] in H.
      destruct (num_mod x m) as [r|]; [|discriminate]. cbn [mbind result_bind] in H.
      destruct (num_truediv r (value stroke)) as [q|]; [|discriminate].
      cbn [mbind result_bind] in H.
      fold (show_tremolo_glyph element) in H.
      unfold set_visible_chord, set_invisible_chord in H.
      fold (show_chord (show_tremolo_glyph element)) in H.
      fold (hide_chord (show_tremolo_glyph element)) in H.
      fold (show_chord ne) in H. fold (hide_chord ne) in H.
      destruct (num_lt q (PyInt 1));
        destruct (has_tag "Chord" (show_tremolo_glyph element)); try discriminate;
        destruct (has_tag "Chord" ne); try discriminate;
        cbn [mbind result_bind negb] in H; injection H as <- <-;
        eexists _, _; (split; [discriminate|]);
        (split; [reflexivity|]); (split; [reflexivity|]);
        (split; [reflexivity|]);
        rewrite ?tag_show_chord, ?tag_hide_chord; split; reflexivity.
    + injection H as <- <-. exists element, (set_visible_all ne).
      split; [discriminate|]. split; [reflexivity|]. split; [reflexivity|].
      split; [|split; [reflexivity|apply tag_set_visible_all]].
      replace (put_child voice i element) with voice; [reflexivity|].
      unfold put_child, with_children. rewrite list_insert_id by exact Hl.
      now destruct voice.
  - injection H as <- <-. exists (set_visible element), (set_visible ne).
    split; [discriminate|].
    split; [reflexivity|]. split; [reflexivity|]. split; [reflexivity|].
    split; apply tag_set_visible.
Qed.

(** [set_visible_all] drops markers only: a tag that was absent stays absent. *)
Lemma set_visible_iter_children filter e :
  children (set_visible_iter filter e)
  = visible_walk filter
      (tag_matches filter (tag e) && negb (visibility_locked e) && negb (is_visible e))
      (children e).
Proof. destruct e; reflexivity. Qed.

Lemma find_visible_walk_none tg filter (cs : list MElement) : ∀ drop,
  List.find (has_tag tg) cs = None →
  List.find (has_tag tg) (visible_walk filter drop cs) = None.
Proof.
  induction cs as [|c cs IH]; intros drop; [reflexivity|].
  cbn [List.find visible_walk]. destruct (has_tag tg c) eqn:E; [discriminate|].
  intros H. destruct (drop && has_tag "visible" c); [now apply IH|].
  cbn [List.find]. unfold has_tag in *. rewrite tag_set_visible_iter, E. now apply IH.
Qed.

Lemma find_set_visible_all_none tg e :
  find tg e = None → find tg (set_visible_all e) = None.
Proof.
  unfold find, set_visible_all. rewrite set_visible_iter_children.
  apply find_visible_walk_none.
Qed.

(** ** The walk over a voice *)

Section WalkFacts.

Variable py_eval : string → result num.
Variables (time_sig max_duration : num) (max_tremolo : Note).

#[local] Abbreviation step := (visit py_eval time_sig max_duration max_tremolo).
#[local] Abbreviation loop := (walk_from py_eval time_sig max_duration max_tremolo).
#[local] Abbreviation walk_all := (walk_voice py_eval time_sig max_duration max_tremolo).

(** One visit: the partner of a tremolo is skipped without a test; after any
    other element the loop breaks exactly when the test of
    [_last_element_in_measure] on the new cursor says so. *)
Lemma visit_flow i w w' fl :
  step i w = Ok (w', fl) →
  if bool_decide (w_next w = Some (Z.of_nat i))
  then fl = Continue ∧ w_duration w' = w_duration w
  else _last_element_in_measure (w_duration w') max_duration = Ok (is_break fl).
Proof.
  unfold visit. destruct (child_at (w_voice w) i) as [e|]; [|discriminate].
  cbn [mbind result_bind]. destruct (bool_decide (w_next w = Some (Z.of_nat i))).
  - intros [= <- <-]. auto.
  - match goal with |- (?m ≫= _) = _ → _ => destruct m as [w1|] end; [|discriminate].
    cbn [mbind result_bind].
    destruct (_last_element_in_measure (w_duration w1) max_duration) as [[]|] eqn:El;
      cbn [mbind result_bind]; intros [= <- <-]; exact El.
Qed.

(** A loop over [m + n] elements is a loop over [m] followed, if it did not
    break, by a loop over [n]. *)
Lemma walk_from_app m : ∀ n i w,
  loop (m + n) i w =
  match loop m i w with
  | Ok (wm, None) => loop n (i + m) wm
  | r => r
  end.
Proof.
  induction m as [|m IH]; intros n i w.
  - cbn. now rewrite Nat.add_0_r.
  - cbn [Nat.add walk_from]. destruct (step i w) as [[w1 []]|]; cbn [mbind result_bind].
    + rewrite IH. replace (i + S m)%nat with (S i + m)%nat by lia. reflexivity.
    + reflexivity.
    + reflexivity.
Qed.

Lemma walk_from_stop n : ∀ i w w' k,
  loop n i w = Ok (w', Some k) → (i <= k < i + n)%nat.
Proof.
  induction n as [|n IH]; intros i w w' k; cbn [walk_from]; [discriminate|].
  destruct (step i w) as [[w1 []]|]; cbn [mbind result_bind]; try discriminate.
  - intros H. apply IH in H. lia.
  - intros [= <- <-]. lia.
Qed.

(** Every visited element was reached by visits that did not break, and the
    walk broke at it exactly when it is the reported index. *)
Lemma walk_from_visits n i w w' stop j :
  loop n i w = Ok (w', stop) →
  (i <= j)%nat → (j < match stop with Some k => S k | None => i + n end)%nat →
  ∃ wj wj' fl, loop (j - i) i w = Ok (wj, None)
               ∧ step j wj = Ok (wj', fl)
               ∧ (fl = Break ↔ stop = Some j).
Proof.
  intros H Hij Hj.
  assert (Hn : (j - i < n)%nat).
  { destruct stop as [k|]; [|lia]. apply walk_from_stop in H. lia. }
  replace n with ((j - i) + S (n - S (j - i)))%nat in H by lia.
  rewrite walk_from_app in H.
  destruct (loop (j - i) i w) as [[wj [k|]]|] eqn:E; try discriminate.
  - injection H as <- <-. apply walk_from_stop in E. lia.
  - replace (i + (j - i))%nat with j in H by lia. cbn [walk_from] in H.
    destruct (step j wj) as [[wj' fl]|] eqn:Ev; [|discriminate].
    exists wj, wj', fl. split; [reflexivity|]. split; [exact Ev|].
    cbn [mbind result_bind] in H. destruct fl.
    + split; [discriminate|]. intros ->. apply walk_from_stop in H. lia.
    + injection H as <- <-. tauto.
Qed.

End WalkFacts.

(** *** The invariant of the loop *)

Section WalkInvariant.

Variable py_eval : string → result num.
Variables (time_sig max_duration : num) (max_tremolo : Note).

#[local] Abbreviation step := (visit py_eval time_sig max_duration max_tremolo).
#[local] Abbreviation loop := (walk_from py_eval time_sig max_duration max_tremolo).

(** The three shapes of a visit: the skipped partner, an element that only
    receives [set_visible_all], and a chord or rest on which the tremolo
    rule rewrote the pair. *)
Lemma visit_shape i w w' fl :
  step i w = Ok (w', fl) →
  ∃ e, children (w_voice w) !! i = Some e ∧
    let voice1 := put_child (w_voice w) i (set_visible_all e) in
    (w_next w = Some (Z.of_nat i) ∧ w_voice w' = voice1 ∧ w_next w' = None)
    ∨ (w_next w ≠ Some (Z.of_nat i) ∧ w_voice w' = voice1 ∧ w_next w' = w_next w)
    ∨ (w_next w ≠ Some (Z.of_nat i) ∧
       ∃ ne j e' n',
         find "Tremolo" (set_visible_all e) ≠ None
         ∧ get_next_chord voice1 (Z.of_nat i) = Ok (Some (ne, j))
         ∧ w_next w' = Some j
         ∧ w_voice w' = put_child (put_child voice1 i e') (Z.to_nat j) n'
         ∧ tag e' = tag e ∧ tag n' = tag ne).
Proof.
  unfold visit, child_at. destruct (children (w_voice w) !! i) as [e|] eqn:El; [|discriminate].
  cbn [mbind result_bind]. intros H. exists e. split; [reflexivity|]. cbv zeta.
  destruct (bool_decide (w_next w = Some (Z.of_nat i))) eqn:Eb.
  - apply bool_decide_eq_true in Eb. injection H as <- <-. left. auto.
  - apply bool_decide_eq_false in Eb. right.
    match type of H with (?m ≫= _) = _ => destruct m as [w1|] eqn:E1 end; [|discriminate].
    cbn [mbind result_bind] in H.
    destruct (_last_element_in_measure (w_duration w1) max_duration) as [last|]; [|discriminate].
    cbn [mbind result_bind] in H. injection H as <- <-.
    destruct (is_gracenote (set_visible_all e)); [injection E1 as <-; left; auto|].
    destruct (has_tag "location" (set_visible_all e)).
    { destruct (duration_offset py_eval (set_visible_all e)) as [off|]; [|discriminate].
      cbn [mbind result_bind] in E1.
      destruct (num_add (w_duration w) off); [|discriminate].
      injection E1 as <-. left. auto. }
    destruct (is_tuplet (set_visible_all e)).
    { destruct (tuplet_value (set_visible_all e)); [|discriminate].
      injection E1 as <-. left. auto. }
    destruct (has_tag "Chord" (set_visible_all e) || has_tag "Rest" (set_visible_all e));
      [|injection E1 as <-; left; auto].
    destruct (duration_value (set_visible_all e) time_sig) as [[dotted dt]|]; [|discriminate].
    cbn [mbind result_bind] in E1.
    destruct (num_mul (w_tuplet w) dotted) as [td|]; [|discriminate].
    cbn [mbind result_bind] in E1.
    destruct (num_mul td dt) as [cd|]; [|discriminate]. cbn [mbind result_bind] in E1.
    destruct (_visibilize_tremolo _ i (w_duration w) dt cd (w_next w) max_duration max_tremolo)
      as [[voice' next']|] eqn:Et; [|discriminate].
    cbn [mbind result_bind] in E1.
    destruct (num_add (w_duration w) cd); [|discriminate]. injection E1 as <-.
    cbn [w_voice w_next].
    apply tremolo_effect with (element := set_visible_all e) in Et.
    + destruct Et as [[-> ->]|(ne & j & e' & n' & H0 & H1 & -> & -> & H4 & H5)]; [left; auto|].
      right. split; [exact Eb|]. exists ne, j, e', n'.
      rewrite tag_set_visible_all in H4.
      split; [exact H0|]. split; [exact H1|]. split; [reflexivity|].
      split; [reflexivity|]. split; assumption.
    + unfold put_child, with_children. cbn [children].
      apply list_lookup_insert_eq. eapply lookup_lt_Some, El.
Qed.

Lemma children_put_child voice i e j :
  children (put_child voice i e) !! j
  = if decide (i = j ∧ (i < List.length (children voice))%nat) then Some e
    else children voice !! j.
Proof.
  unfold put_child, with_children. cbn [children].
  destruct (decide (i = j ∧ (i < List.length (children voice))%nat)) as [[-> Hl]|Hn].
  - now apply list_lookup_insert_eq.
  - destruct (decide (i = j)) as [->|Hne].
    + rewrite list_insert_ge by lia. reflexivity.
    + now apply list_lookup_insert_ne.
Qed.

Lemma children_put_child_ne voice i e j :
  i ≠ j → children (put_child voice i e) !! j = children voice !! j.
Proof. intros H. rewrite children_put_child. destruct (decide _) as [[? _]|]; congruence. Qed.

Lemma map_tag_put_child voice i e e' :
  children voice !! i = Some e → tag e' = tag e →
  map tag (children (put_child voice i e')) = map tag (children voice).
Proof. intros Hl Ht. unfold put_child, with_children. cbn [children]. eapply map_tag_insert; eauto. Qed.

Lemma visit_inv cs i w w' fl :
  step i w = Ok (w', fl) → walk_inv cs i w → walk_inv cs (S i) w'.
Proof.
  intros Hv (Ha & Hb & Hc). destruct (visit_shape i w w' fl Hv) as (e & El & Hs).
  cbv zeta in Hs.
  pose proof (map_tag_put_child (w_voice w) i e (set_visible_all e) El
                (tag_set_visible_all e)) as Ha1.
  destruct Hs as [(Hn & Hvo & Hn')|[(Hn & Hvo & Hn')|(Hn & ne & j & e' & n' & _ & Hg & Hn' & Hvo & Hte & Htn)]].
  - (* the skipped partner *)
    split; [|split].
    + rewrite Hvo, Ha1. exact Ha.
    + intros k Hk _. rewrite Hvo, children_put_child_ne by lia.
      apply Hb; [lia|]. rewrite Hn. intros [= H]. lia.
    + intros p Hp. rewrite Hn' in Hp. discriminate.
  - (* only made visible *)
    split; [|split].
    + rewrite Hvo, Ha1. exact Ha.
    + intros k Hk Hnk. rewrite Hvo, children_put_child_ne by lia.
      apply Hb; [lia|]. now rewrite <- Hn'.
    + intros p Hp Hip. rewrite Hn' in Hp. destruct (Hc p Hp ltac:(lia)) as [Hch Hno].
      split; [exact Hch|]. intros k e0 Hk. apply Hno. lia.
  - (* the tremolo rule rewrote the pair *)
    set (voice1 := put_child (w_voice w) i (set_visible_all e)) in *.
    destruct (get_next_chord_some voice1 i ne j Hg) as (Hij & Hj & Htc & Hmin).
    assert (Hi1 : children voice1 !! i = Some (set_visible_all e)).
    { subst voice1. rewrite children_put_child.
      destruct (decide _) as [|Hn0]; [reflexivity|].
      exfalso. apply Hn0. split; [reflexivity|]. eapply lookup_lt_Some, El. }
    assert (Hfirst : first_chord_at cs (S i) j).
    { split.
      - destruct (map_tag_lookup _ cs _ _ (eq_trans Ha1 Ha) Hj) as (e0 & He0 & Ht0).
        exists e0. split; [exact He0|]. now rewrite (has_tag_of_tag "Chord" ne e0).
      - intros k e0 Hk Hkj He0.
        assert (Hk1 : ∃ e1, children voice1 !! k = Some e1 ∧ tag e1 = tag e0).
        { destruct (map_tag_lookup cs (children voice1) k e0
                      (eq_sym (eq_trans Ha1 Ha)) He0) as (e1 & H1 & H2). eauto. }
        destruct Hk1 as (e1 & Hk1 & Ht1).
        rewrite <- (has_tag_of_tag "Chord" e0 e1 Ht1).
        apply (Hmin (Z.of_nat k) e1); [lia|]. now rewrite Nat2Z.id. }
    split; [|split].
    + rewrite Hvo. rewrite (map_tag_put_child _ (Z.to_nat j) ne n').
      * rewrite (map_tag_put_child voice1 i (set_visible_all e) e' Hi1).
        -- now rewrite Ha1.
        -- now rewrite tag_set_visible_all.
      * rewrite children_put_child_ne by lia. exact Hj.
      * exact Htn.
    + intros k Hk Hnk. rewrite Hn' in Hnk.
      assert (Hkj : k ≠ Z.to_nat j) by (intros ->; apply Hnk; f_equal; lia).
      rewrite Hvo, !children_put_child_ne by lia.
      subst voice1. rewrite children_put_child_ne by lia.
      apply Hb; [lia|]. intros Hp.
      (* a pending partner is the chord just found *)
      destruct (Hc _ Hp ltac:(lia)) as [(e0 & He0 & Hch0) Hno].
      rewrite Nat2Z.id in He0.
      destruct Hfirst as [(ej & Hej & Hchj) Hnoj].
      destruct (Z.lt_trichotomy (Z.of_nat k) j) as [Hlt|[Heq|Hgt]].
      * specialize (Hnoj k e0 ltac:(lia) Hlt He0). congruence.
      * apply Hkj. lia.
      * specialize (Hno (Z.to_nat j) ej ltac:(lia) ltac:(lia) Hej). congruence.
    + intros p Hp _. rewrite Hn' in Hp. injection Hp as <-. exact Hfirst.
Qed.

Lemma walk_from_inv cs n : ∀ i w w' stop,
  loop n i w = Ok (w', stop) → walk_inv cs i w →
  walk_inv cs (match stop with Some k => S k | None => i + n end) w'.
Proof.
  induction n as [|n IH]; intros i w w' stop; cbn [walk_from].
  - intros [= <- <-]. now rewrite Nat.add_0_r.
  - destruct (step i w) as [[w1 fl]|] eqn:Ev; [|discriminate]. cbn [mbind result_bind].
    intros H Hinv. pose proof (visit_inv cs i w w1 fl Ev Hinv) as H1. destruct fl.
    + specialize (IH (S i) w1 w' stop H H1).
      destruct stop; [exact IH|]. now replace (i + S n)%nat with (S i + n)%nat by lia.
    + injection H as <- <-. exact H1.
Qed.

Lemma visit_plain cs i w w' fl :
  (∀ e, In e cs → find "Tremolo" e = None) →
  step i w = Ok (w', fl) → plain_inv cs i w → plain_inv cs (S i) w'.
Proof.
  intros Hfree Hv [Hnone Hch]. destruct (visit_shape i w w' fl Hv) as (e & El & Hs).
  cbv zeta in Hs.
  assert (He : cs !! i = Some e).
  { rewrite Hch in El. rewrite lookup_app_r in El by (rewrite length_map, length_take; lia).
    rewrite length_map, length_take, lookup_drop in El.
    destruct (Nat.le_gt_cases (List.length cs) i) as [Hge|Hlt].
    - rewrite lookup_ge_None_2 in El by lia. discriminate.
    - now replace (i + (i - i `min` List.length cs))%nat with i in El by lia. }
  pose proof (lookup_lt_Some _ _ _ He) as Hlt.
  destruct Hs as [(Hn & _)|[(Hn & Hvo & Hn')|(Hn & ne & j & e' & n' & Hf & _)]].
  - congruence.
  - split; [congruence|]. rewrite Hvo. unfold put_child, with_children. cbn [children].
    rewrite Hch, (take_S_r cs i e He), map_app. cbn [map].
    rewrite (drop_S cs e i He).
    replace i with (List.length (map set_visible_all (take i cs)) + 0)%nat at 1
      by (rewrite length_map, length_take; lia).
    rewrite insert_app_r. cbn. now rewrite <- app_assoc.
  - exfalso. apply Hf. apply find_set_visible_all_none. apply Hfree.
    eapply list_elem_of_In, list_elem_of_lookup_2, He.
Qed.

Lemma walk_from_plain cs n : ∀ i w w' stop,
  (∀ e, In e cs → find "Tremolo" e = None) →
  loop n i w = Ok (w', stop) → plain_inv cs i w →
  plain_inv cs (match stop with Some k => S k | None => i + n end) w'.
Proof.
  induction n as [|n IH]; intros i w w' stop Hfree; cbn [walk_from].
  - intros [= <- <-]. now rewrite Nat.add_0_r.
  - destruct (step i w) as [[w1 fl]|] eqn:Ev; [|discriminate]. cbn [mbind result_bind].
    intros H Hinv. pose proof (visit_plain cs i w w1 fl Hfree Ev Hinv) as H1. destruct fl.
    + specialize (IH (S i) w1 w' stop Hfree H H1).
      destruct stop; [exact IH|]. now replace (i + S n)%nat with (S i + n)%nat by lia.
    + injection H as <- <-. exact H1.
Qed.

End WalkInvariant.

(** *** The stopping rule *)

Lemma last_element_unfold d m b :
  _last_element_in_measure d m = Ok b →
  ∃ x, num_sub d (PyFloat f_0_01) = Ok x ∧ b = num_lt m x.
Proof.
  unfold _last_element_in_measure. destruct (num_sub d (PyFloat f_0_01)) as [x|]; [|discriminate].
  cbn [mbind result_bind]. intros [= <-]. eauto.
Qed.

Lemma walk_init_inv voice : walk_inv (children voice) 0 (walk_init voice).
Proof.
  split; [reflexivity|]. split; [reflexivity|]. intros p Hp. discriminate Hp.
Qed.

Lemma walk_init_plain voice : plain_inv (children voice) 0 (walk_init voice).
Proof. split; [reflexivity|]. cbn. now rewrite drop_0. Qed.

(** C1, as amended.  The walk over a voice at cutoff [max_duration] visits
    the children in order; each visit applies [set_visible_all] to the
    element, and, unless the element is the skipped partner of a tremolo, it
    ends the walk exactly when [max_duration < cursor - 0.01] for the cursor
    after the element (durations count 1024 to the whole note).  Elements
    after the last visited one are left as they were, the pending partner of
    a tremolo apart; in a voice without tremolos the visited elements are
    exactly the original ones after [set_visible_all]. *)
Theorem walk_stop_rule (py_eval : string → result num) (time_sig max_duration : num)
    (max_tremolo : Note) (voice : MElement) (w : walk) (stop : option nat) :
  walk_voice py_eval time_sig max_duration max_tremolo voice = Ok (w, stop) →
  (∀ i, (i < visited voice stop)%nat →
     ∃ wi wi' fl,
       walk_from py_eval time_sig max_duration max_tremolo i 0 (walk_init voice)
         = Ok (wi, None)
       ∧ visit py_eval time_sig max_duration max_tremolo i wi = Ok (wi', fl)
       ∧ (fl = Break ↔ stop = Some i)
       ∧ (if bool_decide (w_next wi = Some (Z.of_nat i)) then fl = Continue
          else ∃ x, num_sub (w_duration wi') (PyFloat f_0_01) = Ok x
                    ∧ is_break fl = num_lt max_duration x))
  ∧ (∀ j, (visited voice stop <= j)%nat → w_next w ≠ Some (Z.of_nat j) →
          children (w_voice w) !! j = children voice !! j)
  ∧ (tremolo_free voice →
     children (w_voice w)
     = map set_visible_all (take (visited voice stop) (children voice))
       ++ drop (visited voice stop) (children voice)).
Proof.
  unfold walk_voice. intros H.
  assert (Hvis : visited voice stop
                 = match stop with
                   | Some k => S k
                   | None => (0 + List.length (children voice))%nat
                   end) by (destruct stop; reflexivity).
  split; [|split].
  - intros i Hi. rewrite Hvis in Hi.
    destruct (walk_from_visits _ _ _ _ _ 0 _ _ stop i H ltac:(lia) Hi)
      as (wi & wi' & fl & H1 & H2 & H3).
    rewrite Nat.sub_0_r in H1. exists wi, wi', fl.
    split; [exact H1|]. split; [exact H2|]. split; [exact H3|].
    pose proof (visit_flow _ _ _ _ _ _ _ _ H2) as Hf.
    destruct (bool_decide (w_next wi = Some (Z.of_nat i))); [tauto|].
    now apply last_element_unfold.
  - intros j Hj Hn. rewrite Hvis in Hj.
    destruct (walk_from_inv _ _ _ _ (children voice) _ _ _ _ _ H (walk_init_inv voice))
      as (_ & Hb & _).
    now apply Hb.
  - intros Hfree. rewrite Hvis.
    destruct (walk_from_plain _ _ _ _ (children voice) _ _ _ _ _ Hfree H
                (walk_init_plain voice)) as [_ Hc].
    exact Hc.
Qed.

Lemma walk_stop_rule_witness :
  ∃ w, walk_voice no_eval (units 1024) (units 256) thirty_second sample_voice
       = Ok (w, Some 1%nat)
       ∧ children (w_voice w) !! 2%nat = children sample_voice !! 2%nat.
Proof.
  set (r := walk_voice no_eval (units 1024) (units 256) thirty_second sample_voice).
  set (w0 := match r with Ok (w, _) => w | Raise _ => walk_init sample_voice end).
  assert (H : r = Ok (w0, Some 1%nat)) by (vm_compute; reflexivity).
  exists w0. split; [exact H|].
  destruct (walk_stop_rule _ _ _ _ _ _ _ H) as (_ & H2 & _).
  apply H2; [cbn; lia|]. vm_compute. discriminate.
Defined.

(** The specification's test holds after the first quarter of the sample
    voice at the cutoff of one quarter, and the walk goes on to the second
    chord. *)
Lemma walk_continues_at_cutoff :
  match visit no_eval (units 1024) (units 256) thirty_second 0 (walk_init sample_voice) with
  | Ok (w1, fl) => fl = Continue ∧ stops_as_specified (w_duration w1) (units 256) = Ok true
  | Raise _ => False
  end
  ∧ snd <$> walk_voice no_eval (units 1024) (units 256) thirty_second sample_voice
    = Ok (Some 1%nat).
Proof. vm_compute. auto. Qed.

(** ** The frame sequencer *)

Lemma gen_bind_ok {A B} (g : gen A) (k : A → gen B) b :
  ended (g ≫= k) = Ok b →
  ∃ a, ended g = Ok a ∧ ended (k a) = Ok b
       ∧ yielded (g ≫= k) = yielded g ++ yielded (k a).
Proof.
  unfold mbind, gen_bind. destruct (ended g) as [a|e]; cbn [ended yielded]; [|discriminate].
  intros H. exists a. auto.
Qed.

Lemma lift_ok {A} (r : result A) a : ended (lift r) = Ok a → r = Ok a.
Proof. trivial. Qed.

Lemma climbs_app p l1 q l2 r : climbs p l1 q → climbs q l2 r → climbs p (l1 ++ l2) r.
Proof. induction 1; intros H2; cbn; [assumption| |]; constructor; auto. Qed.

Lemma climbs_replicate n p : climbs p (replicate n p) p.
Proof. induction n; cbn; constructor; assumption. Qed.

Lemma climbs_le p l q : climbs p l q → p <= q.
Proof. induction 1; lia. Qed.

Lemma climbs_range p l q : climbs p l q → ∀ x, In x l → p <= x <= q.
Proof.
  induction 1 as [p|p l q H IH|p l q H IH]; intros x Hx; [destruct Hx| |].
  - pose proof (climbs_le _ _ _ H). destruct Hx as [<-|Hx]; [lia|auto].
  - pose proof (climbs_le _ _ _ H). destruct Hx as [<-|Hx]; [lia|].
    specialize (IH x Hx). lia.
Qed.

Lemma climbs_all p l q : climbs p l q → ∀ x, p < x <= q → In x l.
Proof.
  induction 1 as [p|p l q H IH|p l q H IH]; intros x Hx; [lia| |].
  - right. auto.
  - destruct (Z.eq_dec x (p + 1)) as [->|Hne]; [now left|]. right. apply IH. lia.
Qed.

Lemma climbs_sorted p l q : climbs p l q → Sorted Z.le l.
Proof.
  induction 1 as [p|p l q H IH|p l q H IH]; constructor; try assumption.
  - destruct l as [|y l]; constructor. pose proof (climbs_range _ _ _ H y (or_introl eq_refl)). lia.
  - destruct l as [|y l]; constructor. pose proof (climbs_range _ _ _ H y (or_introl eq_refl)). lia.
Qed.

Lemma map_result_length {A B} (f : A → result B) (l : list A) l' :
  map_result f l = Ok l' → List.length l' = List.length l.
Proof.
  revert l'. induction l as [|a l IH]; intros l'; cbn [map_result].
  - intros [= <-]. reflexivity.
  - destruct (f a); [|discriminate]. cbn [mbind result_bind].
    destruct (map_result f l) as [bs|]; [|discriminate]. cbn [mbind result_bind].
    intros [= <-]. cbn. f_equal. now apply IH.
Qed.

(** Rewriting the measures of one index leaves the other indices alone. *)
Lemma column_set_column i j ms (t : tree) :
  i ≠ j → column j (set_column i ms t) = column j t.
Proof.
  intros Hij. revert ms. induction t as [|st t IH]; intros ms; [now destruct ms|].
  destruct ms as [|m ms]; [reflexivity|]. cbn [set_column].
  unfold column in *. cbn [flat_map]. rewrite IH.
  now rewrite list_lookup_insert_ne by exact Hij.
Qed.

Section SequencerFacts.

Variable py_eval : string → result num.
Variable self : Amusing.
Variable max_tremolo : Note.

#[local] Abbreviation animate_ := (animate py_eval max_tremolo).
#[local] Abbreviation sequence_measure_ := (sequence_measure py_eval self max_tremolo).
#[local] Abbreviation sequence_from_ := (sequence_from py_eval self max_tremolo).

(** One frame per cutoff, all on the current page; only the measures of the
    index are rewritten. *)
Lemma animate_frames cutoffs : ∀ measure_index time_sig page t t',
  ended (animate_ cutoffs measure_index time_sig page t) = Ok t' →
  map fst (yielded (animate_ cutoffs measure_index time_sig page t))
  = replicate (List.length cutoffs) page
  ∧ ∀ j, j ≠ measure_index → column j t' = column j t.
Proof.
  induction cutoffs as [|c cutoffs IH]; intros i T page t t'; cbn [animate].
  - intros [= <-]. auto.
  - intros H. apply gen_bind_ok in H as (ms & H1 & H2 & ->).
    apply gen_bind_ok in H2 as ([] & _ & H3 & ->).
    destruct (IH _ _ _ _ _ H3) as [Hp Hc].
    split.
    + rewrite !map_app, Hp. reflexivity.
    + intros j Hj. rewrite (Hc j Hj). now apply column_set_column.
Qed.

Lemma reset_measures_columns i j t :
  j ≠ i → column j (reset_measures i t) = column j t.
Proof. intros H. unfold reset_measures. apply column_set_column. congruence. Qed.

(** One pass of the loop over the measure indices: the frames of the
    cutoffs, all on the current page, then one frame on the next page if a
    page break was found. *)
Lemma sequence_measure_pages i s s' :
  s_newpage s = false →
  ended (sequence_measure_ i s) = Ok s' →
  ∃ newpage k,
    detect_page_break (column i (s_tree s)) false = Ok newpage
    ∧ map fst (yielded (sequence_measure_ i s))
      = replicate k (s_page s) ++ (if newpage then [s_page s + 1] else [])
    ∧ s_page s' = s_page s + (if newpage then 1 else 0)
    ∧ s_newpage s' = false
    ∧ (∀ j, j ≠ i → column j (s_tree s') = column j (s_tree s))
    ∧ match jobs self !! Z.of_nat i with
      | Some subdivision =>
          ∃ time_sig cutoffs,
            timesig_at self i = Ok time_sig
            ∧ job_cutoffs time_sig subdivision = Ok cutoffs
            ∧ k = List.length cutoffs
      | None => k = O
      end.
Proof.
  intros Hnp H. unfold sequence_measure in *. rewrite Hnp in *.
  apply gen_bind_ok in H as (newpage & H1 & H2 & ->). apply lift_ok in H1.
  apply gen_bind_ok in H2 as (t & H3 & H4 & ->).
  exists newpage.
  assert (Hjob : ∃ k,
    map fst (yielded
      (match jobs self !! Z.of_nat i with
       | Some subdivision =>
           time_sig ← lift (timesig_at self i);
           cutoffs ← lift (job_cutoffs time_sig subdivision);
           t ← animate_ cutoffs i time_sig (s_page s) (s_tree s);
           mret (reset_measures i t)
       | None => mret (reset_measures i (s_tree s))
       end)) = replicate k (s_page s)
    ∧ (∀ j, j ≠ i → column j t = column j (s_tree s))
    ∧ match jobs self !! Z.of_nat i with
      | Some subdivision =>
          ∃ time_sig cutoffs,
            timesig_at self i = Ok time_sig
            ∧ job_cutoffs time_sig subdivision = Ok cutoffs
            ∧ k = List.length cutoffs
      | None => k = O
      end).
  { destruct (jobs self !! Z.of_nat i) as [subdivision|].
    - apply gen_bind_ok in H3 as (time_sig & Ht & H3 & ->). apply lift_ok in Ht.
      apply gen_bind_ok in H3 as (cutoffs & Hc & H3 & ->). apply lift_ok in Hc.
      apply gen_bind_ok in H3 as (t1 & Ha & H3 & ->).
      injection H3 as <-.
      destruct (animate_frames _ _ _ _ _ _ Ha) as [Hp Hcol].
      exists (List.length cutoffs). split; [|split].
      + cbn [yielded lift mret gen_ret]. rewrite !map_app, Hp. cbn. now rewrite app_nil_r.
      + intros j Hj. rewrite reset_measures_columns by exact Hj. now apply Hcol.
      + eauto.
    - injection H3 as <-. exists O. split; [reflexivity|]. split; [|reflexivity].
      intros j Hj. now apply reset_measures_columns. }
  destruct Hjob as (k & Hk & Hcol & Hj). exists k.
  split; [exact H1|]. split; [|split; [|split; [|split]]].
  - rewrite !map_app, Hk. cbn [yielded lift map app]. f_equal.
    destruct newpage; reflexivity.
  - destruct newpage; cbn in H4; injection H4 as <-; cbn; lia.
  - destruct newpage; cbn in H4; injection H4 as <-; reflexivity.
  - destruct newpage; cbn in H4; injection H4 as <-; exact Hcol.
  - exact Hj.
Qed.

End SequencerFacts.

Section SequencerPages.

Variable py_eval : string → result num.
Variable self : Amusing.
Variable max_tremolo : Note.

#[local] Abbreviation sequence_measure_ := (sequence_measure py_eval self max_tremolo).
#[local] Abbreviation sequence_from_ := (sequence_from py_eval self max_tremolo).
#[local] Abbreviation get_trees_ := (_get_trees py_eval self max_tremolo).

Lemma sequence_from_pages (t : tree) n : ∀ i s s',
  s_newpage s = false →
  (∀ j, (i <= j)%nat → column j (s_tree s) = column j t) →
  ended (sequence_from_ n i s) = Ok s' →
  climbs (s_page s) (map fst (yielded (sequence_from_ n i s))) (s_page s')
  ∧ s_page s' = s_page s + (page_breaks_upto t (i + n) - page_breaks_upto t i)
  ∧ s_newpage s' = false.
Proof.
  induction n as [|n IH]; intros i s s' Hnp Hcol; cbn [sequence_from].
  - intros [= <-]. rewrite Nat.add_0_r. split; [constructor|]. split; [lia|exact Hnp].
  - intros H. apply gen_bind_ok in H as (s1 & H1 & H2 & ->).
    destruct (sequence_measure_pages py_eval self max_tremolo i s s1 Hnp H1)
      as (newpage & k & Hd & Hp & Hpage & Hnp1 & Hcol1 & _).
    assert (Hcol' : ∀ j, (S i <= j)%nat → column j (s_tree s1) = column j t).
    { intros j Hj. rewrite Hcol1 by lia. apply Hcol. lia. }
    destruct (IH (S i) s1 s' Hnp1 Hcol' H2) as (Hc & Hq & Hnp').
    rewrite (Hcol i) in Hd by lia.
    split; [|split; [|exact Hnp']].
    + rewrite map_app, Hp. eapply climbs_app; [|exact Hc].
      eapply climbs_app; [apply climbs_replicate|].
      rewrite Hpage. destruct newpage.
      * apply climbs_up. constructor.
      * rewrite Z.add_0_r. constructor.
    + rewrite Hq, Hpage. replace (i + S n)%nat with (S i + n)%nat by lia.
      cbn [page_breaks_upto]. rewrite Hd. destruct newpage; lia.
Qed.

Lemma get_trees_pages (t t' : tree) :
  ended (get_trees_ t) = Ok t' →
  let pages := map fst (yielded (get_trees_ t)) in
  let q := 1 + page_breaks_upto t (ncols t) in
  climbs 1 pages q ∧ last pages = Some q
  ∧ (first_emtpy_frame self = true → head pages = Some 1).
Proof.
  unfold _get_trees. intros H.
  apply gen_bind_ok in H as ([] & _ & H & ->).
  apply gen_bind_ok in H as (s & Hs & H & ->).
  apply gen_bind_ok in H as (t1 & Ht1 & H & ->).
  apply gen_bind_ok in H as ([] & _ & H & ->).
  destruct (sequence_from_pages t (ncols t) 0
              {| s_tree := t; s_page := 1; s_newpage := false |} s eq_refl
              ltac:(reflexivity) Hs) as (Hc & Hq & _).
  cbn [s_page page_breaks_upto Nat.add] in Hc, Hq.
  rewrite Z.sub_0_r in Hq. cbv zeta. rewrite <- Hq.
  rewrite !map_app. cbn [yielded lift yield mret gen_ret map fst app].
  split; [|split].
  - assert (Htail : climbs 1 (map fst (yielded (sequence_from_ (ncols t) 0
                       {| s_tree := t; s_page := 1; s_newpage := false |}))
                     ++ [s_page s]) (s_page s)).
    { eapply climbs_app; [exact Hc|]. apply climbs_same. constructor. }
    destruct (first_emtpy_frame self); cbn [yielded yield mret gen_ret map app fst].
    + now apply climbs_same.
    + exact Htail.
  - rewrite app_assoc. apply last_snoc.
  - intros ->. reflexivity.
Qed.

End SequencerPages.
(** *** Page breaks found and page-break markers *)

Lemma page_break_markers_nonneg : ∀ e, 0 <= page_break_markers e.
Proof.
  fix IH 1. intros [t a tx cs l]. cbn [page_break_markers].
  assert (H : 0 <= fold_right Z.add 0 (map page_break_markers cs)).
  { induction cs as [|c cs IHcs]; cbn [map fold_right]; [lia|].
    pose proof (IH c). lia. }
  destruct (_ && _); lia.
Qed.

Lemma sumZ_markers_nonneg (l : list MElement) : 0 <= sumZ (map page_break_markers l).
Proof.
  induction l as [|c l IHl]; cbn [map sumZ fold_right]; [lia|].
  pose proof (page_break_markers_nonneg c). unfold sumZ in IHl. lia.
Qed.

Lemma page_break_markers_children e :
  sumZ (map page_break_markers (children e)) <= page_break_markers e.
Proof.
  destruct e as [t a tx cs l]. cbn [children page_break_markers]. unfold sumZ.
  destruct (_ && _); lia.
Qed.

Lemma scan_layout_breaks_markers vs np :
  scan_layout_breaks vs np = Ok true →
  np = true ∨ 1 <= sumZ (map page_break_markers vs).
Proof.
  induction vs as [|v vs IH]; cbn [scan_layout_breaks]; intros H.
  - left. congruence.
  - pose proof (sumZ_markers_nonneg vs) as Hn.
    pose proof (page_break_markers_nonneg v) as Hv.
    cbn [map sumZ fold_right]. fold (sumZ (map page_break_markers vs)).
    destruct (has_tag "LayoutBreak" v) eqn:Et.
    + unfold find_text in H. destruct (find "subtype" v) as [c|] eqn:Ef; [|discriminate].
      cbn [mbind result_bind] in H.
      destruct (text_is (text c) "page") eqn:Ep.
      * right. destruct v as [t a tx cs l]. unfold has_tag in Et. cbn [tag] in Et.
        unfold find in Ef. cbn [children] in Ef.
        cbn [page_break_markers] in *. rewrite Et, Ef, Ep in *. cbn [andb] in *.
        pose proof (sumZ_markers_nonneg cs) as Hc. unfold sumZ in *. lia.
      * destruct (IH H) as [->|Hs]; [now left|right; lia].
    + destruct (IH H) as [->|Hs]; [now left|right; lia].
Qed.

Lemma detect_page_break_markers ms np :
  detect_page_break ms np = Ok true →
  np = true ∨ 1 <= sumZ (map page_break_markers ms).
Proof.
  revert np. induction ms as [|m ms IH]; intros np; cbn [detect_page_break]; intros H.
  - left. congruence.
  - pose proof (sumZ_markers_nonneg ms) as Hn.
    pose proof (page_break_markers_nonneg m) as Hm.
    pose proof (page_break_markers_children m) as Hc.
    cbn [map sumZ fold_right]. fold (sumZ (map page_break_markers ms)).
    destruct (scan_layout_breaks (children m) np) as [np'|] eqn:Es; [|discriminate].
    cbn [mbind result_bind] in H.
    destruct (IH np' H) as [->|Hs]; [|right; lia].
    destruct (scan_layout_breaks_markers _ _ Es) as [->|Hk]; [now left|right; lia].
Qed.

Lemma sumZ_app (l1 l2 : list Z) : sumZ (l1 ++ l2) = sumZ l1 + sumZ l2.
Proof.
  unfold sumZ. induction l1 as [|x l1 IH]; cbn [app fold_right]; [lia|].
  rewrite IH. lia.
Qed.

Lemma take_S_markers (st : list MElement) k :
  sumZ (map page_break_markers (take (S k) st))
  = sumZ (map page_break_markers (take k st))
    + sumZ (map page_break_markers (match st !! k with Some m => [m] | None => [] end)).
Proof.
  revert k. induction st as [|m st IH]; intros k.
  - destruct k; reflexivity.
  - destruct k as [|k].
    + change (sumZ (map page_break_markers [m])
              = sumZ (map page_break_markers []) + sumZ (map page_break_markers [m])).
      unfold sumZ. cbn [map fold_right]. lia.
    + change (take (S (S k)) (m :: st)) with (m :: take (S k) st).
      change (take (S k) (m :: st)) with (m :: take k st).
      change ((m :: st) !! S k) with (st !! k).
      cbn [map sumZ fold_right]. fold (sumZ (map page_break_markers (take (S k) st))).
      fold (sumZ (map page_break_markers (take k st))). rewrite IH. lia.
Qed.

Lemma take_markers_le (st : list MElement) k :
  sumZ (map page_break_markers (take k st)) <= sumZ (map page_break_markers st).
Proof.
  rewrite <- (take_drop k st) at 2. rewrite map_app, sumZ_app.
  pose proof (sumZ_markers_nonneg (drop k st)). lia.
Qed.

Lemma column_S_markers (t : tree) k :
  sumZ (map (fun st => sumZ (map page_break_markers (take (S k) st))) t)
  = sumZ (map (fun st => sumZ (map page_break_markers (take k st))) t)
    + sumZ (map page_break_markers (column k t)).
Proof.
  induction t as [|st t IH]; [reflexivity|].
  unfold column. cbn [map sumZ fold_right flat_map].
  fold (column k t). rewrite map_app, sumZ_app.
  fold (sumZ (map (fun st => sumZ (map page_break_markers (take (S k) st))) t)).
  fold (sumZ (map (fun st => sumZ (map page_break_markers (take k st))) t)).
  rewrite IH, take_S_markers. lia.
Qed.

Lemma page_breaks_upto_nonneg t k : 0 <= page_breaks_upto t k.
Proof.
  induction k as [|k IH]; cbn [page_breaks_upto]; [lia|].
  destruct (detect_page_break (column k t) false) as [[|]|]; lia.
Qed.

Lemma page_breaks_upto_take t k :
  page_breaks_upto t k
  <= sumZ (map (fun st => sumZ (map page_break_markers (take k st))) t).
Proof.
  induction k as [|k IH].
  - cbn [page_breaks_upto]. clear. induction t as [|st t IHt]; [reflexivity|].
    pose proof (sumZ_markers_nonneg (take 0 st)) as Hs.
    cbn [map]. unfold sumZ at 1. cbn [fold_right].
    fold (sumZ (map (fun st => sumZ (map page_break_markers (take 0 st))) t)). lia.
  - cbn [page_breaks_upto]. rewrite column_S_markers.
    pose proof (sumZ_markers_nonneg (column k t)) as Hn.
    destruct (detect_page_break (column k t) false) as [[|]|] eqn:Ed; try lia.
    destruct (detect_page_break_markers _ _ Ed) as [?|Hk]; [discriminate|lia].
Qed.

(** The sequencer never finds more page breaks than the measures carry
    page-break markers. *)
Lemma page_breaks_le_markers t k : page_breaks_upto t k <= tree_page_break_markers t.
Proof.
  etransitivity; [apply page_breaks_upto_take|].
  unfold tree_page_break_markers. fold sumZ.
  induction t as [|st t IH]; cbn [map sumZ fold_right]; [lia|].
  pose proof (take_markers_le st k) as Hs. unfold sumZ in *. lia.
Qed.

Lemma py_range_lookup n k :
  0 <= k < n → py_range n !! Z.to_nat k = Some k.
Proof.
  intros H. unfold py_range. change (map Z.of_nat) with (fmap (M := list) Z.of_nat).
  rewrite list_lookup_fmap, lookup_seq_lt by lia.
  cbn [fmap option_fmap option_map]. f_equal. lia.
Qed.

Lemma py_range_length n : List.length (py_range n) = Z.to_nat n.
Proof. unfold py_range. now rewrite length_map, length_seq. Qed.

(** The cutoffs of a job: [round(time_sig / subdivision.value)] points of
    the grid of [numpy.linspace] from 0 (included) to [time_sig] (left out). *)
Lemma job_cutoffs_spec time_sig subdivision cutoffs :
  job_cutoffs time_sig subdivision = Ok cutoffs →
  ∃ f q n,
    to_float time_sig = Ok f
    ∧ num_truediv time_sig (value subdivision) = Ok q ∧ py_round q = Ok n ∧ 0 <= n
    ∧ List.length cutoffs = Z.to_nat n
    ∧ ∀ k, 0 <= k < n → cutoffs !! Z.to_nat k = Some (NpFloat (linspace_point f n k)).
Proof.
  unfold job_cutoffs.
  destruct (num_truediv time_sig (value subdivision)) as [q|] eqn:Eq; [|discriminate].
  cbn [mbind result_bind]. destruct (py_round q) as [n|] eqn:Er; [|discriminate].
  cbn [mbind result_bind]. destruct (to_float time_sig) as [f|] eqn:Ef; [|discriminate].
  cbn [mbind result_bind]. unfold np_linspace.
  destruct (n <? 0) eqn:En; [discriminate|]. apply Z.ltb_ge in En. intros H.
  assert (Hc : cutoffs = map (fun i => NpFloat (linspace_point f n i)) (py_range n))
    by (injection H as <-; reflexivity).
  clear H. subst cutoffs.
  exists f, q, n. split; [reflexivity|]. split; [reflexivity|]. split; [exact Er|].
  split; [exact En|]. split.
  - now rewrite length_map, py_range_length.
  - intros k Hk. change (map ?g (py_range n)) with (fmap (M := list) g (py_range n)).
    rewrite list_lookup_fmap, py_range_lookup by exact Hk. reflexivity.
Qed.

(** C3.  For a measure index configured as a job, with time-signature
    value [time_sig] (the entry of the first staff) and subdivision
    [subdivision], a pass of the sequencer that completes yields exactly
    [n = round(time_sig / subdivision.value)] frames for the cutoffs, one per
    cutoff and all on the current page; the cutoffs are the [n] points
    [k * (time_sig / n)], [k = 0 .. n - 1], of the binary64 grid of
    [numpy.linspace(0, time_sig, n, endpoint=False)]: from 0 included up to
    [time_sig] excluded.  (A detected page break adds one frame on the next
    page after them.) *)
Theorem job_frame_count (py_eval : string → result num) (self : Amusing)
    (max_tremolo : Note) (i : nat) (s s' : sequencer) (subdivision : Note) :
  s_newpage s = false →
  jobs self !! Z.of_nat i = Some subdivision →
  ended (sequence_measure py_eval self max_tremolo i s) = Ok s' →
  ∃ time_sig f q n cutoffs newpage,
    timesig_at self i = Ok time_sig ∧ to_float time_sig = Ok f
    ∧ num_truediv time_sig (value subdivision) = Ok q ∧ py_round q = Ok n ∧ 0 <= n
    ∧ job_cutoffs time_sig subdivision = Ok cutoffs
    ∧ List.length cutoffs = Z.to_nat n
    ∧ (∀ k, 0 <= k < n → cutoffs !! Z.to_nat k = Some (NpFloat (linspace_point f n k)))
    ∧ detect_page_break (column i (s_tree s)) false = Ok newpage
    ∧ map fst (yielded (sequence_measure py_eval self max_tremolo i s))
      = replicate (Z.to_nat n) (s_page s) ++ (if newpage then [s_page s + 1] else []).
Proof.
  intros Hnp Hjob H.
  destruct (sequence_measure_pages py_eval self max_tremolo i s s' Hnp H)
    as (newpage & k & Hd & Hp & _ & _ & _ & Hk).
  rewrite Hjob in Hk. destruct Hk as (time_sig & cutoffs & Ht & Hc & ->).
  destruct (job_cutoffs_spec _ _ _ Hc) as (f & q & n & Hf & Hq & Hr & Hn & Hl & Hg).
  exists time_sig, f, q, n, cutoffs, newpage.
  rewrite Hl in Hp. repeat (split; [assumption|]). exact Hp.
Qed.

Lemma job_frame_count_witness :
  map fst (yielded (sequence_measure no_eval quarter_steps thirty_second 0
                      {| s_tree := two_pages; s_page := 1; s_newpage := false |}))
  = [1; 1; 1; 1; 2].
Proof.
  set (s0 := {| s_tree := two_pages; s_page := 1; s_newpage := false |}).
  set (g := sequence_measure no_eval quarter_steps thirty_second 0 s0).
  set (s1 := match ended g with Ok s => s | Raise _ => s0 end).
  assert (H : ended g = Ok s1) by (vm_compute; reflexivity).
  destruct (job_frame_count no_eval quarter_steps thirty_second 0 s0 s1 quarter
              eq_refl eq_refl H)
    as (time_sig & f & q & n & cutoffs & newpage & Ht & Hf & Hq & Hr & Hn & _ & _ & _ & Hd & Hp).
  vm_compute in Ht. injection Ht as <-.
  vm_compute in Hq. injection Hq as <-.
  vm_compute in Hr. injection Hr as <-.
  vm_compute in Hd. injection Hd as <-.
  exact Hp.
Defined.

(** C8, as amended.  In a run of the sequencer that completes, the page
    counter starts at 1 and goes up by one for every measure index at which a
    page break is found among the children of the measures of that index:
    with [m] such indices, [m] is at most the number of page-break markers of
    the measures, every frame carries a page of [1 .. m + 1], the
    pages never decrease, every page of [2 .. m + 1] is the page of some
    frame, the final frame carries [m + 1], and the first frame carries
    page 1 when [first_emtpy_frame] is set. *)
Theorem frame_pages (py_eval : string → result num) (self : Amusing)
    (max_tremolo : Note) (t t' : tree) :
  ended (_get_trees py_eval self max_tremolo t) = Ok t' →
  let pages := map fst (yielded (_get_trees py_eval self max_tremolo t)) in
  let m := page_breaks_upto t (ncols t) in
  0 <= m <= tree_page_break_markers t
  ∧ (∀ p, In p pages → 1 <= p <= 1 + m)
  ∧ Sorted Z.le pages
  ∧ last pages = Some (1 + m)
  ∧ (∀ p, 2 <= p <= 1 + m → In p pages)
  ∧ (first_emtpy_frame self = true → head pages = Some 1).
Proof.
  intros H. destruct (get_trees_pages py_eval self max_tremolo t t' H) as (Hc & Hl & Hh).
  cbv zeta in *. split; [|split; [|split; [|split; [|split]]]].
  - split; [apply page_breaks_upto_nonneg|apply page_breaks_le_markers].
  - apply (climbs_range _ _ _ Hc).
  - apply (climbs_sorted _ _ _ Hc).
  - exact Hl.
  - intros p Hp. apply (climbs_all _ _ _ Hc). lia.
  - exact Hh.
Qed.

Lemma frame_pages_witness :
  last (map fst (yielded (_get_trees no_eval quarter_steps thirty_second two_pages)))
  = Some 2.
Proof.
  set (g := _get_trees no_eval quarter_steps thirty_second two_pages).
  set (t1 := match ended g with Ok t => t | Raise _ => two_pages end).
  assert (H : ended g = Ok t1) by (vm_compute; reflexivity).
  destruct (frame_pages no_eval quarter_steps thirty_second two_pages t1 H)
    as (_ & _ & _ & Hl & _).
  exact Hl.
Defined.

(** One page-break marker, no first empty frame, no job: both frames are on
    page 2, and none is on page 1.  Two page-break markers at one measure
    index, in two staves: the frames are on pages 1, 2 and 2, and none is on
    page 3. *)
Lemma pages_skip_first :
  (tree_page_break_markers two_pages = 1
   ∧ map fst (yielded (_get_trees no_eval plain_run thirty_second two_pages)) = [2; 2]
   ∧ ¬ pages_span (map fst (yielded (_get_trees no_eval plain_run thirty_second two_pages))) 1)
  ∧ (tree_page_break_markers two_staves = 2
     ∧ map fst (yielded (_get_trees no_eval plain_run_framed thirty_second two_staves))
       = [1; 2; 2]
     ∧ ¬ pages_span
           (map fst (yielded (_get_trees no_eval plain_run_framed thirty_second two_staves)))
           2).
Proof.
  split.
  - split; [reflexivity|]. split; [vm_compute; reflexivity|].
    intros H. destruct (H 1) as [_ H1]. specialize (H1 ltac:(lia)).
    vm_compute in H1. intuition discriminate.
  - split; [reflexivity|]. split; [vm_compute; reflexivity|].
    intros H. destruct (H 3) as [_ H1]. specialize (H1 ltac:(lia)).
    vm_compute in H1. intuition discriminate.
Qed.

(** ** What the visibility operations leave alone *)

Lemma MElement_ind' (P : MElement → Prop) :
  (∀ t a tx cs l, Forall P cs → P (Element t a tx cs l)) → ∀ e, P e.
Proof.
  intros H. fix IH 1. intros [t a tx cs l]. apply H.
  induction cs as [|c cs IHcs]; constructor; [apply IH|exact IHcs].
Qed.

Lemma erase_unfold e :
  erase e = Element (tag e) (attrib e) (text e)
              (erase_children (visibility_locked e) (children e)) (visibility_locked e).
Proof.
  destruct e as [t a tx cs l]. cbn [erase tag attrib text children visibility_locked].
  f_equal. unfold erase_children.
  induction cs as [|c cs IH]; [reflexivity|]. cbn [flat_map].
  destruct (negb l && has_tag "visible" c); cbn [app]; now rewrite IH.
Qed.

Lemma tag_erase e : tag (erase e) = tag e.
Proof. now rewrite erase_unfold. Qed.

Lemma erase_has_tag tg e e' : erase e' = erase e → has_tag tg e' = has_tag tg e.
Proof.
  intros H. unfold has_tag. now rewrite <- (tag_erase e'), H, tag_erase.
Qed.

Lemma erase_children_app l cs1 cs2 :
  erase_children l (cs1 ++ cs2) = erase_children l cs1 ++ erase_children l cs2.
Proof. unfold erase_children. apply flat_map_app. Qed.

Lemma erase_children_cons l c cs :
  erase_children l (c :: cs)
  = (if negb l && has_tag "visible" c then [] else [erase c]) ++ erase_children l cs.
Proof. reflexivity. Qed.

Lemma erase_children_remove_first cs :
  erase_children false (remove_first "visible" cs) = erase_children false cs.
Proof.
  induction cs as [|c cs IH]; [reflexivity|]. cbn [remove_first].
  destruct (has_tag "visible" c) eqn:E.
  - rewrite erase_children_cons, E. reflexivity.
  - rewrite !erase_children_cons, E, IH. reflexivity.
Qed.

Lemma erase_children_Forall2 l cs cs' :
  Forall2 (fun c c' => erase c' = erase c) cs cs' →
  erase_children l cs' = erase_children l cs.
Proof.
  induction 1 as [|c c' cs cs' H _ IH]; [reflexivity|].
  rewrite !erase_children_cons, (erase_has_tag "visible" c c' H), H, IH. reflexivity.
Qed.

Lemma erase_with_children e cs' :
  Forall2 (fun c c' => erase c' = erase c) (children e) cs' →
  erase (with_children e cs') = erase e.
Proof.
  intros H. rewrite (erase_unfold e), erase_unfold. unfold with_children.
  cbn [tag attrib text children visibility_locked]. f_equal.
  now apply erase_children_Forall2.
Qed.

Lemma erase_set_visible e : erase (set_visible e) = erase e.
Proof.
  unfold set_visible, is_protected. destruct (visibility_locked e) eqn:El; [reflexivity|].
  destruct (negb (is_visible e)); [|reflexivity].
  rewrite (erase_unfold e), erase_unfold. unfold with_children.
  cbn [tag attrib text children visibility_locked]. rewrite El.
  now rewrite erase_children_remove_first.
Qed.

Lemma erase_set_invisible e : erase (set_invisible e) = erase e.
Proof.
  unfold set_invisible, is_protected. destruct (visibility_locked e) eqn:El; [reflexivity|].
  destruct (negb (is_visible e)); [reflexivity|].
  rewrite (erase_unfold e), erase_unfold. unfold append, with_children.
  cbn [tag attrib text children visibility_locked]. rewrite El, erase_children_app.
  rewrite erase_children_cons. cbn. now rewrite app_nil_r.
Qed.

Lemma erase_visible_walk filter l (cs : list MElement) :
  Forall (fun c => erase (set_visible_iter filter c) = erase c) cs →
  ∀ drop, (drop = true → l = false) →
  erase_children l (visible_walk filter drop cs) = erase_children l cs.
Proof.
  induction 1 as [|c cs Hc _ IH]; intros drop Hd; [reflexivity|].
  cbn [visible_walk]. rewrite (erase_children_cons l c).
  destruct (drop && has_tag "visible" c) eqn:E.
  - apply andb_true_iff in E as [-> E]. specialize (Hd eq_refl). subst l.
    rewrite E. cbn [negb andb app]. apply (IH false). discriminate.
  - rewrite erase_children_cons, (erase_has_tag "visible" c _ Hc), Hc, (IH drop Hd).
    reflexivity.
Qed.

Lemma erase_set_visible_iter filter : ∀ e, erase (set_visible_iter filter e) = erase e.
Proof.
  apply MElement_ind'. intros t a tx cs l IH.
  rewrite (erase_unfold (Element t a tx cs l)), erase_unfold.
  rewrite set_visible_iter_children. cbn [set_visible_iter tag attrib text children visibility_locked].
  f_equal. apply erase_visible_walk; [exact IH|].
  intros H. apply andb_true_iff in H as [H _]. apply andb_true_iff in H as [_ H].
  now destruct l.
Qed.

Lemma erase_set_invisible_iter tg : ∀ e, erase (set_invisible_iter tg e) = erase e.
Proof.
  apply MElement_ind'. intros t a tx cs l IH.
  rewrite (erase_unfold (Element t a tx cs l)), erase_unfold.
  cbn [set_invisible_iter tag attrib text children visibility_locked]. f_equal.
  rewrite erase_children_app.
  assert (H : erase_children l (map (set_invisible_iter tg) cs) = erase_children l cs).
  { apply erase_children_Forall2. induction IH; constructor; auto. }
  rewrite H. destruct (String.eqb t tg && negb l && is_visible _) eqn:E.
  - apply andb_true_iff in E as [E _]. apply andb_true_iff in E as [_ E].
    destruct l; [discriminate|]. rewrite erase_children_cons. cbn. now rewrite app_nil_r.
  - cbn. now rewrite app_nil_r.
Qed.

(** ** How far a change of visibility reaches

    The walk and the sequencer rewrite the tree only through
    [set_visible], [set_visible_all] and the two chord operations.  What
    every one of these keeps, the walk keeps, and so does every frame. *)

(** The two chords that the tremolo rule rewrites, and how. *)
Lemma tremolo_effect_ops voice i element duration duration_type chord_duration next
      max_duration max_tremolo voice' next' :
  children voice !! i = Some element →
  _visibilize_tremolo voice i duration duration_type chord_duration next
    max_duration max_tremolo = Ok (voice', next') →
  voice' = voice
  ∨ ∃ ne j e' n',
      get_next_chord voice (Z.of_nat i) = Ok (Some (ne, j))
      ∧ voice' = put_child (put_child voice i e') (Z.to_nat j) n'
      ∧ ((e' = show_chord (show_tremolo_glyph element) ∧ n' = hide_chord ne)
         ∨ (e' = hide_chord (show_tremolo_glyph element) ∧ n' = show_chord ne)
         ∨ (e' = element ∧ n' = set_visible_all ne)
         ∨ (e' = set_visible element ∧ n' = set_visible ne)).
Proof.
  intros Hl. unfold _visibilize_tremolo, child_at. rewrite Hl. cbn [mbind result_bind].
  destruct (find "Tremolo" element) as [tremolo|] eqn:Ef; [|intros [= <- <-]; auto].
  destruct (tremolo_subtype tremolo duration_type) as [[c stroke]|]; [|discriminate].
  cbn [mbind result_bind]. destruct (String.eqb c "c"); [|intros [= <- <-]; auto].
  destruct (get_next_chord voice (Z.of_nat i)) as [[[ne j]|]|]; try discriminate.
  cbn [mbind result_bind].
  destruct (num_add duration chord_duration) as [d|]; [|discriminate]. cbn [mbind result_bind].
  destruct (_last_element_in_measure d max_duration) as [last|]; [|discriminate].
  cbn [mbind result_bind]. intros H. right. exists ne, j.
  destruct last.
  - destruct (num_sub (value max_tremolo) (PyFloat f_0_01)) as [bound|]; [|discriminate].
    cbn [mbind result_bind] in H. destruct (num_ge (value stroke) bound).
    + destruct (num_sub max_duration duration) as [x|]; [|discriminate].
      cbn [mbind result_bind] in H.
      destruct (num_mul (PyInt 2) (value stroke)) as [m|]; [|discriminate].
      cbn [mbind result_bind] in H.
      destruct (num_mod x m) as [r|]; [|discriminate]. cbn [mbind result_bind] in H.
      destruct (num_truediv r (value stroke)) as [q|]; [|discriminate].
      cbn [mbind result_bind] in H.
      fold (show_tremolo_glyph element) in H.
      unfold set_visible_chord, set_invisible_chord in H.
      fold (show_chord (show_tremolo_glyph element)) in H.
      fold (hide_chord (show_tremolo_glyph element)) in H.
      fold (show_chord ne) in H. fold (hide_chord ne) in H.
      destruct (num_lt q (PyInt 1));
        destruct (has_tag "Chord" (show_tremolo_glyph element)); try discriminate;
        destruct (has_tag "Chord" ne); try discriminate;
        cbn [mbind result_bind negb] in H; injection H as <- <-;
        eexists _, _; (split; [reflexivity|]); (split; [reflexivity|]); auto.
    + injection H as <- <-. exists element, (set_visible_all ne).
      split; [reflexivity|]. split; [|auto].
      replace (put_child voice i element) with voice; [reflexivity|].
      unfold put_child, with_children. rewrite list_insert_id by exact Hl.
      now destruct voice.
  - injection H as <- <-. exists (set_visible element), (set_visible ne).
    split; [reflexivity|]. split; [reflexivity|]. auto 6.
Qed.

Section VisitVoice.

Variable py_eval : string → result num.
Variables (time_sig max_duration : num) (max_tremolo : Note).

(** The voice after one visit: the element made visible, and then at most
    the tremolo rule. *)
Lemma visit_voice i w w' fl :
  visit py_eval time_sig max_duration max_tremolo i w = Ok (w', fl) →
  ∃ e, children (w_voice w) !! i = Some e ∧
    let voice1 := put_child (w_voice w) i (set_visible_all e) in
    w_voice w' = voice1
    ∨ ∃ dt cd next,
        _visibilize_tremolo voice1 i (w_duration w) dt cd (w_next w) max_duration max_tremolo
        = Ok (w_voice w', next).
Proof.
  unfold visit, child_at. destruct (children (w_voice w) !! i) as [e|] eqn:El; [|discriminate].
  cbn [mbind result_bind]. intros H. exists e. split; [reflexivity|]. cbv zeta.
  destruct (bool_decide (w_next w = Some (Z.of_nat i))).
  - injection H as <- <-. left. reflexivity.
  - match type of H with (?m ≫= _) = _ => destruct m as [w1|] eqn:E1 end; [|discriminate].
    cbn [mbind result_bind] in H.
    destruct (_last_element_in_measure (w_duration w1) max_duration) as [last|]; [|discriminate].
    cbn [mbind result_bind] in H. injection H as <- <-.
    destruct (is_gracenote (set_visible_all e)); [injection E1 as <-; left; auto|].
    destruct (has_tag "location" (set_visible_all e)).
    { destruct (duration_offset py_eval (set_visible_all e)) as [off|]; [|discriminate].
      cbn [mbind result_bind] in E1.
      destruct (num_add (w_duration w) off); [|discriminate].
      injection E1 as <-. left. auto. }
    destruct (is_tuplet (set_visible_all e)).
    { destruct (tuplet_value (set_visible_all e)); [|discriminate].
      injection E1 as <-. left. auto. }
    destruct (has_tag "Chord" (set_visible_all e) || has_tag "Rest" (set_visible_all e));
      [|injection E1 as <-; left; auto].
    destruct (duration_value (set_visible_all e) time_sig) as [[dotted dt]|]; [|discriminate].
    cbn [mbind result_bind] in E1.
    destruct (num_mul (w_tuplet w) dotted) as [td|]; [|discriminate].
    cbn [mbind result_bind] in E1.
    destruct (num_mul td dt) as [cd|]; [|discriminate]. cbn [mbind result_bind] in E1.
    destruct (_visibilize_tremolo _ i (w_duration w) dt cd (w_next w) max_duration max_tremolo)
      as [[voice' next']|] eqn:Et; [|discriminate].
    cbn [mbind result_bind] in E1.
    destruct (num_add (w_duration w) cd); [|discriminate].
    injection E1 as <-. right. exists dt, cd, next'. exact Et.
Qed.

End VisitVoice.

Lemma ncols_lt (t : tree) i : (i < ncols t)%nat → Forall (fun st => (i < List.length st)%nat) t.
Proof.
  destruct t as [|st t]; [constructor|]. cbn [ncols].
  revert st. induction t as [|s t IH]; intros st; cbn [foldr].
  - intros H. repeat constructor. exact H.
  - intros H. specialize (IH st).
    assert (H1 : (i < foldr (λ s n, List.length s `min` n)%nat (List.length st) t)%nat) by lia.
    specialize (IH H1). inversion IH as [|? ? Hst Ht]; subst.
    constructor; [exact Hst|]. constructor; [lia|exact Ht].
Qed.

Section Retouch.

Variable R : MElement → MElement → Prop.
Hypothesis R_refl : ∀ e, R e e.
Hypothesis R_trans : ∀ a b c, R a b → R b c → R a c.
Hypothesis R_children : ∀ e cs', Forall2 R (children e) cs' → R e (with_children e cs').
Hypothesis R_set_visible : ∀ e, R e (set_visible e).
Hypothesis R_set_visible_iter : ∀ filter e, R e (set_visible_iter filter e).
Hypothesis R_set_invisible_iter : ∀ tg e, R e (set_invisible_iter tg e).

Lemma Forall2_R_refl (cs : list MElement) : Forall2 R cs cs.
Proof. induction cs; constructor; auto. Qed.

Lemma Forall2_R_trans (l1 l2 l3 : list MElement) :
  Forall2 R l1 l2 → Forall2 R l2 l3 → Forall2 R l1 l3.
Proof.
  intros H. revert l3. induction H as [|a b l1 l2 Hab _ IH]; intros l3 H3.
  - inversion H3. constructor.
  - inversion H3 as [|? c ? l3' Hbc Hr]; subst. constructor; eauto.
Qed.

Lemma Forall2_R_insert (cs : list MElement) i c c' :
  cs !! i = Some c → R c c' → Forall2 R cs (<[i := c']> cs).
Proof.
  revert i. induction cs as [|x cs IH]; intros [|i]; cbn; try discriminate.
  - intros [= ->] H. constructor; [exact H|apply Forall2_R_refl].
  - intros Hl H. constructor; [apply R_refl|]. now apply IH.
Qed.

Lemma R_put_child voice i c c' :
  children voice !! i = Some c → R c c' → R voice (put_child voice i c').
Proof. intros Hl H. apply R_children. now apply Forall2_R_insert with c. Qed.

Lemma Forall2_R_update_first tg (cs : list MElement) :
  Forall2 R cs (update_first tg set_visible cs).
Proof.
  induction cs as [|c cs IH]; cbn [update_first]; [constructor|].
  destruct (has_tag tg c); constructor; auto using Forall2_R_refl.
Qed.

Lemma R_show_tremolo_glyph e : R e (show_tremolo_glyph e).
Proof. apply R_children, Forall2_R_update_first. Qed.

Lemma R_show_chord e : R e (show_chord e).
Proof.
  unfold show_chord. generalize CHORD_SUB as l. intros l. revert e.
  induction l as [|tg l IH]; intros e; cbn [foldl]; [apply R_refl|].
  eapply R_trans; [apply (R_set_visible_iter (Some tg))|apply IH].
Qed.

Lemma R_hide_chord e : R e (hide_chord e).
Proof.
  unfold hide_chord. generalize CHORD_SUB as l. intros l. revert e.
  induction l as [|tg l IH]; intros e; cbn [foldl]; [apply R_refl|].
  eapply R_trans; [apply (R_set_invisible_iter tg)|apply IH].
Qed.

Lemma R_visibilize_tremolo voice i element duration duration_type chord_duration next
      max_duration max_tremolo voice' next' :
  children voice !! i = Some element →
  _visibilize_tremolo voice i duration duration_type chord_duration next
    max_duration max_tremolo = Ok (voice', next') →
  R voice voice'.
Proof.
  intros Hl H.
  destruct (tremolo_effect_ops _ _ _ _ _ _ _ _ _ _ _ Hl H)
    as [->|(ne & j & e' & n' & Hn & -> & Hops)]; [apply R_refl|].
  destruct (get_next_chord_some voice i ne j Hn) as (Hij & Hj & _).
  assert (He : R element e' ∧ R ne n').
  { destruct Hops as [[-> ->]|[[-> ->]|[[-> ->]|[-> ->]]]].
    - split; [|apply R_hide_chord].
      eapply R_trans; [apply R_show_tremolo_glyph|apply R_show_chord].
    - split; [|apply R_show_chord].
      eapply R_trans; [apply R_show_tremolo_glyph|apply R_hide_chord].
    - split; [apply R_refl|apply (R_set_visible_iter None)].
    - split; apply R_set_visible. }
  destruct He as [He Hne].
  eapply R_trans; [apply (R_put_child voice i element e' Hl He)|].
  apply R_put_child with ne; [|exact Hne].
  unfold put_child, with_children. cbn [children].
  rewrite list_lookup_insert_ne by lia. exact Hj.
Qed.

Section RetouchWalk.

Variable py_eval : string → result num.
Variables (time_sig max_duration : num) (max_tremolo : Note).

Lemma R_visit i w w' fl :
  visit py_eval time_sig max_duration max_tremolo i w = Ok (w', fl) →
  R (w_voice w) (w_voice w').
Proof.
  intros H. destruct (visit_voice _ _ _ _ _ _ _ _ H) as (e & He & Hv). cbv zeta in Hv.
  assert (H1 : R (w_voice w) (put_child (w_voice w) i (set_visible_all e))).
  { apply R_put_child with e; [exact He|apply (R_set_visible_iter None)]. }
  destruct Hv as [->|(dt & cd & next & Ht)]; [exact H1|].
  eapply R_trans; [exact H1|].
  eapply R_visibilize_tremolo; [|exact Ht].
  unfold put_child, with_children. cbn [children].
  apply list_lookup_insert_eq. now apply lookup_lt_Some with e.
Qed.

Lemma R_walk_from n : ∀ i w w' stop,
  walk_from py_eval time_sig max_duration max_tremolo n i w = Ok (w', stop) →
  R (w_voice w) (w_voice w').
Proof.
  induction n as [|n IH]; intros i w w' stop; cbn [walk_from].
  - intros [= <- <-]. apply R_refl.
  - destruct (visit py_eval time_sig max_duration max_tremolo i w) as [[w1 fl]|] eqn:Ev;
      [|discriminate].
    cbn [mbind result_bind]. pose proof (R_visit _ _ _ _ Ev) as H1.
    destruct fl.
    + intros H. eapply R_trans; [exact H1|]. eapply IH. exact H.
    + intros [= <- <-]. exact H1.
Qed.

Lemma R_visibilize_voice voice voice' :
  visibilize_voice py_eval time_sig max_duration max_tremolo voice = Ok voice' →
  R voice voice'.
Proof.
  unfold visibilize_voice. destruct (is_unprintable voice).
  - intros [= <-]. apply R_refl.
  - unfold walk_voice.
    destruct (walk_from py_eval time_sig max_duration max_tremolo
                (List.length (children voice)) 0 (walk_init voice)) as [[w stop]|] eqn:E;
      [|discriminate].
    cbn. intros [= <-]. apply (R_walk_from _ _ _ _ _ E).
Qed.

Lemma map_result_Forall2 {A B} (f : A → result B) (P : A → B → Prop) (l : list A) l' :
  (∀ a b, f a = Ok b → P a b) → map_result f l = Ok l' → Forall2 P l l'.
Proof.
  intros Hf. revert l'. induction l as [|a l IH]; intros l'; cbn [map_result].
  - intros [= <-]. constructor.
  - destruct (f a) as [b|] eqn:E; [|discriminate]. cbn [mbind result_bind].
    destruct (map_result f l) as [bs|]; [|discriminate]. cbn [mbind result_bind].
    intros [= <-]. constructor; auto.
Qed.

Lemma R_visibilize_one_measure measure measure' :
  visibilize_one_measure py_eval time_sig max_duration max_tremolo measure = Ok measure' →
  R measure measure'.
Proof.
  unfold visibilize_one_measure.
  destruct (map_result _ (children measure)) as [cs'|] eqn:E; [|discriminate].
  cbn. intros [= <-]. apply R_children.
  apply (map_result_Forall2 _ R _ _ R_visibilize_voice E).
Qed.

Lemma R_visibilize_measure measures measures' :
  _visibilize_measure py_eval time_sig max_duration max_tremolo measures = Ok measures' →
  Forall2 R measures measures'.
Proof. apply map_result_Forall2, R_visibilize_one_measure. Qed.

End RetouchWalk.

(** *** The grid of measures and the frames *)

Lemma grid_R_refl (t : tree) : Forall2 (Forall2 R) t t.
Proof. induction t; constructor; auto using Forall2_R_refl. Qed.

Lemma grid_R_trans (t1 t2 t3 : tree) :
  Forall2 (Forall2 R) t1 t2 → Forall2 (Forall2 R) t2 t3 → Forall2 (Forall2 R) t1 t3.
Proof.
  intros H. revert t3. induction H as [|a b l1 l2 Hab _ IH]; intros t3 H3.
  - inversion H3. constructor.
  - inversion H3 as [|? c ? l3' Hbc Hr]; subst. constructor; eauto using Forall2_R_trans.
Qed.

Lemma grid_R_lengths (t t' : tree) (k : nat) :
  Forall2 (Forall2 R) t t' →
  Forall (fun st => (k < List.length st)%nat) t → Forall (fun st => (k < List.length st)%nat) t'.
Proof.
  induction 1 as [|st st' t t' Hst _ IH]; intros Hl; [constructor|].
  inversion Hl as [|? ? H1 H2]; subst. constructor; [|auto].
  now rewrite <- (Forall2_length _ _ _ Hst).
Qed.

Lemma set_column_R i (t : tree) : ∀ ms,
  Forall (fun st => (i < List.length st)%nat) t →
  Forall2 R (column i t) ms →
  Forall2 (Forall2 R) t (set_column i ms t).
Proof.
  induction t as [|st t IH]; intros ms Hl H; [destruct ms; constructor|].
  inversion Hl as [|? ? H1 H2]; subst.
  destruct (lookup_lt_is_Some_2 st i H1) as [m Hm].
  unfold column in H. cbn [flat_map] in H. rewrite Hm in H. cbn [app] in H.
  fold (column i t) in H.
  inversion H as [|? m' ? ms' Hmm Hrest]; subst. cbn [set_column].
  constructor; [now apply Forall2_R_insert with m|now apply IH].
Qed.

Lemma reset_measures_R i (t : tree) :
  Forall (fun st => (i < List.length st)%nat) t →
  Forall2 (Forall2 R) t (reset_measures i t).
Proof.
  intros Hl. unfold reset_measures. apply set_column_R; [exact Hl|].
  induction (column i t); constructor; [apply (R_set_visible_iter None)|assumption].
Qed.

Section RetouchFrames.

Variable py_eval : string → result num.
Variable self : Amusing.
Variable max_tremolo : Note.

Lemma R_animate cutoffs : ∀ i time_sig page t t',
  Forall (fun st => (i < List.length st)%nat) t →
  ended (animate py_eval max_tremolo cutoffs i time_sig page t) = Ok t' →
  Forall2 (Forall2 R) t t'
  ∧ Forall (fun f => Forall2 (Forall2 R) t (snd f))
      (yielded (animate py_eval max_tremolo cutoffs i time_sig page t)).
Proof.
  induction cutoffs as [|c cutoffs IH]; intros i T page t t' Hl; cbn [animate].
  - intros [= <-]. split; [apply grid_R_refl|constructor].
  - intros H. apply gen_bind_ok in H as (ms & H1 & H2 & ->). apply lift_ok in H1.
    apply gen_bind_ok in H2 as ([] & _ & H3 & ->).
    assert (Ht : Forall2 (Forall2 R) t (set_column i ms t)).
    { apply set_column_R; [exact Hl|]. eapply R_visibilize_measure. exact H1. }
    destruct (IH _ _ _ _ _ (grid_R_lengths _ _ _ Ht Hl) H3) as [Hr Hf].
    split; [eapply grid_R_trans; eassumption|].
    apply Forall_app_2; [apply Forall_nil_2|].
    apply Forall_app_2; [apply Forall_cons_2; [exact Ht|apply Forall_nil_2]|].
    eapply Forall_impl; [exact Hf|]. cbn. intros f Hg.
    eapply grid_R_trans; eassumption.
Qed.

Lemma R_sequence_measure i s s' :
  Forall (fun st => (i < List.length st)%nat) (s_tree s) →
  ended (sequence_measure py_eval self max_tremolo i s) = Ok s' →
  Forall2 (Forall2 R) (s_tree s) (s_tree s')
  ∧ Forall (fun f => Forall2 (Forall2 R) (s_tree s) (snd f))
      (yielded (sequence_measure py_eval self max_tremolo i s)).
Proof.
  intros Hl H. unfold sequence_measure in *.
  apply gen_bind_ok in H as (newpage & H1 & H2 & ->).
  apply gen_bind_ok in H2 as (t & H3 & H4 & ->).
  assert (Ht : Forall2 (Forall2 R) (s_tree s) t
               ∧ Forall (fun f => Forall2 (Forall2 R) (s_tree s) (snd f))
                   (yielded (match jobs self !! Z.of_nat i with
                             | Some subdivision =>
                                 time_sig ← lift (timesig_at self i);
                                 cutoffs ← lift (job_cutoffs time_sig subdivision);
                                 t ← animate py_eval max_tremolo cutoffs i time_sig
                                       (s_page s) (s_tree s);
                                 mret (reset_measures i t)
                             | None => mret (reset_measures i (s_tree s))
                             end))).
  { destruct (jobs self !! Z.of_nat i) as [subdivision|].
    - apply gen_bind_ok in H3 as (time_sig & _ & H3 & ->).
      apply gen_bind_ok in H3 as (cutoffs & _ & H3 & ->).
      apply gen_bind_ok in H3 as (t0 & H3 & H5 & ->).
      injection H5 as <-.
      destruct (R_animate _ _ _ _ _ _ Hl H3) as [Hr Hf].
      split.
      + eapply grid_R_trans; [exact Hr|].
        apply reset_measures_R. eapply grid_R_lengths; eassumption.
      + apply Forall_app_2; [apply Forall_nil_2|].
        apply Forall_app_2; [apply Forall_nil_2|].
        apply Forall_app_2; [exact Hf|apply Forall_nil_2].
    - injection H3 as <-. split; [now apply reset_measures_R|apply Forall_nil_2]. }
  destruct Ht as [Hr Hf].
  destruct newpage.
  - apply gen_bind_ok in H4 as ([] & _ & H4 & ->). injection H4 as <-. cbn [s_tree].
    split; [exact Hr|]. apply Forall_app_2; [apply Forall_nil_2|].
    apply Forall_app_2; [exact Hf|].
    apply Forall_app_2; [apply Forall_cons_2; [exact Hr|apply Forall_nil_2]|apply Forall_nil_2].
  - injection H4 as <-. cbn [s_tree]. split; [exact Hr|].
    apply Forall_app_2; [apply Forall_nil_2|].
    apply Forall_app_2; [exact Hf|apply Forall_nil_2].
Qed.

(** The tree after the pass over one index: the measures of the index are
    reset in a tree that the cutoffs have retouched. *)
Lemma R_sequence_measure_reset i s s' :
  Forall (fun st => (i < List.length st)%nat) (s_tree s) →
  ended (sequence_measure py_eval self max_tremolo i s) = Ok s' →
  ∃ ta, Forall2 (Forall2 R) (s_tree s) ta ∧ s_tree s' = reset_measures i ta.
Proof.
  intros Hl H. unfold sequence_measure in *.
  apply gen_bind_ok in H as (newpage & H1 & H2 & _).
  apply gen_bind_ok in H2 as (t & H3 & H4 & _).
  assert (Ht : ∃ ta, Forall2 (Forall2 R) (s_tree s) ta ∧ t = reset_measures i ta).
  { destruct (jobs self !! Z.of_nat i) as [subdivision|].
    - apply gen_bind_ok in H3 as (time_sig & _ & H3 & _).
      apply gen_bind_ok in H3 as (cutoffs & _ & H3 & _).
      apply gen_bind_ok in H3 as (t0 & H3 & H5 & _).
      injection H5 as <-.
      destruct (R_animate _ _ _ _ _ _ Hl H3) as [Hr _]. eauto.
    - injection H3 as <-. exists (s_tree s). split; [apply grid_R_refl|reflexivity]. }
  destruct Ht as (ta & Hr & ->). exists ta. split; [exact Hr|].
  destruct newpage.
  - apply gen_bind_ok in H4 as ([] & _ & H4 & _). now injection H4 as <-.
  - now injection H4 as <-.
Qed.

Lemma R_sequence_from n : ∀ i s s',
  (∀ k, (i <= k < i + n)%nat → Forall (fun st => (k < List.length st)%nat) (s_tree s)) →
  ended (sequence_from py_eval self max_tremolo n i s) = Ok s' →
  Forall2 (Forall2 R) (s_tree s) (s_tree s')
  ∧ Forall (fun f => Forall2 (Forall2 R) (s_tree s) (snd f))
      (yielded (sequence_from py_eval self max_tremolo n i s)).
Proof.
  induction n as [|n IH]; intros i s s' Hl; cbn [sequence_from].
  - intros [= <-]. split; [apply grid_R_refl|constructor].
  - intros H. apply gen_bind_ok in H as (s1 & H1 & H2 & ->).
    destruct (R_sequence_measure i s s1 (Hl i ltac:(lia)) H1) as [Hr1 Hf1].
    assert (Hl1 : ∀ k, (S i <= k < S i + n)%nat →
                       Forall (fun st => (k < List.length st)%nat) (s_tree s1)).
    { intros k Hk. eapply grid_R_lengths; [exact Hr1|]. apply Hl. lia. }
    destruct (IH _ _ _ Hl1 H2) as [Hr2 Hf2].
    split; [eapply grid_R_trans; eassumption|].
    apply Forall_app_2; [exact Hf1|].
    eapply Forall_impl; [exact Hf2|]. cbn. intros f Hg. eapply grid_R_trans; eassumption.
Qed.

(** Every frame but the last is the document retouched; the last is the
    retouched document with the end barlines put in. *)
Lemma R_get_trees (t t' : tree) :
  ended (_get_trees py_eval self max_tremolo t) = Ok t' →
  ∃ frames page t1,
    yielded (_get_trees py_eval self max_tremolo t) = frames ++ [(page, t')]
    ∧ Forall (fun f => Forall2 (Forall2 R) t (snd f)) frames
    ∧ Forall2 (Forall2 R) t t1
    ∧ map_result close_staff t1 = Ok t'.
Proof.
  unfold _get_trees. intros H.
  apply gen_bind_ok in H as ([] & _ & H & ->).
  apply gen_bind_ok in H as (s & Hs & H & ->).
  apply gen_bind_ok in H as (t1 & Ht1 & H & ->). apply lift_ok in Ht1.
  apply gen_bind_ok in H as ([] & _ & H & ->). injection H as <-.
  assert (Hl : ∀ k, (0 <= k < 0 + ncols t)%nat →
                    Forall (fun st => (k < List.length st)%nat)
                      (s_tree {| s_tree := t; s_page := 1; s_newpage := false |})).
  { intros k Hk. apply ncols_lt. cbn [s_tree]. lia. }
  destruct (R_sequence_from (ncols t) 0 _ s Hl Hs) as [Hr Hf].
  cbn [s_tree] in Hr, Hf.
  exists ((if first_emtpy_frame self then [(1, t)] else [])
          ++ yielded (sequence_from py_eval self max_tremolo (ncols t) 0
                        {| s_tree := t; s_page := 1; s_newpage := false |})),
    (s_page s), (s_tree s).
  split; [|split; [|split; [exact Hr|exact Ht1]]].
  - change (yielded (lift (map_result close_staff (s_tree s)))) with (@nil (Z * tree)).
    change (yielded (mret t1) : list (Z * tree)) with (@nil (Z * tree)).
    change (yielded (yield (s_page s) t1)) with [(s_page s, t1)].
    rewrite app_nil_r, app_nil_l, <- app_assoc.
    now destruct (first_emtpy_frame self).
  - apply Forall_app_2; [|exact Hf].
    destruct (first_emtpy_frame self); [|apply Forall_nil_2].
    apply Forall_cons_2; [apply grid_R_refl|apply Forall_nil_2].
Qed.

End RetouchFrames.

End Retouch.

(** ** Only markers change *)

Lemma Forall2_erase_map (l l' : list MElement) :
  Forall2 (fun c c' => erase c' = erase c) l l' → map erase l' = map erase l.
Proof. induction 1 as [|c c' l l' H _ IH]; cbn [map]; [reflexivity|]. now rewrite H, IH. Qed.

Lemma grid_erase_map (t t' : tree) :
  Forall2 (Forall2 (fun c c' => erase c' = erase c)) t t' →
  map (map erase) t' = map (map erase) t.
Proof.
  induction 1 as [|st st' t t' H _ IH]; cbn [map]; [reflexivity|].
  now rewrite (Forall2_erase_map _ _ H), IH.
Qed.

Lemma erase_show_chord e : erase (show_chord e) = erase e.
Proof.
  unfold show_chord. generalize CHORD_SUB as l. intros l. revert e.
  induction l as [|tg l IH]; intros e; cbn [foldl]; [reflexivity|].
  now rewrite IH, erase_set_visible_iter.
Qed.

Lemma erase_hide_chord e : erase (hide_chord e) = erase e.
Proof.
  unfold hide_chord. generalize CHORD_SUB as l. intros l. revert e.
  induction l as [|tg l IH]; intros e; cbn [foldl]; [reflexivity|].
  now rewrite IH, erase_set_invisible_iter.
Qed.

(** The operations that show and hide a node or a chord change nothing but
    the markers of unlocked nodes: tags, attributes, texts, the order of the
    children, the locks and the markers of locked nodes stay. *)
Theorem visibility_changes_markers_only (e : MElement) :
  erase (set_visible e) = erase e
  ∧ erase (set_invisible e) = erase e
  ∧ erase (set_visible_all e) = erase e
  ∧ erase <$> set_visible_chord e = (fun _ => erase e) <$> set_visible_chord e
  ∧ erase <$> set_invisible_chord e = (fun _ => erase e) <$> set_invisible_chord e.
Proof.
  split; [apply erase_set_visible|]. split; [apply erase_set_invisible|].
  split; [apply erase_set_visible_iter|].
  unfold set_visible_chord, set_invisible_chord.
  destruct (has_tag "Chord" e); cbn [negb]; [|split; reflexivity].
  split; [exact (f_equal Ok (erase_show_chord e))|exact (f_equal Ok (erase_hide_chord e))].
Qed.

(** One pass of the visibility walk over the measures of an index, at any
    cutoff, changes nothing but the markers of unlocked nodes. *)
Theorem visibilize_measure_changes_markers_only
    (py_eval : string → result num) (time_sig max_duration : num) (max_tremolo : Note)
    (measures measures' : list MElement) :
  _visibilize_measure py_eval time_sig max_duration max_tremolo measures = Ok measures' →
  map erase measures' = map erase measures.
Proof.
  intros H. apply Forall2_erase_map.
  apply (R_visibilize_measure (fun c c' => erase c' = erase c)) with py_eval time_sig
    max_duration max_tremolo; try exact H.
  - reflexivity.
  - intros a b c Hab Hbc. now rewrite Hbc.
  - exact erase_with_children.
  - exact erase_set_visible.
  - exact erase_set_visible_iter.
  - exact erase_set_invisible_iter.
Qed.

Lemma visibilize_measure_changes_markers_only_witness :
  ∃ ms, _visibilize_measure no_eval (units 1024) (units 256) thirty_second
          [node "Measure" [tremolo_voice; sample_voice]] = Ok ms
        ∧ ms ≠ [node "Measure" [tremolo_voice; sample_voice]]
        ∧ map erase ms = map erase [node "Measure" [tremolo_voice; sample_voice]].
Proof.
  set (r := _visibilize_measure no_eval (units 1024) (units 256) thirty_second
              [node "Measure" [tremolo_voice; sample_voice]]).
  set (ms := match r with Ok x => x | Raise _ => [] end).
  assert (H : r = Ok ms) by (vm_compute; reflexivity).
  exists ms. split; [exact H|]. split; [vm_compute; discriminate|].
  exact (visibilize_measure_changes_markers_only _ _ _ _ _ _ H).
Defined.

Lemma find_erase_children tg l (cs : list MElement) :
  tg ≠ "visible" →
  List.find (has_tag tg) (erase_children l cs) = erase <$> List.find (has_tag tg) cs.
Proof.
  intros Htg. induction cs as [|c cs IH]; [reflexivity|].
  rewrite erase_children_cons. cbn [List.find].
  destruct (has_tag tg c) eqn:Ec.
  - assert (Hv : has_tag "visible" c = false).
    { unfold has_tag in *. apply String.eqb_eq in Ec. apply String.eqb_neq. congruence. }
    rewrite Hv, andb_false_r. cbn [app List.find]. unfold has_tag at 1.
    rewrite tag_erase. fold (has_tag tg c). now rewrite Ec.
  - destruct (negb l && has_tag "visible" c); cbn [app List.find]; [exact IH|].
    unfold has_tag at 1. rewrite tag_erase. fold (has_tag tg c). now rewrite Ec.
Qed.

Lemma contains_erase tg e : tg ≠ "visible" → contains tg (erase e) = contains tg e.
Proof.
  intros Htg. unfold contains, find. rewrite (erase_unfold e). cbn [children].
  rewrite find_erase_children by exact Htg. now destruct (List.find _ _).
Qed.

Lemma erase_append_barline m : erase (append m end_barline) = append (erase m) end_barline.
Proof.
  rewrite (erase_unfold (append m end_barline)), (erase_unfold m).
  unfold append, with_children. cbn [tag attrib text children visibility_locked].
  f_equal. rewrite erase_children_app. f_equal.
  rewrite erase_children_cons. cbn. now rewrite andb_false_r.
Qed.

Lemma close_staff_erase staff staff' :
  close_staff staff = Ok staff' → close_staff (map erase staff) = Ok (map erase staff').
Proof.
  unfold close_staff. rewrite length_map.
  change (map erase staff) with (erase <$> staff). rewrite list_lookup_fmap.
  destruct (staff !! (List.length staff - 1)%nat) as [m|]; [|discriminate].
  cbn [fmap option_fmap option_map]. rewrite contains_erase by discriminate.
  destruct (contains "BarLine" m).
  - intros [= <-]. reflexivity.
  - intros [= <-]. rewrite list_fmap_insert, erase_append_barline. reflexivity.
Qed.

Lemma map_result_close_staff_erase (t t' : tree) :
  map_result close_staff t = Ok t' →
  map_result close_staff (map (map erase) t) = Ok (map (map erase) t').
Proof.
  revert t'. induction t as [|st t IH]; intros t'; cbn [map_result map].
  - intros [= <-]. reflexivity.
  - destruct (close_staff st) as [st'|] eqn:E; [|discriminate]. cbn [mbind result_bind].
    destruct (map_result close_staff t) as [r|]; [|discriminate]. cbn [mbind result_bind].
    intros [= <-]. rewrite (close_staff_erase _ _ E). cbn [mbind result_bind].
    rewrite (IH r eq_refl). reflexivity.
Qed.

(** Whatever the jobs and the cutoffs, every frame but the last is the
    document with other markers on its unlocked nodes, and the last frame is
    that document with the end barlines put in: no frame changes a tag, a
    text, an attribute, the order of the elements, a lock, or the markers of
    a locked node. *)
Theorem frames_change_markers_only
    (py_eval : string → result num) (self : Amusing) (max_tremolo : Note) (t t' : tree) :
  ended (_get_trees py_eval self max_tremolo t) = Ok t' →
  ∃ frames page,
    yielded (_get_trees py_eval self max_tremolo t) = frames ++ [(page, t')]
    ∧ Forall (fun f => map (map erase) (snd f) = map (map erase) t) frames
    ∧ map_result close_staff (map (map erase) t) = Ok (map (map erase) t').
Proof.
  intros H.
  destruct (R_get_trees (fun c c' => erase c' = erase c)) with py_eval self max_tremolo t t'
    as (frames & page & t1 & Hy & Hf & Hr & Hc); try exact H.
  - reflexivity.
  - intros a b c Hab Hbc. now rewrite Hbc.
  - exact erase_with_children.
  - exact erase_set_visible.
  - exact erase_set_visible_iter.
  - exact erase_set_invisible_iter.
  - exists frames, page. split; [exact Hy|]. split.
    + eapply Forall_impl; [exact Hf|]. intros f Hg. now apply grid_erase_map.
    + rewrite <- (grid_erase_map _ _ Hr). now apply map_result_close_staff_erase.
Qed.

Lemma frames_change_markers_only_witness :
  ∃ frames last,
    map snd (yielded (_get_trees no_eval quarter_steps thirty_second two_pages))
    = frames ++ [last]
    ∧ List.length frames = 6%nat
    ∧ Forall (fun f => map (map erase) f = map (map erase) two_pages) frames.
Proof.
  set (g := _get_trees no_eval quarter_steps thirty_second two_pages).
  set (t1 := match ended g with Ok t => t | Raise _ => two_pages end).
  assert (H : ended g = Ok t1) by (vm_compute; reflexivity).
  destruct (frames_change_markers_only _ _ _ _ _ H) as (frames & page & Hy & Hf & _).
  exists (map snd frames), t1. unfold g. rewrite Hy, map_app. split; [|split].
  - reflexivity.
  - assert (Hn : List.length (yielded g) = 7%nat) by (vm_compute; reflexivity).
    unfold g in Hn. rewrite Hy, length_app in Hn. cbn [List.length] in Hn.
    rewrite length_map. lia.
  - change (map snd frames) with (snd <$> frames). apply Forall_fmap. exact Hf.
Defined.

(** ** Trees with at most one marker per node *)

Lemma every_unfold P e : every P e ↔ P e ∧ Forall (every P) (children e).
Proof.
  destruct e as [t a tx cs l]. cbn [every children].
  assert (H : (fix go (cs : list MElement) : Prop :=
                 match cs with
                 | [] => True
                 | c :: r => every P c ∧ go r
                 end) cs ↔ Forall (every P) cs).
  { induction cs as [|c cs IH]; [split; constructor|].
    rewrite Forall_cons. now rewrite IH. }
  now rewrite H.
Qed.

Lemma every_impl (P Q : MElement → Prop) : (∀ n, P n → Q n) → ∀ e, every P e → every Q e.
Proof.
  intros HPQ. apply (MElement_ind' (fun e => every P e → every Q e)).
  intros t a tx cs l IH H. apply every_unfold in H as [H1 H2]. apply every_unfold.
  split; [auto|]. cbn [children] in *.
  rewrite Forall_forall in *. intros x Hx. apply (IH x Hx), (H2 x Hx).
Qed.

(** The texts of the markers decide whether a node is clean. *)
Lemma clean_marker_texts e e' :
  map text (markers e') = map text (markers e) → clean e → clean e'.
Proof.
  unfold clean. destruct (markers e) as [|m [|m2 ms]], (markers e') as [|m' [|m2' ms']];
    cbn [map]; try discriminate; try tauto.
  intros [= H]. congruence.
Qed.

Lemma marker_texts_Forall2 (cs cs' : list MElement) :
  Forall2 (fun c c' => tag c' = tag c ∧ text c' = text c) cs cs' →
  map text (filter (fun c => has_tag "visible" c = true) cs')
  = map text (filter (fun c => has_tag "visible" c = true) cs).
Proof.
  induction 1 as [|c c' cs cs' [Ht Hx] _ IH]; [reflexivity|].
  rewrite !filter_cons, (has_tag_of_tag "visible" c c' Ht).
  destruct (decide (has_tag "visible" c = true)); cbn [map]; now rewrite ?Hx, IH.
Qed.

Lemma clean_no_marker e : markers e = [] → clean e.
Proof. unfold clean. now intros ->. Qed.

Lemma clean_visible e : clean e → is_visible e = true → markers e = [].
Proof.
  unfold clean. rewrite is_visible_markers.
  destruct (markers e) as [|m [|m2 ms]]; [reflexivity| |contradiction].
  intros H. now rewrite (text_is_0 m H).
Qed.

Lemma clean_hidden e : clean e → is_visible e = false → ∃ m, markers e = [m].
Proof.
  unfold clean. rewrite is_visible_markers.
  destruct (markers e) as [|m [|m2 ms]]; [discriminate|eauto|contradiction].
Qed.

(** The relation that the operations keep: same tag, same text, and clean
    trees stay clean. *)
Lemma keeps_clean_children e cs' :
  Forall2 (fun c c' => tag c' = tag c ∧ text c' = text c
                       ∧ (every clean c → every clean c')) (children e) cs' →
  tag (with_children e cs') = tag e ∧ text (with_children e cs') = text e
  ∧ (every clean e → every clean (with_children e cs')).
Proof.
  intros H. split; [reflexivity|]. split; [reflexivity|].
  intros Hc. apply every_unfold in Hc as [Hc1 Hc2]. apply every_unfold.
  unfold with_children. cbn [children]. split.
  - apply (clean_marker_texts e); [|exact Hc1]. unfold markers. cbn [children].
    apply marker_texts_Forall2. eapply Forall2_impl; [exact H|]. cbn. tauto.
  - clear Hc1. revert H Hc2. generalize (children e) as cs. intros cs H Hc2.
    induction H as [|c c' cs cs' (_ & _ & Hcc) _ IH]; [constructor|].
    apply Forall_cons in Hc2 as [Hc Hcs]. constructor; auto.
Qed.

Lemma Forall_remove_first (P : MElement → Prop) tg cs :
  Forall P cs → Forall P (remove_first tg cs).
Proof.
  induction 1 as [|c cs Hc H IH]; cbn [remove_first]; [constructor|].
  destruct (has_tag tg c); [exact H|constructor; assumption].
Qed.

Lemma keeps_clean_set_visible e :
  tag (set_visible e) = tag e ∧ text (set_visible e) = text e
  ∧ (every clean e → every clean (set_visible e)).
Proof.
  split; [apply tag_set_visible|]. split.
  { unfold set_visible. destruct (is_protected e), (is_visible e); reflexivity. }
  intros Hc. pose proof (markers_set_visible e) as Hm.
  apply every_unfold in Hc as [Hc1 Hc2]. apply every_unfold. split.
  - destruct (is_protected e); [unfold clean; now rewrite Hm|].
    destruct (is_visible e) eqn:Ev; [unfold clean; now rewrite Hm|].
    destruct (clean_hidden e Hc1 Ev) as [m Hmm]. apply clean_no_marker.
    now rewrite Hm, Hmm.
  - unfold set_visible. destruct (is_protected e); [exact Hc2|].
    destruct (is_visible e); [exact Hc2|]. cbn [negb with_children children].
    now apply Forall_remove_first.
Qed.

Lemma every_clean_marker : every clean invisible_marker.
Proof. apply every_unfold. split; [exact I|constructor]. Qed.

Lemma markers_visible_walk flt (cs : list MElement) : ∀ drop,
  filter (fun c => has_tag "visible" c = true) (visible_walk flt drop cs)
  = set_visible_iter flt
    <$> (if drop then tail (filter (fun c => has_tag "visible" c = true) cs)
         else filter (fun c => has_tag "visible" c = true) cs).
Proof.
  induction cs as [|c cs IH]; intros drop; [now destruct drop|].
  cbn [visible_walk]. rewrite (filter_cons _ c cs).
  destruct (has_tag "visible" c) eqn:E.
  - destruct (decide (true = true)); [|congruence]. destruct drop; cbn [andb tail].
    + apply (IH false).
    + rewrite filter_cons,
        (has_tag_of_tag "visible" c _ (tag_set_visible_iter flt c)), E.
      destruct (decide (true = true)); [|congruence]. cbn [fmap list_fmap].
      f_equal. apply (IH false).
  - destruct (decide (false = true)); [congruence|]. rewrite andb_false_r.
    rewrite filter_cons,
      (has_tag_of_tag "visible" c _ (tag_set_visible_iter flt c)), E.
    destruct (decide (false = true)); [congruence|]. apply IH.
Qed.

Lemma text_set_visible_iter flt e : text (set_visible_iter flt e) = text e.
Proof. destruct e; reflexivity. Qed.

Lemma Forall_visible_walk (P : MElement → Prop) flt (cs : list MElement) :
  Forall (fun c => P (set_visible_iter flt c)) cs →
  ∀ drop, Forall P (visible_walk flt drop cs).
Proof.
  induction 1 as [|c cs Hc _ IH]; intros drop; cbn [visible_walk]; [constructor|].
  destruct (drop && has_tag "visible" c); [apply IH|constructor; auto].
Qed.

Lemma keeps_clean_set_visible_iter flt : ∀ e,
  tag (set_visible_iter flt e) = tag e ∧ text (set_visible_iter flt e) = text e
  ∧ (every clean e → every clean (set_visible_iter flt e)).
Proof.
  intros e. split; [apply tag_set_visible_iter|]. split; [apply text_set_visible_iter|].
  revert e. apply (MElement_ind' (fun e => every clean e → every clean (set_visible_iter flt e))).
  intros t a tx cs l IH Hc. apply every_unfold in Hc as [Hc1 Hc2]. apply every_unfold.
  rewrite set_visible_iter_children. cbn [tag children visibility_locked] in *. split.
  - unfold clean, markers in *. rewrite set_visible_iter_children.
    cbn [tag children visibility_locked] in *. rewrite markers_visible_walk.
    destruct (filter (λ c : MElement, has_tag "visible" c = true) cs) as [|m [|m2 ms]];
      [now destruct (_ && _ && _)| |contradiction].
    destruct (_ && _ && _); cbn [tail fmap list_fmap]; [exact I|].
    now rewrite text_set_visible_iter.
  - apply Forall_visible_walk.
    rewrite Forall_forall in *. intros x Hx. apply (IH x Hx), (Hc2 x Hx).
Qed.

Lemma keeps_clean_set_invisible_iter tg : ∀ e,
  tag (set_invisible_iter tg e) = tag e ∧ text (set_invisible_iter tg e) = text e
  ∧ (every clean e → every clean (set_invisible_iter tg e)).
Proof.
  intros e. split; [apply tag_set_invisible_iter|]. split; [now destruct e|].
  revert e. apply (MElement_ind' (fun e => every clean e → every clean (set_invisible_iter tg e))).
  intros t a tx cs l IH Hc. apply every_unfold in Hc as [Hc1 Hc2]. apply every_unfold.
  cbn [set_invisible_iter children]. split.
  - assert (Hm : map text (filter (fun c => has_tag "visible" c = true)
                             (map (set_invisible_iter tg) cs))
                 = map text (filter (fun c => has_tag "visible" c = true) cs)).
    { apply marker_texts_Forall2. clear. induction cs as [|c cs IHcs]; constructor; auto.
      split; [apply tag_set_invisible_iter|now destruct c]. }
    destruct (String.eqb t tg && negb l && is_visible (Element t a tx cs l)) eqn:E.
    + apply andb_true_iff in E as [_ E].
      pose proof (clean_visible _ Hc1 E) as Hno. unfold markers in Hno. cbn [children] in Hno.
      rewrite Hno in Hm. unfold clean, markers. cbn [children]. rewrite filter_app.
      destruct (filter _ (map (set_invisible_iter tg) cs)); [|discriminate].
      reflexivity.
    + rewrite app_nil_r. apply (clean_marker_texts (Element t a tx cs l)); [|exact Hc1].
      unfold markers. cbn [children]. exact Hm.
  - apply Forall_app. split.
    + change (map (set_invisible_iter tg) cs) with (set_invisible_iter tg <$> cs).
      apply Forall_fmap. rewrite Forall_forall in *. intros x Hx.
      apply (IH x Hx), (Hc2 x Hx).
    + destruct (_ && _ && _); [|constructor]. constructor; [|constructor].
      exact every_clean_marker.
Qed.

(** ** Revealed trees *)

Lemma visible_walk_keep flt (cs : list MElement) :
  visible_walk flt false cs = map (set_visible_iter flt) cs.
Proof. induction cs as [|c cs IH]; [reflexivity|]. cbn [visible_walk andb map]. now rewrite IH. Qed.

Lemma unmarked_shown e : unmarked e → shown e.
Proof.
  unfold unmarked, shown. intros H Hp. rewrite is_visible_markers. now rewrite (H Hp).
Qed.

Lemma revealed_set_visible_all : ∀ e, every clean e → revealed (set_visible_all e).
Proof.
  unfold revealed, set_visible_all.
  apply (MElement_ind' (fun e => every clean e → every unmarked (set_visible_iter None e))).
  intros t a tx cs l IH Hc. apply every_unfold in Hc as [Hc1 Hc2]. apply every_unfold.
  rewrite set_visible_iter_children. cbn [tag children visibility_locked tag_matches andb] in *.
  split.
  - unfold unmarked, markers, is_protected. rewrite set_visible_iter_children.
    cbn [set_visible_iter tag children visibility_locked tag_matches andb].
    intros ->. rewrite markers_visible_walk. cbn [negb andb].
    destruct (is_visible (Element t a tx cs false)) eqn:Ev; cbn [negb].
    + pose proof (clean_visible _ Hc1 Ev) as Hno. unfold markers in Hno.
      cbn [children] in Hno. now rewrite Hno.
    + destruct (clean_hidden _ Hc1 Ev) as [m Hm]. unfold markers in Hm.
      cbn [children] in Hm. now rewrite Hm.
  - apply Forall_visible_walk. rewrite Forall_forall in *. intros x Hx.
    apply (IH x Hx), (Hc2 x Hx).
Qed.

Lemma revealed_fixed flt : ∀ e, revealed e → set_visible_iter flt e = e.
Proof.
  unfold revealed.
  apply (MElement_ind' (fun e => every unmarked e → set_visible_iter flt e = e)).
  intros t a tx cs l IH Hr. apply every_unfold in Hr as [Hr1 Hr2].
  cbn [children] in Hr2.
  assert (Hd : tag_matches flt t && negb l && negb (is_visible (Element t a tx cs l)) = false).
  { destruct l; [now rewrite andb_false_r|].
    rewrite (unmarked_shown _ Hr1 eq_refl). now rewrite andb_false_r. }
  assert (Hcs : children (set_visible_iter flt (Element t a tx cs l)) = cs).
  { rewrite set_visible_iter_children. cbn [tag children visibility_locked].
    rewrite Hd, visible_walk_keep. rewrite <- (map_id cs) at 2.
    apply map_ext_in. intros x Hx. rewrite Forall_forall in IH, Hr2.
    apply IH; [|apply Hr2]; now apply list_elem_of_In. }
  cbn [set_visible_iter]. cbn [set_visible_iter children] in Hcs. now rewrite Hcs.
Qed.

Lemma erase_children_keep l (cs : list MElement) :
  (l = false → filter (fun c => has_tag "visible" c = true) cs = []) →
  erase_children l cs = map erase cs.
Proof.
  induction cs as [|c cs IH]; intros H; [reflexivity|].
  rewrite erase_children_cons. cbn [map].
  destruct l; cbn [negb andb app]; [now rewrite IH|].
  specialize (H eq_refl). rewrite filter_cons in H.
  destruct (decide (has_tag "visible" c = true)) as [|Hn]; [discriminate|].
  apply not_true_is_false in Hn. rewrite Hn. cbn [app]. f_equal. apply IH. auto.
Qed.

Lemma revealed_erase : ∀ e, revealed e → erase e = e.
Proof.
  unfold revealed. apply (MElement_ind' (fun e => every unmarked e → erase e = e)).
  intros t a tx cs l IH Hr. apply every_unfold in Hr as [Hr1 Hr2].
  cbn [children] in Hr2. rewrite erase_unfold.
  cbn [tag attrib text children visibility_locked]. f_equal.
  rewrite erase_children_keep by (intros ->; apply (Hr1 eq_refl)).
  rewrite <- (map_id cs) at 2. apply map_ext_in. intros x Hx.
  rewrite Forall_forall in IH, Hr2. apply IH; [|apply Hr2]; now apply list_elem_of_In.
Qed.

Lemma revealed_erase_eq a b : revealed a → revealed b → erase a = erase b → a = b.
Proof. intros Ha Hb H. now rewrite <- (revealed_erase a Ha), <- (revealed_erase b Hb). Qed.

(** [set_visible_all] on a tree with at most one marker per node, each
    saying ["0"], leaves no marker on an unlocked node, so every unlocked node
    of the result is visible; a second call changes nothing. *)
Theorem set_visible_all_reveals (e : MElement) :
  every clean e →
  revealed (set_visible_all e)
  ∧ every shown (set_visible_all e)
  ∧ set_visible_all (set_visible_all e) = set_visible_all e.
Proof.
  intros Hc. pose proof (revealed_set_visible_all e Hc) as Hr.
  split; [exact Hr|]. split; [|apply (revealed_fixed None), Hr].
  apply (every_impl unmarked shown unmarked_shown), Hr.
Qed.

Lemma set_visible_all_reveals_witness :
  is_visible <$> (children (sample_chord "half") !! 1%nat) = Some false
  ∧ every shown (set_visible_all (sample_chord "half")).
Proof.
  split; [reflexivity|].
  apply (set_visible_all_reveals (sample_chord "half")).
  vm_compute. tauto.
Defined.

(** ** The last frame *)

Lemma retouched_refl e : retouched e e.
Proof. unfold retouched. auto. Qed.

Lemma retouched_trans a b c : retouched a b → retouched b c → retouched a c.
Proof.
  unfold retouched. intros (H1 & H2 & H3 & H4) (G1 & G2 & G3 & G4).
  split; [congruence|]. split; [congruence|]. split; [congruence|auto].
Qed.

Lemma retouched_children e cs' :
  Forall2 retouched (children e) cs' → retouched e (with_children e cs').
Proof.
  intros H. split.
  - apply erase_with_children. eapply Forall2_impl; [exact H|]. unfold retouched. tauto.
  - apply keeps_clean_children. eapply Forall2_impl; [exact H|]. unfold retouched. tauto.
Qed.

Lemma retouched_set_visible e : retouched e (set_visible e).
Proof. split; [apply erase_set_visible|apply keeps_clean_set_visible]. Qed.

Lemma retouched_set_visible_iter flt e : retouched e (set_visible_iter flt e).
Proof. split; [apply erase_set_visible_iter|apply keeps_clean_set_visible_iter]. Qed.

Lemma retouched_set_invisible_iter tg e : retouched e (set_invisible_iter tg e).
Proof. split; [apply erase_set_invisible_iter|apply keeps_clean_set_invisible_iter]. Qed.

Lemma column_cons j (st : list MElement) (t : tree) :
  column j (st :: t) = match st !! j with Some m => [m] | None => [] end ++ column j t.
Proof. reflexivity. Qed.

Lemma column_Forall2 (R : MElement → MElement → Prop) j (t t' : tree) :
  Forall2 (Forall2 R) t t' → Forall2 R (column j t) (column j t').
Proof.
  induction 1 as [|st st' t t' Hst _ IH]; [constructor|].
  rewrite !column_cons. apply Forall2_app; [|exact IH].
  destruct (st !! j) as [m|] eqn:Em.
  - destruct (Forall2_lookup_l _ _ _ _ _ Hst Em) as (m' & -> & Hm). now constructor.
  - apply lookup_ge_None in Em. rewrite (Forall2_length _ _ _ Hst) in Em.
    apply lookup_ge_None in Em. rewrite Em. constructor.
Qed.

Lemma column_length i (t : tree) :
  Forall (fun st => (i < List.length st)%nat) t → List.length (column i t) = List.length t.
Proof.
  induction 1 as [|st t H _ IH]; [reflexivity|]. rewrite column_cons.
  destruct (lookup_lt_is_Some_2 st i H) as [m ->]. cbn. now rewrite IH.
Qed.

Lemma column_set_column_same i (t : tree) : ∀ ms,
  Forall (fun st => (i < List.length st)%nat) t → List.length ms = List.length t →
  column i (set_column i ms t) = ms.
Proof.
  induction t as [|st t IH]; intros ms Hl Hn.
  - destruct ms; [reflexivity|discriminate].
  - destruct ms as [|m ms]; [discriminate|]. cbn [set_column]. rewrite column_cons.
    apply Forall_cons in Hl as [H1 H2].
    rewrite list_lookup_insert_eq by exact H1. cbn [app]. f_equal.
    apply IH; [exact H2|]. cbn in Hn. lia.
Qed.

Lemma column_reset i (t : tree) :
  Forall (fun st => (i < List.length st)%nat) t →
  column i (reset_measures i t) = map set_visible_all (column i t).
Proof.
  intros Hl. unfold reset_measures. apply column_set_column_same; [exact Hl|].
  now rewrite length_map, column_length.
Qed.

Lemma reveal_lookup n (st : list MElement) j :
  (map set_visible_all (take n st) ++ drop n st) !! j
  = if (j <? n)%nat then set_visible_all <$> st !! j else st !! j.
Proof.
  destruct (Nat.ltb_spec j n) as [Hj|Hj].
  - destruct (decide (j < List.length st)%nat) as [Hs|Hs].
    + rewrite lookup_app_l by (rewrite length_map, length_take; lia).
      change (map set_visible_all (take n st)) with (set_visible_all <$> take n st).
      rewrite list_lookup_fmap, lookup_take_lt by lia. reflexivity.
    + rewrite (proj2 (lookup_ge_None st j)) by lia.
      apply lookup_ge_None. rewrite length_app, length_map, length_take, length_drop. lia.
  - rewrite lookup_app_r by (rewrite length_map, length_take; lia).
    rewrite length_map, length_take, lookup_drop.
    destruct (decide (n <= List.length st)%nat); [f_equal; lia|].
    rewrite !(proj2 (lookup_ge_None st _)) by lia. reflexivity.
Qed.

Lemma column_map_staves (f : list MElement → list MElement) (g : MElement → MElement) j
      (t : tree) :
  (∀ st, f st !! j = g <$> st !! j) →
  column j (map f t) = map g (column j t).
Proof.
  intros Hf. induction t as [|st t IH]; [reflexivity|].
  cbn [map]. rewrite !column_cons, map_app, IH, Hf.
  now destruct (st !! j).
Qed.

Lemma column_reveal j (t : tree) :
  column j (reveal t)
  = if (j <? ncols t)%nat then map set_visible_all (column j t) else column j t.
Proof.
  unfold reveal. destruct (j <? ncols t)%nat eqn:E.
  - apply column_map_staves. intros st. now rewrite reveal_lookup, E.
  - rewrite <- (map_id (column j t)). apply column_map_staves.
    intros st. rewrite reveal_lookup, E. now destruct (st !! j).
Qed.

Lemma grid_ext (t1 t2 : tree) :
  map (@List.length MElement) t1 = map (@List.length MElement) t2 →
  (∀ j, column j t1 = column j t2) → t1 = t2.
Proof.
  revert t2. induction t1 as [|s1 t1 IH]; intros [|s2 t2]; cbn [map]; try discriminate;
    [reflexivity|].
  intros [= Hs Ht] Hc.
  assert (H : ∀ j, s1 !! j = s2 !! j ∧ column j t1 = column j t2).
  { intros j. specialize (Hc j). rewrite !column_cons in Hc.
    destruct (s1 !! j) as [m1|] eqn:E1, (s2 !! j) as [m2|] eqn:E2; cbn [app] in Hc.
    - now injection Hc as -> ->.
    - apply lookup_lt_Some in E1. apply lookup_ge_None in E2. lia.
    - apply lookup_lt_Some in E2. apply lookup_ge_None in E1. lia.
    - auto. }
  f_equal.
  - apply list_eq. intros j. apply H.
  - apply IH; [exact Ht|]. intros j. apply H.
Qed.

Lemma grid_lengths (R : MElement → MElement → Prop) (t t' : tree) :
  Forall2 (Forall2 R) t t' →
  map (@List.length MElement) t' = map (@List.length MElement) t.
Proof.
  induction 1 as [|st st' t t' H _ IH]; [reflexivity|]. cbn [map].
  now rewrite IH, (Forall2_length _ _ _ H).
Qed.

Lemma reveal_lengths (t : tree) :
  map (@List.length MElement) (reveal t) = map (@List.length MElement) t.
Proof.
  unfold reveal. generalize (ncols t) as n. intros n.
  induction t as [|st t IH]; [reflexivity|]. cbn [map]. rewrite IH. f_equal.
  rewrite length_app, length_map, length_take, length_drop. lia.
Qed.

Lemma grid_clean_retouched (t t' : tree) :
  Forall2 (Forall2 retouched) t t' →
  Forall (Forall (every clean)) t → Forall (Forall (every clean)) t'.
Proof.
  induction 1 as [|st st' t t' H _ IH]; intros Hc; [constructor|].
  apply Forall_cons in Hc as [Hc1 Hc2]. constructor; [|auto].
  clear IH Hc2. induction H as [|m m' st st' Hm _ IH]; [constructor|].
  apply Forall_cons in Hc1 as [H1 H2]. constructor; [|auto]. now apply Hm.
Qed.

Lemma column_clean j (t : tree) :
  Forall (Forall (every clean)) t → Forall (every clean) (column j t).
Proof.
  induction 1 as [|st t H _ IH]; [constructor|]. rewrite column_cons.
  apply Forall_app. split; [|exact IH].
  destruct (st !! j) as [m|] eqn:E; [|constructor].
  constructor; [|constructor]. exact (proj1 (Forall_forall _ _) H m (list_elem_of_lookup_2 _ _ _ E)).
Qed.

Section LastFrame.

Variable py_eval : string → result num.
Variable self : Amusing.
Variable max_tremolo : Note.

(** After the passes over the indices from [i] on, the measures of these
    indices are revealed and the others are as they were. *)
Lemma sequence_from_reveals n : ∀ i s s',
  s_newpage s = false →
  (∀ k, (i <= k < i + n)%nat → Forall (fun st => (k < List.length st)%nat) (s_tree s)) →
  Forall (Forall (every clean)) (s_tree s) →
  ended (sequence_from py_eval self max_tremolo n i s) = Ok s' →
  Forall2 (Forall2 retouched) (s_tree s) (s_tree s')
  ∧ (∀ j, (i <= j < i + n)%nat → Forall revealed (column j (s_tree s')))
  ∧ (∀ j, ¬ (i <= j < i + n)%nat → column j (s_tree s') = column j (s_tree s)).
Proof.
  induction n as [|n IH]; intros i s s' Hnp Hl Hc; cbn [sequence_from].
  - intros [= <-]. split; [|split].
    + apply (grid_R_refl retouched retouched_refl).
    + intros j Hj. lia.
    + reflexivity.
  - intros H. apply gen_bind_ok in H as (s1 & H1 & H2 & _).
    pose proof (Hl i ltac:(lia)) as Hli.
    destruct (R_sequence_measure_reset retouched retouched_refl retouched_trans
                retouched_children retouched_set_visible retouched_set_visible_iter
                retouched_set_invisible_iter py_eval self max_tremolo i s s1 Hli H1)
      as (ta & Hta & Hs1).
    destruct (R_sequence_measure retouched retouched_refl retouched_trans
                retouched_children retouched_set_visible retouched_set_visible_iter
                retouched_set_invisible_iter py_eval self max_tremolo i s s1 Hli H1)
      as [Hr1 _].
    destruct (sequence_measure_pages py_eval self max_tremolo i s s1 Hnp H1)
      as (newpage & k & _ & _ & _ & Hnp1 & Hcol1 & _).
    assert (Hl1 : ∀ k, (S i <= k < S i + n)%nat →
                       Forall (fun st => (k < List.length st)%nat) (s_tree s1)).
    { intros k' Hk. eapply (grid_R_lengths retouched); [exact Hr1|]. apply Hl. lia. }
    pose proof (grid_clean_retouched _ _ Hr1 Hc) as Hc1.
    destruct (IH _ _ _ Hnp1 Hl1 Hc1 H2) as (Hr2 & Hrev & Hsame).
    split; [|split].
    + eapply (grid_R_trans retouched retouched_trans); eassumption.
    + intros j Hj. destruct (decide (j = i)) as [->|Hne]; [|apply Hrev; lia].
      rewrite Hsame by lia. rewrite Hs1.
      rewrite column_reset by (eapply (grid_R_lengths retouched); eassumption).
      pose proof (column_clean i ta (grid_clean_retouched _ _ Hta Hc)) as Hca.
      change (map set_visible_all (column i ta)) with (set_visible_all <$> column i ta).
      apply Forall_fmap. eapply Forall_impl; [exact Hca|].
      intros m Hm. now apply revealed_set_visible_all.
    + intros j Hj. rewrite Hsame by lia. apply Hcol1. lia.
Qed.

Lemma get_trees_last (t t' : tree) :
  ended (_get_trees py_eval self max_tremolo t) = Ok t' →
  ∃ s, ended (sequence_from py_eval self max_tremolo (ncols t) 0
                {| s_tree := t; s_page := 1; s_newpage := false |}) = Ok s
       ∧ map_result close_staff (s_tree s) = Ok t'
       ∧ last (yielded (_get_trees py_eval self max_tremolo t)) = Some (s_page s, t').
Proof.
  unfold _get_trees. intros H.
  apply gen_bind_ok in H as ([] & _ & H & ->).
  apply gen_bind_ok in H as (s & Hs & H & ->).
  apply gen_bind_ok in H as (t1 & Ht1 & H & ->). apply lift_ok in Ht1.
  apply gen_bind_ok in H as ([] & _ & H & ->). injection H as <-.
  exists s. split; [exact Hs|]. split; [exact Ht1|].
  change (yielded (lift (map_result close_staff (s_tree s)))) with (@nil (Z * tree)).
  change (yielded (mret t1) : list (Z * tree)) with (@nil (Z * tree)).
  change (yielded (yield (s_page s) t1)) with [(s_page s, t1)].
  rewrite app_nil_r, app_nil_l, app_assoc. apply last_snoc.
Qed.

End LastFrame.

(** Whatever the jobs, a run that completes on a document whose nodes carry
    at most one marker each, saying ["0"], ends on the same last frame: the
    measures made visible by [set_visible_all], with the end barline put in.
    That frame is also the tree that the run leaves behind. *)
Theorem last_frame_is_the_revealed_score
    (py_eval : string → result num) (self : Amusing) (max_tremolo : Note) (t t' : tree) :
  Forall (Forall (every clean)) t →
  ended (_get_trees py_eval self max_tremolo t) = Ok t' →
  map_result close_staff (reveal t) = Ok t'
  ∧ snd <$> last (yielded (_get_trees py_eval self max_tremolo t)) = Some t'.
Proof.
  intros Hc H.
  destruct (get_trees_last py_eval self max_tremolo t t' H) as (s & Hs & Hclose & Hlast).
  split; [|now rewrite Hlast].
  assert (Hl : ∀ k, (0 <= k < 0 + ncols t)%nat →
                    Forall (fun st => (k < List.length st)%nat)
                      (s_tree {| s_tree := t; s_page := 1; s_newpage := false |})).
  { intros k Hk. apply ncols_lt. cbn [s_tree]. lia. }
  destruct (sequence_from_reveals py_eval self max_tremolo (ncols t) 0
              {| s_tree := t; s_page := 1; s_newpage := false |} s eq_refl Hl Hc Hs)
    as (Hr & Hrev & Hsame). cbn [s_tree] in Hr, Hsame.
  replace (reveal t) with (s_tree s); [exact Hclose|].
  apply grid_ext.
  - now rewrite (grid_lengths _ _ _ Hr), reveal_lengths.
  - intros j. rewrite column_reveal. destruct (Nat.ltb_spec j (ncols t)) as [Hj|Hj].
    + specialize (Hrev j ltac:(lia)).
      pose proof (column_Forall2 retouched j _ _ Hr) as Hcol.
      pose proof (column_clean j t Hc) as Hcj.
      revert Hrev Hcj. induction Hcol as [|m m' ms ms' Hm _ IH]; intros Hrev Hcj; [reflexivity|].
      apply Forall_cons in Hrev as [Hv1 Hv2]. apply Forall_cons in Hcj as [Hc1 Hc2].
      cbn [map]. f_equal; [|auto].
      apply revealed_erase_eq; [exact Hv1|now apply revealed_set_visible_all|].
      destruct Hm as [-> _]. symmetry. apply erase_set_visible_iter.
    + apply Hsame. lia.
Qed.

Lemma last_frame_is_the_revealed_score_witness :
  snd <$> last (yielded (_get_trees no_eval quarter_steps thirty_second two_pages))
  = snd <$> last (yielded (_get_trees no_eval plain_run thirty_second two_pages)).
Proof.
  assert (Hc : Forall (Forall (every clean)) two_pages).
  { repeat constructor; vm_compute; tauto. }
  set (g1 := _get_trees no_eval quarter_steps thirty_second two_pages).
  set (g2 := _get_trees no_eval plain_run thirty_second two_pages).
  set (t1 := match ended g1 with Ok t => t | Raise _ => two_pages end).
  set (t2 := match ended g2 with Ok t => t | Raise _ => two_pages end).
  assert (H1 : ended g1 = Ok t1) by (vm_compute; reflexivity).
  assert (H2 : ended g2 = Ok t2) by (vm_compute; reflexivity).
  destruct (last_frame_is_the_revealed_score _ _ _ _ _ Hc H1) as [E1 L1].
  destruct (last_frame_is_the_revealed_score _ _ _ _ _ Hc H2) as [E2 L2].
  unfold g1, g2 in *. rewrite L1, L2. congruence.
Defined.

(** ** Jobs *)

Lemma update_jobs_lookup (ms : list Z) sub : ∀ (j : gmap Z Note) i,
  update_jobs j ms sub !! i
  = if bool_decide (i + first_measure_num ∈ ms) then Some sub else j !! i.
Proof.
  unfold update_jobs. induction ms as [|m ms IH]; intros j i; cbn [foldl].
  - now rewrite bool_decide_eq_false_2 by (apply not_elem_of_nil).
  - rewrite IH. destruct (decide (i + first_measure_num ∈ ms)) as [Hin|Hin].
    + rewrite !bool_decide_eq_true_2; [reflexivity|apply elem_of_cons; now right|exact Hin].
    + rewrite (bool_decide_eq_false_2 _ Hin).
      destruct (decide (m = i + first_measure_num)) as [->|Hne].
      * rewrite bool_decide_eq_true_2 by (apply elem_of_cons; now left).
        replace (i + first_measure_num - first_measure_num) with i by lia.
        apply lookup_insert_eq.
      * rewrite bool_decide_eq_false_2
          by (intros [?|?]%elem_of_cons; congruence).
        apply lookup_insert_ne. lia.
Qed.

Lemma In_py_range_iff n x : In x (py_range n) ↔ 0 <= x < n.
Proof.
  unfold py_range. rewrite in_map_iff. split.
  - intros (k & <- & Hk). apply in_seq in Hk. lia.
  - intros Hx. exists (Z.to_nat x). split; [lia|]. apply in_seq. lia.
Qed.

Lemma In_py_range3_unit start stop x : In x (py_range3 start stop 1) ↔ start <= x < stop.
Proof.
  unfold py_range3. cbn [Z.ltb Z.compare]. rewrite in_map_iff. split.
  - intros (k & <- & Hk). apply In_py_range_iff in Hk.
    replace (stop - start + 1 - 1) with (stop - start) in Hk by lia.
    rewrite Z.div_1_r in Hk. lia.
  - intros Hx. exists (x - start). split; [lia|]. apply In_py_range_iff.
    replace (stop - start + 1 - 1) with (stop - start) by lia. rewrite Z.div_1_r. lia.
Qed.

Lemma foldl_insert_lookup (ks : list Z) sub : ∀ (j : gmap Z Note) i,
  foldl (fun j k => <[k := sub]> j) j ks !! i
  = if bool_decide (i ∈ ks) then Some sub else j !! i.
Proof.
  induction ks as [|k ks IH]; intros j i; cbn [foldl].
  - now rewrite bool_decide_eq_false_2 by (apply not_elem_of_nil).
  - rewrite IH. destruct (decide (i ∈ ks)) as [Hin|Hin].
    + rewrite !bool_decide_eq_true_2; [reflexivity|apply elem_of_cons; now right|exact Hin].
    + rewrite (bool_decide_eq_false_2 _ Hin).
      destruct (decide (k = i)) as [->|Hne].
      * rewrite bool_decide_eq_true_2 by (apply elem_of_cons; now left). apply lookup_insert_eq.
      * rewrite bool_decide_eq_false_2
          by (intros [?|?]%elem_of_cons; congruence).
        now apply lookup_insert_ne.
Qed.

(** [add_job] with a range that stops at -1 makes a job of every measure
    from the start of the range to the last measure of the score, whatever
    the step of the range, and leaves the other jobs alone; from measure 1 on
    it does what [add_job_all_measures] does. *)
Theorem add_job_to_the_end (self : Amusing) (n start step : Z) (subdivision : Note) :
  (∃ self',
     add_job self (Some n) (MeasureRange start (-1) step) subdivision = Ok self'
     ∧ first_emtpy_frame self' = first_emtpy_frame self
     ∧ _timesigs self' = _timesigs self
     ∧ ∀ i, jobs self' !! i
            = if bool_decide (start - 1 <= i < n) then Some subdivision else jobs self !! i)
  ∧ add_job self (Some n) (MeasureRange 1 (-1) step) subdivision
    = add_job_all_measures self (Some n) subdivision.
Proof.
  split.
  - eexists. split; [reflexivity|]. split; [reflexivity|]. split; [reflexivity|].
    intros i. cbn [jobs with_jobs]. rewrite update_jobs_lookup.
    erewrite bool_decide_ext; [reflexivity|].
    rewrite list_elem_of_In, In_py_range3_unit. unfold first_measure_num. lia.
  - cbn [add_job add_job_all_measures Z.eqb]. do 2 f_equal. unfold with_jobs. f_equal.
    apply map_eq. intros i. rewrite update_jobs_lookup, foldl_insert_lookup.
    erewrite bool_decide_ext; [reflexivity|].
    rewrite !list_elem_of_In, In_py_range3_unit, In_py_range_iff.
    unfold first_measure_num. lia.
Qed.

Lemma gen_bind_ext {A B} (g : gen A) (k k' : A → gen B) :
  (∀ a, ended g = Ok a → k a = k' a) → g ≫= k = g ≫= k'.
Proof.
  intros H. unfold mbind, gen_bind. destruct (ended g) as [a|e]; [|reflexivity].
  now rewrite (H a eq_refl).
Qed.

Section JobsInRange.

Variable py_eval : string → result num.
Variables (self self' : Amusing).
Variable max_tremolo : Note.
Hypothesis same_timesigs : _timesigs self' = _timesigs self.

Lemma sequence_measure_same_job i s :
  jobs self' !! Z.of_nat i = jobs self !! Z.of_nat i →
  sequence_measure py_eval self' max_tremolo i s
  = sequence_measure py_eval self max_tremolo i s.
Proof.
  intros H. unfold sequence_measure, timesig_at. now rewrite H, same_timesigs.
Qed.

Lemma sequence_from_same_jobs n : ∀ i s,
  (∀ k, (i <= k < i + n)%nat → jobs self' !! Z.of_nat k = jobs self !! Z.of_nat k) →
  sequence_from py_eval self' max_tremolo n i s
  = sequence_from py_eval self max_tremolo n i s.
Proof.
  induction n as [|n IH]; intros i s H; [reflexivity|]. cbn [sequence_from].
  rewrite (sequence_measure_same_job i s) by (apply H; lia).
  apply gen_bind_ext. intros s1 _. apply IH. intros k Hk. apply H. lia.
Qed.

End JobsInRange.

(** Only the jobs of the measure indices that the score has count: two
    configurations that agree on them (and on the time signatures and on the
    first empty frame) give the same frames.  A job for a measure number
    below 1 or beyond the last measure is ignored without a word. *)
Theorem jobs_beyond_the_score_are_ignored
    (py_eval : string → result num) (self self' : Amusing) (max_tremolo : Note) (t : tree) :
  first_emtpy_frame self' = first_emtpy_frame self →
  _timesigs self' = _timesigs self →
  (∀ i, (i < ncols t)%nat → jobs self' !! Z.of_nat i = jobs self !! Z.of_nat i) →
  _get_trees py_eval self' max_tremolo t = _get_trees py_eval self max_tremolo t.
Proof.
  intros Hf Ht Hj. unfold _get_trees. rewrite Hf.
  rewrite (sequence_from_same_jobs py_eval self self' max_tremolo Ht (ncols t) 0)
    by (intros k Hk; apply Hj; lia).
  reflexivity.
Qed.

Lemma jobs_beyond_the_score_are_ignored_witness :
  ∃ self',
    add_job plain_run (Some 2) (MeasureSeq [0; 3; 7]) quarter = Ok self'
    ∧ jobs self' !! 2 = Some quarter
    ∧ _get_trees no_eval self' thirty_second two_pages
      = _get_trees no_eval plain_run thirty_second two_pages.
Proof.
  eexists. split; [reflexivity|]. split; [reflexivity|].
  apply jobs_beyond_the_score_are_ignored; [reflexivity|reflexivity|].
  intros i Hi. change (ncols two_pages) with 2%nat in Hi.
  destruct i as [|[|i]]; [reflexivity|reflexivity|lia].
Defined.

(** ** How many frames *)

Section FrameCount.

Variable py_eval : string → result num.
Variable self : Amusing.
Variable max_tremolo : Note.

Lemma sequence_measure_count i s s' :
  s_newpage s = false →
  ended (sequence_measure py_eval self max_tremolo i s) = Ok s' →
  ∃ newpage,
    detect_page_break (column i (s_tree s)) false = Ok newpage
    ∧ Z.of_nat (List.length (yielded (sequence_measure py_eval self max_tremolo i s)))
      = cutoff_count self i + (if newpage then 1 else 0).
Proof.
  intros Hnp H.
  destruct (sequence_measure_pages py_eval self max_tremolo i s s' Hnp H)
    as (newpage & k & Hd & Hp & _ & _ & _ & Hk).
  exists newpage. split; [exact Hd|].
  apply (f_equal (@List.length Z)) in Hp.
  rewrite length_map, length_app, length_replicate in Hp. rewrite Hp.
  assert (Hjob : Z.of_nat k = cutoff_count self i).
  { unfold cutoff_count. destruct (jobs self !! Z.of_nat i) as [subdivision|]; [|lia].
    destruct Hk as (time_sig & cutoffs & Ht & Hc & ->). rewrite Ht. cbn [mbind result_bind].
    destruct (job_cutoffs_spec _ _ _ Hc) as (f & q & n & _ & Hq & Hr & Hn & Hl & _).
    rewrite Hq. cbn [mbind result_bind]. rewrite Hr, Hl. lia. }
  rewrite <- Hjob. destruct newpage; cbn [List.length]; lia.
Qed.

Lemma sequence_from_count (t : tree) n : ∀ i s s',
  s_newpage s = false →
  (∀ j, (i <= j)%nat → column j (s_tree s) = column j t) →
  ended (sequence_from py_eval self max_tremolo n i s) = Ok s' →
  Z.of_nat (List.length (yielded (sequence_from py_eval self max_tremolo n i s)))
  = sumZ (map (cutoff_count self) (seq i n))
    + (page_breaks_upto t (i + n) - page_breaks_upto t i).
Proof.
  induction n as [|n IH]; intros i s s' Hnp Hcol; cbn [sequence_from].
  - intros _. rewrite Nat.add_0_r. cbn. lia.
  - intros H. apply gen_bind_ok in H as (s1 & H1 & H2 & ->).
    destruct (sequence_measure_count i s s1 Hnp H1) as (newpage & Hd & Hlen).
    destruct (sequence_measure_pages py_eval self max_tremolo i s s1 Hnp H1)
      as (np' & k & _ & _ & _ & Hnp1 & Hcol1 & _).
    assert (Hcol' : ∀ j, (S i <= j)%nat → column j (s_tree s1) = column j t).
    { intros j Hj. rewrite Hcol1 by lia. apply Hcol. lia. }
    rewrite length_app, Nat2Z.inj_add, Hlen, (IH (S i) s1 s' Hnp1 Hcol' H2).
    rewrite (Hcol i) in Hd by lia.
    replace (i + S n)%nat with (S i + n)%nat by lia.
    cbn [seq map sumZ fold_right]. fold (sumZ (map (cutoff_count self) (seq (S i) n))).
    cbn [page_breaks_upto]. rewrite Hd. destruct newpage; lia.
Qed.

End FrameCount.

(** A run that completes yields the first empty frame if it is asked for,
    [round(time_sig / subdivision.value)] frames for every measure index with
    a job, one frame for every measure index with a page break, and the last
    frame. *)
Theorem frame_total
    (py_eval : string → result num) (self : Amusing) (max_tremolo : Note) (t t' : tree) :
  ended (_get_trees py_eval self max_tremolo t) = Ok t' →
  Z.of_nat (List.length (yielded (_get_trees py_eval self max_tremolo t)))
  = expected_frames self t.
Proof.
  unfold _get_trees, expected_frames. intros H.
  apply gen_bind_ok in H as ([] & _ & H & ->).
  apply gen_bind_ok in H as (s & Hs & H & ->).
  apply gen_bind_ok in H as (t1 & Ht1 & H & ->).
  apply gen_bind_ok in H as ([] & _ & H & ->).
  rewrite !length_app, !Nat2Z.inj_add.
  rewrite (sequence_from_count py_eval self max_tremolo t (ncols t) 0
             {| s_tree := t; s_page := 1; s_newpage := false |} s eq_refl
             ltac:(reflexivity) Hs).
  cbn [page_breaks_upto Nat.add]. destruct (first_emtpy_frame self); cbn; lia.
Qed.

Lemma frame_total_witness :
  List.length (yielded (_get_trees no_eval quarter_steps thirty_second two_pages)) = 7%nat
  ∧ expected_frames quarter_steps two_pages = 7.
Proof.
  set (g := _get_trees no_eval quarter_steps thirty_second two_pages).
  set (t1 := match ended g with Ok t => t | Raise _ => two_pages end).
  assert (H : ended g = Ok t1) by (vm_compute; reflexivity).
  pose proof (frame_total _ _ _ _ _ H) as Hn.
  assert (He : expected_frames quarter_steps two_pages = 7) by (vm_compute; reflexivity).
  split; [|exact He]. fold g in Hn. lia.
Defined.

(** ** New elements and implied children *)

Lemma tag_set_invisible e : tag (set_invisible e) = tag e.
Proof. unfold set_invisible. destruct (is_protected e), (is_visible e); reflexivity. Qed.

Lemma tag_new_element tg txt v : tag (new_element tg txt v) = tg.
Proof. unfold new_element. destruct v; [reflexivity|]. now rewrite tag_set_invisible. Qed.

Lemma find_app_tag tg (cs : list MElement) c :
  List.find (has_tag tg) (cs ++ [c])
  = match List.find (has_tag tg) cs with
    | Some x => Some x
    | None => if has_tag tg c then Some c else None
    end.
Proof.
  induction cs as [|x cs IH]; cbn [app List.find]; [reflexivity|].
  destruct (has_tag tg x); [reflexivity|exact IH].
Qed.

(** [append_new] puts the new element last, so the older children keep
    their places and [find] still returns an older child with the tag if
    there is one.  The new element has the tag and the text asked for; it is
    visible if that was asked for, and also when it is a ["Measure"], which is
    born locked. *)
Theorem append_new_lookup (self : MElement) (tg : string) (txt : option string) (v : bool) :
  children (append_new self tg txt v) = children self ++ [new_element tg txt v]
  ∧ contains tg (append_new self tg txt v) = true
  ∧ find tg (append_new self tg txt v)
    = match find tg self with
      | Some c => Some c
      | None => Some (new_element tg txt v)
      end
  ∧ (∀ tg', tg' ≠ tg → find tg' (append_new self tg txt v) = find tg' self)
  ∧ tag (new_element tg txt v) = tg
  ∧ text (new_element tg txt v) = txt
  ∧ is_visible (new_element tg txt v) = v || String.eqb tg "Measure".
Proof.
  assert (Hf : find tg (append_new self tg txt v)
               = match find tg self with
                 | Some c => Some c
                 | None => Some (new_element tg txt v)
                 end).
  { unfold find, append_new, append, with_children. cbn [children].
    rewrite find_app_tag. unfold has_tag at 2. rewrite tag_new_element, String.eqb_refl.
    reflexivity. }
  split; [reflexivity|]. split; [|split; [exact Hf|split; [|split; [|split]]]].
  - unfold contains. rewrite Hf. now destruct (find tg self).
  - intros tg' Hne. unfold find, append_new, append, with_children. cbn [children].
    rewrite find_app_tag. unfold has_tag at 2. rewrite tag_new_element.
    apply String.eqb_neq in Hne. rewrite String.eqb_sym in Hne. rewrite Hne.
    now destruct (List.find _ _).
  - apply tag_new_element.
  - unfold new_element, set_invisible, is_protected. cbn.
    destruct v, (String.eqb tg "Measure"); reflexivity.
  - unfold new_element, set_invisible, is_protected. cbn.
    destruct v, (String.eqb tg "Measure"); reflexivity.
Qed.

Lemma contains_append tg e c : contains tg (append e c) = contains tg e || has_tag tg c.
Proof.
  unfold contains, find, append, with_children. cbn [children]. rewrite find_app_tag.
  destruct (List.find (has_tag tg) (children e)); [reflexivity|].
  now destruct (has_tag tg c).
Qed.

Lemma contains_add_missing tg' e tg :
  contains tg' (add_missing e tg) = contains tg' e || String.eqb tg tg'.
Proof.
  unfold add_missing. destruct (contains tg e) eqn:E.
  - destruct (String.eqb tg tg') eqn:Et; [|now rewrite orb_false_r].
    apply String.eqb_eq in Et. subst tg'. now rewrite E.
  - unfold append_new. rewrite contains_append. unfold has_tag.
    now rewrite tag_new_element.
Qed.

Lemma tag_add_missing e tg : tag (add_missing e tg) = tag e.
Proof. unfold add_missing. now destruct (contains tg e). Qed.

Lemma add_missing_children e tg :
  ∃ new, children (add_missing e tg) = children e ++ new
         ∧ Forall (fun c => c = new_element tg None true) new.
Proof.
  unfold add_missing. destruct (contains tg e).
  - exists []. split; [now rewrite app_nil_r|constructor].
  - exists [new_element tg None true]. split; [reflexivity|]. repeat constructor.
Qed.

Lemma add_missing_id e tg : contains tg e = true → add_missing e tg = e.
Proof. unfold add_missing. now intros ->. Qed.

Lemma foldl_add_missing_contains tg' (l : list string) : ∀ e,
  contains tg' (foldl add_missing e l) = contains tg' e || str_in tg' l.
Proof.
  induction l as [|tg l IH]; intros e; cbn [foldl]; [now rewrite orb_false_r|].
  rewrite IH, contains_add_missing. unfold str_in. cbn [existsb].
  rewrite (String.eqb_sym tg' tg). now rewrite orb_assoc.
Qed.

Lemma foldl_add_missing_shape (l : list string) : ∀ e,
  tag (foldl add_missing e l) = tag e
  ∧ text (foldl add_missing e l) = text e
  ∧ attrib (foldl add_missing e l) = attrib e
  ∧ is_protected (foldl add_missing e l) = is_protected e
  ∧ ∃ new, children (foldl add_missing e l) = children e ++ new
           ∧ Forall (fun c => ∃ tg, In tg l ∧ c = new_element tg None true) new.
Proof.
  induction l as [|tg l IH]; intros e; cbn [foldl].
  - repeat (split; [reflexivity|]). exists []. split; [now rewrite app_nil_r|constructor].
  - destruct (IH (add_missing e tg)) as (H1 & H2 & H3 & H4 & new & H5 & H6).
    assert (Hs : tag (add_missing e tg) = tag e ∧ text (add_missing e tg) = text e
                 ∧ attrib (add_missing e tg) = attrib e
                 ∧ is_protected (add_missing e tg) = is_protected e).
    { unfold add_missing. now destruct (contains tg e). }
    destruct Hs as (G1 & G2 & G3 & G4).
    split; [congruence|]. split; [congruence|]. split; [congruence|]. split; [congruence|].
    destruct (add_missing_children e tg) as (new0 & Hn0 & Hf0).
    exists (new0 ++ new). split; [now rewrite H5, Hn0, app_assoc|].
    apply Forall_app. split.
    + eapply Forall_impl; [exact Hf0|]. intros c ->. exists tg. split; [now left|reflexivity].
    + eapply Forall_impl; [exact H6|]. intros c (tg0 & Hin & ->). exists tg0.
      split; [now right|reflexivity].
Qed.

Lemma foldl_add_missing_id (l : list string) : ∀ e,
  (∀ tg, In tg l → contains tg e = true) → foldl add_missing e l = e.
Proof.
  induction l as [|tg l IH]; intros e H; cbn [foldl]; [reflexivity|].
  rewrite add_missing_id by (apply H; now left). apply IH. intros tg0 Hin. apply H. now right.
Qed.

(** The children that the rules ask for. *)
Lemma add_implied_children_fold e :
  add_implied_children e
  = foldl add_missing e
      ((if has_tag "Chord" e then ["Stem"; "Beam"; "Hook"] else [])
       ++ (if has_tag "Tie" e then ["TieSegment"] else [])
       ++ (if contains "acciaccatura" e then ["StemSlash"] else [])).
Proof.
  unfold add_implied_children. rewrite !foldl_app.
  set (e1 := if has_tag "Chord" e then foldl add_missing e ["Stem"; "Beam"; "Hook"] else e).
  assert (H1 : e1 = foldl add_missing e (if has_tag "Chord" e then ["Stem"; "Beam"; "Hook"] else []))
    by (subst e1; now destruct (has_tag "Chord" e)).
  assert (Ht : has_tag "Tie" e1 = has_tag "Tie" e).
  { rewrite H1. unfold has_tag. now rewrite (proj1 (foldl_add_missing_shape _ e)). }
  rewrite Ht, <- H1.
  set (e2 := if has_tag "Tie" e then add_missing e1 "TieSegment" else e1).
  assert (H2 : e2 = foldl add_missing e1 (if has_tag "Tie" e then ["TieSegment"] else []))
    by (subst e2; now destruct (has_tag "Tie" e)).
  rewrite <- H2.
  assert (Ha : contains "acciaccatura" e2 = contains "acciaccatura" e).
  { rewrite H2, foldl_add_missing_contains, H1, foldl_add_missing_contains.
    destruct (has_tag "Chord" e), (has_tag "Tie" e); cbn; now rewrite ?orb_false_r. }
  rewrite Ha. destruct (contains "acciaccatura" e); cbn [andb foldl]; [|reflexivity].
  unfold add_missing. now destruct (contains "StemSlash" e2).
Qed.

(** [add_implied_children] only appends: the node keeps its tag, text,
    attributes, lock and children, and gains leaves with the tags ["Stem"],
    ["Beam"], ["Hook"], ["TieSegment"] or ["StemSlash"].  Afterwards a chord
    has a stem, a beam and a hook, a tie has a segment, and a node with an
    acciaccatura has a stem slash; a second call changes nothing. *)
Theorem add_implied_children_completes (e : MElement) :
  tag (add_implied_children e) = tag e
  ∧ text (add_implied_children e) = text e
  ∧ attrib (add_implied_children e) = attrib e
  ∧ is_protected (add_implied_children e) = is_protected e
  ∧ (∃ new, children (add_implied_children e) = children e ++ new ∧ Forall implied_leaf new)
  ∧ (if has_tag "Chord" e
     then contains "Stem" (add_implied_children e)
          && contains "Beam" (add_implied_children e)
          && contains "Hook" (add_implied_children e) = true
     else True)
  ∧ (if has_tag "Tie" e then contains "TieSegment" (add_implied_children e) = true else True)
  ∧ (if contains "acciaccatura" e
     then contains "StemSlash" (add_implied_children e) = true else True)
  ∧ add_implied_children (add_implied_children e) = add_implied_children e.
Proof.
  pose proof (add_implied_children_fold e) as Hf.
  set (l := (if has_tag "Chord" e then ["Stem"; "Beam"; "Hook"] else [])
            ++ (if has_tag "Tie" e then ["TieSegment"] else [])
            ++ (if contains "acciaccatura" e then ["StemSlash"] else [])) in Hf.
  destruct (foldl_add_missing_shape l e) as (H1 & H2 & H3 & H4 & new & H5 & H6).
  rewrite <- Hf in H1, H2, H3, H4, H5.
  split; [exact H1|]. split; [exact H2|]. split; [exact H3|]. split; [exact H4|].
  split; [|split; [|split; [|split]]].
  - exists new. split; [exact H5|]. eapply Forall_impl; [exact H6|].
    intros c (tg & Hin & ->). unfold implied_leaf.
    assert (Hs : str_in tg ["Stem"; "Beam"; "Hook"; "TieSegment"; "StemSlash"] = true).
    { subst l. destruct (has_tag "Chord" e), (has_tag "Tie" e), (contains "acciaccatura" e);
        cbn in Hin; intuition (subst; reflexivity). }
    rewrite tag_new_element. split; [reflexivity|]. split; [reflexivity|].
    split; [reflexivity|]. split; [|exact Hs].
    unfold new_element, is_protected. cbn [visibility_locked].
    apply String.eqb_neq. intros ->. discriminate Hs.
  - rewrite Hf, !foldl_add_missing_contains. subst l.
    destruct (has_tag "Chord" e); [|exact I]. cbn. now rewrite !orb_true_r.
  - rewrite Hf, !foldl_add_missing_contains. subst l.
    destruct (has_tag "Tie" e); [|exact I].
    destruct (has_tag "Chord" e); cbn; now rewrite !orb_true_r.
  - rewrite Hf, !foldl_add_missing_contains. subst l.
    destruct (contains "acciaccatura" e); [|exact I].
    destruct (has_tag "Chord" e), (has_tag "Tie" e); cbn; now rewrite !orb_true_r.
  - rewrite (add_implied_children_fold (add_implied_children e)).
    assert (Hc : has_tag "Chord" (add_implied_children e) = has_tag "Chord" e)
      by (unfold has_tag; now rewrite H1).
    assert (Ht : has_tag "Tie" (add_implied_children e) = has_tag "Tie" e)
      by (unfold has_tag; now rewrite H1).
    assert (Ha : contains "acciaccatura" (add_implied_children e) = contains "acciaccatura" e).
    { rewrite Hf, foldl_add_missing_contains. subst l.
      destruct (has_tag "Chord" e), (has_tag "Tie" e), (contains "acciaccatura" e); cbn;
        now rewrite ?orb_false_r. }
    rewrite Hc, Ht, Ha. fold l. apply foldl_add_missing_id.
    intros tg Hin. rewrite Hf, foldl_add_missing_contains.
    assert (Hs : str_in tg l = true).
    { unfold str_in. apply existsb_exists. exists tg. split; [exact Hin|apply String.eqb_refl]. }
    rewrite Hs. apply orb_true_r.
Qed.

(** ** Grace notes *)

Lemma existsb_visible_walk (P : MElement → bool) flt (cs : list MElement) :
  (∀ c, has_tag "visible" c = true → P c = false) →
  (∀ c, P (set_visible_iter flt c) = P c) →
  ∀ drop, existsb P (visible_walk flt drop cs) = existsb P cs.
Proof.
  intros Hv Hp. induction cs as [|c cs IH]; intros drop; [reflexivity|].
  cbn [visible_walk existsb]. destruct (drop && has_tag "visible" c) eqn:E.
  - apply andb_true_iff in E as [_ E]. rewrite (Hv c E). cbn [orb]. apply IH.
  - cbn [existsb]. now rewrite Hp, IH.
Qed.

Lemma is_gracenote_set_visible_all e : is_gracenote (set_visible_all e) = is_gracenote e.
Proof.
  unfold is_gracenote, set_visible_all. rewrite set_visible_iter_children.
  apply existsb_visible_walk.
  - intros c Hc. unfold has_tag in Hc. apply String.eqb_eq in Hc. now rewrite Hc.
  - intros c. now rewrite tag_set_visible_iter.
Qed.

(** A grace note is made visible and nothing more: whatever its tag, its
    duration is not read, the cursor and the tuplet factor stay, the tremolo
    rule is not consulted, and the loop goes on or stops by the cursor as it
    was. *)
Theorem grace_note_keeps_cursor
    (py_eval : string → result num) (time_sig max_duration : num) (max_tremolo : Note)
    (i : nat) (w : walk) (e : MElement) :
  children (w_voice w) !! i = Some e →
  is_gracenote e = true →
  w_next w ≠ Some (Z.of_nat i) →
  visit py_eval time_sig max_duration max_tremolo i w
  = (last ← _last_element_in_measure (w_duration w) max_duration;
     Ok ({| w_voice := put_child (w_voice w) i (set_visible_all e);
            w_next := w_next w;
            w_duration := w_duration w;
            w_tuplet := w_tuplet w |},
         if (last : bool) then Break else Continue)).
Proof.
  intros He Hg Hn. unfold visit, child_at. rewrite He. cbn [mbind result_bind].
  rewrite (bool_decide_eq_false_2 _ Hn), is_gracenote_set_visible_all, Hg.
  reflexivity.
Qed.

Lemma grace_note_keeps_cursor_witness :
  ∃ w, visit no_eval (units 1024) (units 0) thirty_second 0 (walk_init grace_voice)
       = Ok (w, Continue)
       ∧ has_tag "Chord" grace_chord = true
       ∧ find "durationType" grace_chord = None
       ∧ w_duration w = PyInt 0.
Proof.
  eexists. split; [|split; [reflexivity|split; [reflexivity|]]].
  - rewrite (grace_note_keeps_cursor no_eval (units 1024) (units 0) thirty_second 0
               (walk_init grace_voice) grace_chord eq_refl eq_refl ltac:(discriminate)).
    reflexivity.
  - reflexivity.
Defined.

(** ** Duration values *)

(** [dot()] is [n_dot(1)] and [triplet()] is [n_tuplet(3, 2)]. *)
Theorem dot_and_triplet_are_instances (self : Note) :
  dot self = n_dot self 1 ∧ triplet self = n_tuplet self 3 2.
Proof.
  split; [|reflexivity]. unfold dot, n_dot.
  assert (H : dot_sum 1 = Ok (PyFloat f_1_5)) by (vm_compute; reflexivity).
  now rewrite H.
Qed.

Lemma same_float_eq f g : same_float f g = true → f = g.
Proof.
  destruct f as [s|s| |s m e], g as [s'|s'| |s' m' e']; cbn; try discriminate;
    try (intros H; apply Bool.eqb_prop in H; now subst); [reflexivity|].
  intros H. apply andb_true_iff in H as [H He]. apply andb_true_iff in H as [Hs Hm].
  apply Bool.eqb_prop in Hs. apply Pos.eqb_eq in Hm. apply Z.eqb_eq in He. now subst.
Qed.

Lemma ntype_round_trip_table : forallb ntype_round_trip (py_range 1024) = true.
Proof. vm_compute. reflexivity. Qed.

(** For the note types that are powers of two up to [2**1023], [ntype]
    gives back exactly the note type that the Duration Value was built
    from. *)
Theorem ntype_inverts_the_constructor (k : Z) :
  0 <= k <= 1023 →
  (n ← Note__init__ (PyInt (2 ^ k)); ntype n) = Ok (PyFloat (float_of_Z (2 ^ k)))
  ∧ finite_or_zero (float_of_Z (2 ^ k)) = true.
Proof.
  intros Hk. pose proof ntype_round_trip_table as H.
  rewrite forallb_forall in H. specialize (H k).
  assert (Hin : In k (py_range 1024)) by (apply In_py_range_iff; lia).
  specialize (H Hin). unfold ntype_round_trip in H.
  destruct (n ← Note__init__ (PyInt (2 ^ k)); ntype n) as [[z|f|f]|]; try discriminate.
  apply andb_true_iff in H as [H1 H2]. apply same_float_eq in H1. subst f. auto.
Qed.

Lemma ntype_inverts_the_constructor_witness :
  (n ← Note__init__ (PyInt (2 ^ 4)); ntype n) = Ok (PyFloat (float_of_Z (2 ^ 4))).
Proof. apply ntype_inverts_the_constructor. lia. Defined.

(** ** The baseline pass *)

Lemma add_implied_children_new e :
  ∃ new, children (add_implied_children e) = children e ++ new ∧ Forall implied_leaf new.
Proof.
  rewrite add_implied_children_fold.
  set (l := (if has_tag "Chord" e then ["Stem"; "Beam"; "Hook"] else [])
            ++ (if has_tag "Tie" e then ["TieSegment"] else [])
            ++ (if contains "acciaccatura" e then ["StemSlash"] else [])).
  destruct (foldl_add_missing_shape l e) as (_ & _ & _ & _ & new & H5 & H6).
  exists new. split; [exact H5|]. eapply Forall_impl; [exact H6|].
  intros c (tg & Hin & ->). unfold implied_leaf.
  assert (Hs : str_in tg ["Stem"; "Beam"; "Hook"; "TieSegment"; "StemSlash"] = true).
  { subst l. destruct (has_tag "Chord" e), (has_tag "Tie" e), (contains "acciaccatura" e);
      cbn in Hin; intuition (subst; reflexivity). }
  rewrite tag_new_element. split; [reflexivity|]. split; [reflexivity|].
  split; [reflexivity|]. split; [|exact Hs].
  unfold new_element, is_protected. cbn [visibility_locked].
  apply String.eqb_neq. intros ->. discriminate Hs.
Qed.

Lemma str_in_In s l : str_in s l = true ↔ In s l.
Proof.
  unfold str_in. rewrite existsb_exists. split.
  - intros (x & Hx & He). apply String.eqb_eq in He. now subst.
  - intros H. exists s. split; [exact H|apply String.eqb_refl].
Qed.

Lemma invisibilize_printable t : str_in t INVISIBILIZE = true → str_in t UNPRINTABLE = false.
Proof.
  intros H. apply str_in_In in H. unfold INVISIBILIZE in H.
  repeat (destruct H as [<-|H]; [reflexivity|]). destruct H.
Qed.

Lemma implied_leaf_not_marker c : implied_leaf c → has_tag "visible" c = false.
Proof.
  intros (_ & _ & _ & _ & H). apply str_in_In in H. unfold has_tag.
  repeat (destruct H as [<-|H]; [reflexivity|]). destruct H.
Qed.

(** The walk passes over an added leaf without changing it. *)
Lemma implied_leaf_fixed c :
  implied_leaf c → is_visible c = true ∧ add_implied_children c = c ∧ lock_or_complete c = c.
Proof.
  intros (Hc & Htx & Ha & Hp & Ht). destruct c as [t a tx cs l].
  cbn [children text attrib tag] in *. unfold is_protected in Hp. cbn in Hp. subst.
  apply str_in_In in Ht.
  repeat (destruct Ht as [<-|Ht]; [repeat split; reflexivity|]). destruct Ht.
Qed.

Lemma lock_or_complete_shape e :
  tag (lock_or_complete e) = tag e
  ∧ text (lock_or_complete e) = text e
  ∧ attrib (lock_or_complete e) = attrib e
  ∧ visibility_locked (lock_or_complete e) = visibility_locked e || negb (is_visible e)
  ∧ children (lock_or_complete e) = map lock_or_complete (children e) ++ lock_extra e.
Proof.
  destruct e as [t a tx cs l]. unfold lock_extra. cbn [lock_or_complete].
  destruct (is_visible (Element t a tx cs l)); cbn [tag text attrib visibility_locked children negb].
  - rewrite orb_false_r. auto.
  - rewrite orb_true_r, app_nil_r. auto.
Qed.

Lemma lock_extra_leaves e : Forall implied_leaf (lock_extra e).
Proof.
  unfold lock_extra. destruct (is_visible e); [|constructor].
  destruct (add_implied_children_new e) as (new & -> & Hn).
  now rewrite drop_app_length.
Qed.

Lemma invisibilize_iter_shape e :
  tag (invisibilize_iter e) = tag e
  ∧ text (invisibilize_iter e) = text e
  ∧ attrib (invisibilize_iter e) = attrib e
  ∧ visibility_locked (invisibilize_iter e) = visibility_locked e
  ∧ children (invisibilize_iter e) = map invisibilize_iter (children e) ++ hide_extra e.
Proof. destruct e as [t a tx cs l]. unfold hide_extra. cbn. auto. Qed.

Lemma hide_extra_spec e :
  hide_extra e
  = if hidden_by_baseline e && is_visible e then [invisible_marker] else [].
Proof.
  unfold hide_extra, invisibilize, hidden_by_baseline.
  destruct (str_in (tag e) INVISIBILIZE) eqn:Ei.
  - rewrite (invisibilize_printable _ Ei), andb_true_r.
    unfold set_invisible. destruct (is_protected e); cbn [negb andb].
    + now rewrite drop_all.
    + destruct (is_visible e); cbn [negb].
      * unfold append, with_children. cbn [children]. now rewrite drop_app_length.
      * now rewrite drop_all.
  - rewrite andb_false_r. cbn [andb]. destruct (str_in (tag e) UNPRINTABLE); now rewrite drop_all.
Qed.

Lemma markers_app e cs1 cs2 :
  children e = cs1 ++ cs2 →
  markers e = filter (fun c => has_tag "visible" c = true) cs1
              ++ filter (fun c => has_tag "visible" c = true) cs2.
Proof. unfold markers. intros ->. apply filter_app. Qed.

Lemma filter_markers_none (cs : list MElement) :
  Forall (fun c => has_tag "visible" c = false) cs →
  filter (fun c => has_tag "visible" c = true) cs = [].
Proof.
  induction 1 as [|c cs Hc _ IH]; [reflexivity|]. rewrite filter_cons, Hc.
  destruct (decide (false = true)); [discriminate|exact IH].
Qed.

Lemma filter_markers_map (f : MElement → MElement) (cs : list MElement) :
  (∀ c, tag (f c) = tag c) →
  filter (fun c => has_tag "visible" c = true) (map f cs)
  = map f (filter (fun c => has_tag "visible" c = true) cs).
Proof.
  intros Hf. induction cs as [|c cs IH]; [reflexivity|]. cbn [map].
  rewrite !filter_cons, (has_tag_of_tag "visible" c (f c) (Hf c)).
  destruct (decide (has_tag "visible" c = true)); cbn [map]; now rewrite IH.
Qed.

Lemma tag_lock_or_complete e : tag (lock_or_complete e) = tag e.
Proof. apply lock_or_complete_shape. Qed.

Lemma tag_invisibilize_iter e : tag (invisibilize_iter e) = tag e.
Proof. apply invisibilize_iter_shape. Qed.

Lemma markers_lock_or_complete e :
  markers (lock_or_complete e) = map lock_or_complete (markers e).
Proof.
  destruct (lock_or_complete_shape e) as (_ & _ & _ & _ & Hc).
  rewrite (markers_app _ _ _ Hc), filter_markers_map by apply tag_lock_or_complete.
  rewrite (filter_markers_none (lock_extra e)); [now rewrite app_nil_r|].
  eapply Forall_impl; [apply lock_extra_leaves|]. apply implied_leaf_not_marker.
Qed.

Lemma text_lock_or_complete e : text (lock_or_complete e) = text e.
Proof. apply lock_or_complete_shape. Qed.

Lemma text_invisibilize_iter e : text (invisibilize_iter e) = text e.
Proof. apply invisibilize_iter_shape. Qed.

Lemma is_visible_lock_or_complete e : is_visible (lock_or_complete e) = is_visible e.
Proof.
  rewrite !is_visible_markers, markers_lock_or_complete.
  destruct (markers e) as [|m ms]; [reflexivity|]. cbn [map].
  now rewrite text_lock_or_complete.
Qed.

Lemma markers_invisibilize_iter e :
  markers (invisibilize_iter e)
  = map invisibilize_iter (markers e)
    ++ (if hidden_by_baseline e && is_visible e then [invisible_marker] else []).
Proof.
  destruct (invisibilize_iter_shape e) as (_ & _ & _ & _ & Hc).
  rewrite (markers_app _ _ _ Hc), filter_markers_map by apply tag_invisibilize_iter.
  rewrite hide_extra_spec. f_equal. now destruct (_ && _).
Qed.

(** What the pass does to one node. *)
Lemma baseline_node n :
  tag (baseline n) = tag n
  ∧ text (baseline n) = text n
  ∧ attrib (baseline n) = attrib n
  ∧ (if is_visible n
     then is_protected (baseline n) = is_protected n
          ∧ (markers n = [] → is_visible (baseline n) = negb (hidden_by_baseline n))
     else is_protected (baseline n) = true ∧ is_visible (baseline n) = false).
Proof.
  unfold baseline.
  destruct (lock_or_complete_shape n) as (L1 & L2 & L3 & L4 & _).
  destruct (invisibilize_iter_shape (lock_or_complete n)) as (I1 & I2 & I3 & I4 & _).
  split; [congruence|]. split; [congruence|]. split; [congruence|].
  assert (Hm : markers (invisibilize_iter (lock_or_complete n))
               = map (fun c => invisibilize_iter (lock_or_complete c)) (markers n)
                 ++ (if hidden_by_baseline (lock_or_complete n) && is_visible n
                     then [invisible_marker] else [])).
  { rewrite markers_invisibilize_iter, markers_lock_or_complete, map_map.
    now rewrite is_visible_lock_or_complete. }
  unfold is_protected. rewrite I4, L4.
  destruct (is_visible n) eqn:Ev; cbn [negb].
  - rewrite orb_false_r. split; [reflexivity|]. intros Hno.
    rewrite is_visible_markers, Hm, Hno. cbn [map app].
    assert (Hh : hidden_by_baseline (lock_or_complete n) = hidden_by_baseline n).
    { unfold hidden_by_baseline, is_protected. rewrite L1, L4. cbn [negb].
      now rewrite orb_false_r. }
    rewrite Hh, andb_true_r. now destruct (hidden_by_baseline n).
  - rewrite orb_true_r. split; [reflexivity|].
    rewrite is_visible_markers in Ev. rewrite is_visible_markers, Hm.
    destruct (markers n) as [|m ms]; [discriminate|]. cbn [map app].
    now rewrite text_invisibilize_iter, text_lock_or_complete.
Qed.

Lemma baseline_children e :
  ∃ extra, children (baseline e) = map baseline (children e) ++ extra.
Proof.
  unfold baseline.
  destruct (lock_or_complete_shape e) as (_ & _ & _ & _ & Lc).
  destruct (invisibilize_iter_shape (lock_or_complete e)) as (_ & _ & _ & _ & Ic).
  rewrite Ic, Lc, map_app, map_map, <- app_assoc. eauto.
Qed.

(** The baseline pass keeps every node of the measure at its place, with
    its tag, text and attributes.  A node that the document hides is locked
    and stays hidden.  A node that the document shows keeps its lock, and if
    it carries no marker it ends hidden exactly when it is unlocked and its
    tag is one of [INVISIBILIZE]. *)
Theorem baseline_locks_what_is_hidden (e : MElement) (p : list nat) (n : MElement) :
  node_at p e = Some n →
  node_at p (baseline e) = Some (baseline n)
  ∧ tag (baseline n) = tag n
  ∧ text (baseline n) = text n
  ∧ attrib (baseline n) = attrib n
  ∧ (if is_visible n
     then is_protected (baseline n) = is_protected n
          ∧ (markers n = [] → is_visible (baseline n) = negb (hidden_by_baseline n))
     else is_protected (baseline n) = true ∧ is_visible (baseline n) = false).
Proof.
  intros H. split; [|apply baseline_node].
  revert e H. induction p as [|k p IH]; intros e H; cbn [node_at] in *.
  - now injection H as ->.
  - destruct (children e !! k) as [c|] eqn:Ec; [|discriminate].
    destruct (baseline_children e) as (extra & ->).
    rewrite lookup_app_l by (rewrite length_map; now apply lookup_lt_Some with c).
    change (map baseline (children e)) with (baseline <$> children e).
    rewrite list_lookup_fmap, Ec. cbn [fmap option_fmap option_map]. now apply IH.
Qed.

Lemma baseline_locks_what_is_hidden_witness :
  is_visible <$> node_at [1%nat] mixed_chord = Some false
  ∧ (is_protected <$> node_at [1%nat] (baseline mixed_chord) = Some true)
  ∧ (is_visible <$> node_at [1%nat] (baseline mixed_chord) = Some false)
  ∧ (is_visible <$> node_at [2%nat] mixed_chord = Some true)
  ∧ (is_visible <$> node_at [2%nat] (baseline mixed_chord) = Some false).
Proof.
  destruct (baseline_locks_what_is_hidden mixed_chord [1%nat] _ eq_refl)
    as (H1 & _ & _ & _ & H1p & H1v).
  destruct (baseline_locks_what_is_hidden mixed_chord [2%nat] _ eq_refl)
    as (H2 & _ & _ & _ & _ & H2v).
  rewrite H1, H2. cbn [fmap option_fmap option_map].
  split; [reflexivity|]. split; [now rewrite H1p|]. split; [now rewrite H1v|].
  split; [reflexivity|]. now rewrite (H2v eq_refl).
Defined.

(** ** Pages: what [read_score] counts and what the frames carry *)

Lemma page_break_markers_unfold e :
  page_break_markers e
  = (if has_tag "LayoutBreak" e
        && match find "subtype" e with
           | Some c => text_is (text c) "page"
           | None => false
           end
     then 1 else 0)
    + sumZ (map page_break_markers (children e)).
Proof. destruct e; reflexivity. Qed.

Lemma count_page_breaks_unfold e :
  count_page_breaks e
  = (own ← (if has_tag "LayoutBreak" e then
              sub ← find_text "subtype" e;
              Ok (if text_is sub "page" then 1 else 0)
            else Ok 0);
     below ← foldr (fun c acc => x ← count_page_breaks c; y ← acc; Ok (x + y)) (Ok 0)
               (children e);
     Ok (own + below)).
Proof.
  destruct e as [t a tx cs l]. cbn [count_page_breaks children]. unfold has_tag. cbn [tag].
  match goal with
  | |- context [mbind _ (?g cs)] =>
      assert (H : g cs = foldr (fun c acc => x ← count_page_breaks c; y ← acc; Ok (x + y))
                           (Ok 0) cs)
  end.
  { induction cs as [|c cs IH]; [reflexivity|]. cbn [foldr]. now rewrite <- IH. }
  now rewrite H.
Qed.

(** When the count of [read_score] succeeds, it is the number of page-break
    markers of the document. *)
Lemma count_page_breaks_markers : ∀ e k,
  count_page_breaks e = Ok k → k = page_break_markers e.
Proof.
  apply (MElement_ind' (fun e => ∀ k, count_page_breaks e = Ok k → k = page_break_markers e)).
  intros t a tx cs l IH k. rewrite count_page_breaks_unfold, page_break_markers_unfold.
  set (e := Element t a tx cs l). cbn [children].
  assert (Hb : ∀ b, foldr (fun c acc => x ← count_page_breaks c; y ← acc; Ok (x + y)) (Ok 0) cs
                    = Ok b → b = sumZ (map page_break_markers cs)).
  { clear k. induction IH as [|c cs Hc _ IHcs]; intros b; cbn [foldr map sumZ fold_right].
    - now intros [= <-].
    - destruct (count_page_breaks c) as [x|] eqn:Ex; [|discriminate]. cbn [mbind result_bind].
      destruct (foldr _ _ cs) as [y|]; [|discriminate]. cbn [mbind result_bind].
      intros [= <-]. rewrite (Hc x eq_refl). fold (sumZ (map page_break_markers cs)).
      now rewrite (IHcs y eq_refl). }
  destruct (has_tag "LayoutBreak" e) eqn:Et; cbn [andb].
  - unfold find_text. destruct (find "subtype" e) as [c|]; [|discriminate].
    cbn [mbind result_bind].
    destruct (foldr _ _ cs) as [b|]; [|discriminate]. cbn [mbind result_bind].
    intros [= <-]. now rewrite (Hb b eq_refl).
  - cbn [mbind result_bind].
    destruct (foldr _ _ cs) as [b|]; [|discriminate]. cbn [mbind result_bind].
    intros [= <-]. now rewrite (Hb b eq_refl).
Qed.

Lemma sumZ_filter_le (P : MElement → bool) (cs : list MElement) :
  sumZ (map page_break_markers (List.filter P cs)) <= sumZ (map page_break_markers cs).
Proof.
  induction cs as [|c cs IH]; [reflexivity|]. cbn [List.filter].
  pose proof (page_break_markers_nonneg c).
  destruct (P c); cbn [map sumZ fold_right];
    fold (sumZ (map page_break_markers cs));
    try fold (sumZ (map page_break_markers (List.filter P cs))); lia.
Qed.

Lemma findall_markers_le tg e :
  sumZ (map page_break_markers (findall tg e)) <= page_break_markers e.
Proof.
  etransitivity; [apply sumZ_filter_le|apply page_break_markers_children].
Qed.

Lemma flat_map_markers_le (f : MElement → list MElement) (l : list MElement) :
  (∀ e, sumZ (map page_break_markers (f e)) <= page_break_markers e) →
  sumZ (map page_break_markers (flat_map f l)) <= sumZ (map page_break_markers l).
Proof.
  intros Hf. induction l as [|e l IH]; [reflexivity|]. cbn [flat_map].
  rewrite map_app, sumZ_app. cbn [map sumZ fold_right].
  fold (sumZ (map page_break_markers l)). specialize (Hf e). lia.
Qed.

(** The measures of the staves carry no more page-break markers than the
    document. *)
Lemma staves_markers_le root : tree_page_break_markers (staves root) <= page_break_markers root.
Proof.
  unfold tree_page_break_markers, staves. fold sumZ.
  assert (H : sumZ (map (fun st => fold_right Z.add 0 (map page_break_markers st))
                      (map (findall "Measure") (score_staves root)))
              <= sumZ (map page_break_markers (score_staves root))).
  { induction (score_staves root) as [|s l IH]; [reflexivity|]. cbn [map sumZ fold_right].
    fold (sumZ (map page_break_markers l)).
    fold (sumZ (map (fun st => fold_right Z.add 0 (map page_break_markers st))
                  (map (findall "Measure") l))).
    pose proof (findall_markers_le "Measure" s) as Hs. unfold sumZ in Hs at 1. lia. }
  etransitivity; [exact H|]. unfold score_staves.
  etransitivity; [apply flat_map_markers_le; intros e; apply findall_markers_le|].
  apply findall_markers_le.
Qed.

Lemma find_app_none tg (cs extra : list MElement) :
  Forall (fun c => has_tag tg c = false) extra →
  List.find (has_tag tg) (cs ++ extra) = List.find (has_tag tg) cs.
Proof.
  intros He. induction cs as [|c cs IH]; cbn [app List.find].
  - induction He as [|x extra Hx _ IHe]; [reflexivity|]. cbn [List.find]. now rewrite Hx.
  - destruct (has_tag tg c); [reflexivity|exact IH].
Qed.

Lemma find_map_tag tg (f : MElement → MElement) (cs : list MElement) :
  (∀ c, tag (f c) = tag c) →
  List.find (has_tag tg) (map f cs) = f <$> List.find (has_tag tg) cs.
Proof.
  intros Hf. induction cs as [|c cs IH]; [reflexivity|]. cbn [map List.find].
  rewrite (has_tag_of_tag tg c (f c) (Hf c)). destruct (has_tag tg c); [reflexivity|exact IH].
Qed.

(** Children that carry no page break and are no subtype do not count. *)
Lemma page_break_markers_extend e (f : MElement → MElement) (extra : list MElement) e' :
  tag e' = tag e →
  children e' = map f (children e) ++ extra →
  (∀ c, tag (f c) = tag c ∧ text (f c) = text c) →
  Forall (fun c => page_break_markers (f c) = page_break_markers c) (children e) →
  Forall (fun c => page_break_markers c = 0 ∧ has_tag "subtype" c = false) extra →
  page_break_markers e' = page_break_markers e.
Proof.
  intros Ht Hc Hf Hp Hx. rewrite (page_break_markers_unfold e'), (page_break_markers_unfold e).
  rewrite (has_tag_of_tag "LayoutBreak" e e' Ht). unfold find. rewrite Hc.
  rewrite find_app_none by (eapply Forall_impl; [exact Hx|]; cbn; tauto).
  rewrite find_map_tag by (intros c; apply Hf).
  rewrite map_app, sumZ_app.
  assert (H1 : sumZ (map page_break_markers (map f (children e)))
               = sumZ (map page_break_markers (children e))).
  { clear Hc. induction Hp as [|c cs Hc0 _ IH]; [reflexivity|]. cbn [map sumZ fold_right].
    fold (sumZ (map page_break_markers (map f cs))). fold (sumZ (map page_break_markers cs)).
    now rewrite Hc0, IH. }
  assert (H2 : sumZ (map page_break_markers extra) = 0).
  { clear Hc. induction Hx as [|c cs [Hc0 _] _ IH]; [reflexivity|]. cbn [map sumZ fold_right].
    fold (sumZ (map page_break_markers cs)). now rewrite Hc0, IH. }
  rewrite H1, H2. destruct (List.find (has_tag "subtype") (children e)) as [c|]; cbn [fmap option_fmap option_map];
    [rewrite (proj2 (Hf c))|]; lia.
Qed.

Lemma marker_no_page_break :
  page_break_markers invisible_marker = 0 ∧ has_tag "subtype" invisible_marker = false.
Proof. split; reflexivity. Qed.

Lemma hide_extra_no_page_break e :
  Forall (fun c => page_break_markers c = 0 ∧ has_tag "subtype" c = false) (hide_extra e).
Proof.
  rewrite hide_extra_spec. destruct (_ && _); repeat constructor.
Qed.

Lemma page_break_markers_lock_or_complete : ∀ e,
  page_break_markers (lock_or_complete e) = page_break_markers e.
Proof.
  apply MElement_ind'. intros t a tx cs l IH. set (e := Element t a tx cs l).
  destruct (lock_or_complete_shape e) as (L1 & _ & _ & _ & L5).
  apply (page_break_markers_extend e lock_or_complete (lock_extra e)); auto.
  - intros c. split; [apply tag_lock_or_complete|apply text_lock_or_complete].
  - eapply Forall_impl; [apply lock_extra_leaves|]. intros c Hc.
    pose proof Hc as (Hcs & _ & _ & _ & Ht). apply str_in_In in Ht.
    destruct c as [ct ca ctx ccs cl]. cbn [children tag] in *. subst ccs. unfold has_tag.
    cbn [tag page_break_markers].
    repeat (destruct Ht as [<-|Ht]; [split; reflexivity|]). destruct Ht.
Qed.

Lemma page_break_markers_invisibilize_iter : ∀ e,
  page_break_markers (invisibilize_iter e) = page_break_markers e.
Proof.
  apply MElement_ind'. intros t a tx cs l IH. set (e := Element t a tx cs l).
  destruct (invisibilize_iter_shape e) as (I1 & _ & _ & _ & I5).
  apply (page_break_markers_extend e invisibilize_iter (hide_extra e)); auto.
  - intros c. split; [apply tag_invisibilize_iter|apply text_invisibilize_iter].
  - apply hide_extra_no_page_break.
Qed.

Lemma page_break_markers_baseline e : page_break_markers (baseline e) = page_break_markers e.
Proof.
  unfold baseline.
  now rewrite page_break_markers_invisibilize_iter, page_break_markers_lock_or_complete.
Qed.

Lemma page_break_markers_append_barline e :
  page_break_markers (append_new e "BarLine" None true) = page_break_markers e.
Proof.
  apply (page_break_markers_extend e (fun c => c) [new_element "BarLine" None true]).
  - reflexivity.
  - unfold append_new, append, with_children. cbn [children]. now rewrite map_id.
  - auto.
  - apply Forall_forall. auto.
  - repeat constructor.
Qed.

Lemma Ok_inj {A} (x y : A) : @Ok A x = Ok y → x = y.
Proof. now intros [= ->]. Qed.

Lemma page_break_markers_first m first first' rest :
  children m = first :: rest →
  tag first' = tag first → text first' = text first →
  page_break_markers first' = page_break_markers first →
  page_break_markers (with_children m (first' :: rest)) = page_break_markers m.
Proof.
  intros Ec Ht Hx Hp.
  rewrite (page_break_markers_unfold (with_children _ _)), (page_break_markers_unfold m).
  assert (Hl : has_tag "LayoutBreak" (with_children m (first' :: rest)) = has_tag "LayoutBreak" m)
    by reflexivity.
  rewrite Hl. unfold find.
  change (children (with_children m (first' :: rest))) with (first' :: rest).
  rewrite Ec. cbn [List.find map].
  rewrite (has_tag_of_tag "subtype" first first' Ht).
  change (sumZ (page_break_markers first' :: map page_break_markers rest))
    with (page_break_markers first' + sumZ (map page_break_markers rest)).
  change (sumZ (page_break_markers first :: map page_break_markers rest))
    with (page_break_markers first + sumZ (map page_break_markers rest)).
  rewrite Hp. destruct (has_tag "subtype" first); [rewrite Hx|]; reflexivity.
Qed.

Lemma baseline_measure_markers last m m' :
  baseline_measure last m = Ok m' → page_break_markers m' = page_break_markers m.
Proof.
  unfold baseline_measure. destruct last; cbn [negb mbind result_bind].
  - intros H. apply Ok_inj in H. subst m'. apply page_break_markers_baseline.
  - destruct (children m) as [|first rest] eqn:Ec; [discriminate|].
    destruct (contains "BarLine" first); cbn [negb mbind result_bind];
      intros H; apply Ok_inj in H; subst m';
      rewrite page_break_markers_invisibilize_iter, page_break_markers_lock_or_complete;
      [reflexivity|].
    apply (page_break_markers_first m first); [exact Ec|reflexivity|reflexivity|].
    apply page_break_markers_append_barline.
Qed.

Lemma grid_markers (t t' : tree) :
  Forall2 (Forall2 (fun m m' => page_break_markers m' = page_break_markers m)) t t' →
  tree_page_break_markers t' = tree_page_break_markers t.
Proof.
  unfold tree_page_break_markers.
  induction 1 as [|st st' t t' Hst _ IH]; [reflexivity|]. cbn [map fold_right].
  rewrite IH. f_equal.
  induction Hst as [|m m' st st' Hm _ IHst]; [reflexivity|]. cbn [map fold_right].
  now rewrite Hm, IHst.
Qed.

Lemma baseline_from_markers n : ∀ i t t',
  (∀ k, (i <= k < i + n)%nat → Forall (fun st => (k < List.length st)%nat) t) →
  baseline_from n i t = Ok t' →
  Forall2 (Forall2 (fun m m' => page_break_markers m' = page_break_markers m)) t t'.
Proof.
  induction n as [|n IH]; intros i t t' Hl; cbn [baseline_from].
  - intros [= <-]. now apply grid_R_refl.
  - destruct (map_result _ (column i t)) as [ms|] eqn:Em; [|discriminate].
    cbn [mbind result_bind]. intros H.
    assert (H1 : Forall2 (Forall2 (fun m m' => page_break_markers m' = page_break_markers m))
                   t (set_column i ms t)).
    { apply set_column_R; [reflexivity|apply Hl; lia|].
      eapply map_result_Forall2; [|exact Em]. intros a b. apply baseline_measure_markers. }
    eapply grid_R_trans; [|exact H1|].
    + intros a b c Hab Hbc. congruence.
    + apply (IH (S i)); [|exact H]. intros k Hk.
      eapply grid_R_lengths; [exact H1|]. apply Hl. lia.
Qed.

(** Every frame carries a page that [read_score] has counted: when the
    count of the page breaks of the document succeeds with [_page_num], the
    baseline pass over the measures of the document returns, and the run of
    the sequencer on them completes, every page number yielded lies between 1
    and [_page_num]. *)
Theorem pages_within_page_num
    (py_eval : string → result num) (self : Amusing) (max_tremolo : Note)
    (baseroot : MElement) (_page_num : Z) (t t' : tree) :
  read_page_num baseroot = Ok _page_num →
  _invisibilize_measures (staves baseroot) = Ok t →
  ended (_get_trees py_eval self max_tremolo t) = Ok t' →
  ∀ page, In page (map fst (yielded (_get_trees py_eval self max_tremolo t))) →
          1 <= page <= _page_num.
Proof.
  unfold read_page_num, _invisibilize_measures. intros Hp Hb Hg page Hin.
  destruct (count_page_breaks baseroot) as [k|] eqn:Ek; [|discriminate].
  injection Hp as <-. apply count_page_breaks_markers in Ek. subst k.
  destruct (get_trees_pages py_eval self max_tremolo t t' Hg) as (Hc & _ & _).
  pose proof (climbs_range _ _ _ Hc page Hin) as Hr.
  pose proof (page_breaks_le_markers t (ncols t)) as Hle.
  assert (Hm : tree_page_break_markers t = tree_page_break_markers (staves baseroot)).
  { apply grid_markers. apply (baseline_from_markers (ncols (staves baseroot)) 0); [|exact Hb].
    intros k Hk. apply ncols_lt. lia. }
  pose proof (staves_markers_le baseroot). lia.
Qed.

Lemma pages_within_page_num_witness :
  read_page_num sample_score = Ok 2
  ∧ ∃ t, _invisibilize_measures (staves sample_score) = Ok t
         ∧ map fst (yielded (_get_trees no_eval quarter_steps thirty_second t))
           = [1; 1; 1; 1; 1; 2; 2]
         ∧ ∀ page, In page (map fst (yielded (_get_trees no_eval quarter_steps thirty_second t)))
                   → 1 <= page <= 2.
Proof.
  split; [reflexivity|].
  set (r := _invisibilize_measures (staves sample_score)).
  set (t := match r with Ok t => t | Raise _ => [] end).
  assert (Hr : r = Ok t) by (vm_compute; reflexivity).
  exists t. split; [exact Hr|].
  set (g := _get_trees no_eval quarter_steps thirty_second t).
  set (t1 := match ended g with Ok x => x | Raise _ => [] end).
  assert (Hg : ended g = Ok t1) by (vm_compute; reflexivity).
  split; [vm_compute; reflexivity|].
  exact (pages_within_page_num no_eval quarter_steps thirty_second sample_score 2 t t1
           eq_refl Hr Hg).
Defined.
